(** * VAST validator: a shallow embedding of [validator/*.go]

    The development follows the Go package [validator] of
    admein-vast-generator: the generic XML tree ([parser.go]), the schema
    catalog ([catalog.go]), the recursive engine ([validator.go]), the hook
    registries ([custom.go]), the media probe ([http_helpers.go]) and the
    category summaries ([result.go]).

    Conventions.
    - A Go [string] is a [string]; a slice is a [list] ([nil] is [[]]); a Go
      [map[string]*T] whose entries are never [nil] is a [gmap string T].
      Where the code ranges over a map, whose order Go leaves open, the
      entries are taken in the order of [map_to_list] and the statements do
      not depend on that order.
    - A pointer to an analysis bucket held in [NodeResult.Analyses] is the
      category key of that bucket; a write through the pointer is an [alter]
      of the map at that key. A hook hands over a result of its own at every
      call, so no bucket is shared between two node results.
    - The requests of the HTTP client are effects on a network state [Net]
      that the traversal threads through, in the order of the calls.
    - Functions of the Go standard library that the package calls
      ([strings.TrimSpace], [strings.ToLower], [strconv.Quote] behind [%q],
      [url.Parse], the [encoding/xml] tokenizer, [http.Client.Do]) are
      parameters of the sections below; small ASCII instances are given at
      the end for concrete runs. *)

From Stdlib Require Import Ascii.
From stdpp Require Import gmap strings list fin_maps pretty.

Local Open Scope string_scope.
Local Open Scope Z_scope.
Local Open Scope list_scope.

(** ** [vast/version.go] *)

Definition Version := string.

Definition Version20 : Version := "2.0".
Definition Version30 : Version := "3.0".
Definition Version40 : Version := "4.0".
Definition Version41 : Version := "4.1".
Definition Version42 : Version := "4.2".
Definition Version43 : Version := "4.3".

(** ** [catalog.go]: the schema catalog *)

Record AttributeSpec := mkAttributeSpec {
  AS_Name : string;
  AS_Versions : list Version;
  AS_Required : bool;
  AS_AllowEmpty : bool
}.

Record ChildSpec := mkChildSpec {
  CS_Name : string;
  CS_Versions : list Version;
  CS_Optional : bool;
  CS_Multiple : bool
}.

Record NodeSpec := mkNodeSpec {
  NS_Name : string;
  NS_Versions : list Version;
  NS_Attributes : gmap string AttributeSpec;
  NS_Children : gmap string ChildSpec;
  NS_AllowUnknownChildren : bool
}.

(** [Catalog.Nodes]; the receiver of [node] is never [nil] in [Validate]
    ([WithCatalog] ignores a [nil] catalog). *)
Abbreviation Catalog := (gmap string NodeSpec).

Definition Catalog_node (c : Catalog) (name : string) : option NodeSpec :=
  c !! name.

(** The loop shared by the three [supports] methods. *)
Fixpoint versions_contain (vs : list Version) (version : Version) : bool :=
  match vs with
  | [] => false
  | v :: rest => if decide (v = version) then true else versions_contain rest version
  end.

Definition NodeSpec_supports (spec : NodeSpec) (version : Version) : bool :=
  versions_contain (NS_Versions spec) version.

Definition ChildSpec_supports (spec : ChildSpec) (version : Version) : bool :=
  versions_contain (CS_Versions spec) version.

Definition AttributeSpec_supports (spec : AttributeSpec) (version : Version) : bool :=
  versions_contain (AS_Versions spec) version.

(** [attribute] and [child] accept a [nil] receiver. *)
Definition NodeSpec_attribute (spec : option NodeSpec) (name : string) : option AttributeSpec :=
  match spec with
  | None => None
  | Some s => NS_Attributes s !! name
  end.

Definition NodeSpec_child (spec : option NodeSpec) (name : string) : option ChildSpec :=
  match spec with
  | None => None
  | Some s => NS_Children s !! name
  end.

(** ** [parser.go]: the generic tree *)

Record xml_Name := mkName { Space : string; Local : string }.

Record xml_Attr := mkAttr { Attr_Name : xml_Name; Attr_Value : string }.

#[local] Unset Elimination Schemes.

Inductive genericNode := mkNode {
  gn_Name : xml_Name;
  Attrs : list xml_Attr;
  gn_Children : list genericNode;
  Content : string
}.

#[local] Set Elimination Schemes.

Definition localName (n : genericNode) : string := Local (gn_Name n).

(** The loop returns at the first attribute whose local name matches. *)
Fixpoint attrValue_in (attrs : list xml_Attr) (name : string) : option string :=
  match attrs with
  | [] => None
  | attr :: rest =>
      if decide (Local (Attr_Name attr) = name) then Some (Attr_Value attr)
      else attrValue_in rest name
  end.

Definition attrValue (n : genericNode) (name : string) : option string :=
  attrValue_in (Attrs n) name.

(** ** Result types, as [validator.go] builds and reads them *)

Definition ResultStatus := string.

Definition StatusPass : ResultStatus := "pass".
Definition StatusFail : ResultStatus := "fail".
Definition StatusInfo : ResultStatus := "info".

Record AttributeResult := mkAttributeResult {
  AR_Name : string;
  AR_VersionSupport : list Version;
  AR_Status : ResultStatus;
  AR_Reasons : list string
}.

Record NodeAnalysisResult := mkAnalysis {
  Category : string;
  Status : ResultStatus;
  Reasons : list string;
  Attributes : list AttributeResult
}.

#[local] Unset Elimination Schemes.

Inductive NodeResult := mkNodeResult {
  Node : string;
  VersionSupport : list Version;
  Analyses : gmap string NodeAnalysisResult;
  Children : list NodeResult
}.

#[local] Set Elimination Schemes.

Definition IABAnalysisCategory : string := "iab.analysis".
Definition CustomAnalysisCategory : string := "custom.analysis".

Definition addReason (r : AttributeResult) (msg : string) : AttributeResult :=
  {| AR_Name := AR_Name r; AR_VersionSupport := AR_VersionSupport r;
     AR_Status := AR_Status r; AR_Reasons := AR_Reasons r ++ [msg] |}.

Definition setAttrStatus (r : AttributeResult) (s : ResultStatus) : AttributeResult :=
  {| AR_Name := AR_Name r; AR_VersionSupport := AR_VersionSupport r;
     AR_Status := s; AR_Reasons := AR_Reasons r |}.

Definition setAttrVersionSupport (r : AttributeResult) (vs : list Version) : AttributeResult :=
  {| AR_Name := AR_Name r; AR_VersionSupport := vs;
     AR_Status := AR_Status r; AR_Reasons := AR_Reasons r |}.

Definition addAttribute (nar : NodeAnalysisResult) (result : AttributeResult) : NodeAnalysisResult :=
  {| Category := Category nar; Status := Status nar; Reasons := Reasons nar;
     Attributes := Attributes nar ++ [result] |}.

Definition setAnalyses (nr : NodeResult) (m : gmap string NodeAnalysisResult) : NodeResult :=
  {| Node := Node nr; VersionSupport := VersionSupport nr; Analyses := m;
     Children := Children nr |}.

Definition setChildren (nr : NodeResult) (cs : list NodeResult) : NodeResult :=
  {| Node := Node nr; VersionSupport := VersionSupport nr; Analyses := Analyses nr;
     Children := cs |}.

(** [addAnalysis] makes sure the bucket exists; the pointer it returns is the
    bucket stored under [category]. *)
Definition addAnalysis (nr : NodeResult) (category : string) : NodeResult :=
  match Analyses nr !! category with
  | Some _ => nr
  | None =>
      setAnalyses nr (<[category := mkAnalysis category StatusPass [] []]> (Analyses nr))
  end.

(** A write through a bucket pointer obtained from [addAnalysis]. *)
Definition onAnalysis (category : string) (f : NodeAnalysisResult → NodeAnalysisResult)
    (nr : NodeResult) : NodeResult :=
  setAnalyses nr (alter f category (Analyses nr)).

(** The loop of [markFailure] over its variadic reasons. *)
Fixpoint appendReasons (acc reasons : list string) : list string :=
  match reasons with
  | [] => acc
  | reason :: rest =>
      if decide (reason = "") then appendReasons acc rest
      else appendReasons (acc ++ [reason]) rest
  end.

(** [analysis] is never [nil] where the package calls [markFailure]. *)
Definition markFailure (analysis : NodeAnalysisResult) (reasons : list string) : NodeAnalysisResult :=
  {| Category := Category analysis;
     Status := if decide (Status analysis ≠ StatusFail) then StatusFail else Status analysis;
     Reasons := appendReasons (Reasons analysis) reasons;
     Attributes := Attributes analysis |}.

Definition mergeAnalysis (nodeResult : NodeResult) (analysis : NodeAnalysisResult) : NodeResult :=
  match Analyses nodeResult !! Category analysis with
  | None => setAnalyses nodeResult (<[Category analysis := analysis]> (Analyses nodeResult))
  | Some existing =>
      let existing1 :=
        {| Category := Category existing; Status := Status existing;
           Reasons := Reasons existing;
           Attributes := Attributes existing ++ Attributes analysis |} in
      let existing2 :=
        if decide (Status analysis = StatusFail)
        then markFailure existing1 (Reasons analysis) else existing1 in
      setAnalyses nodeResult (<[Category analysis := existing2]> (Analyses nodeResult))
  end.

(** ** [custom.go]: hook context and registries *)

Record NodeContext := mkContext {
  ctx_Node : option genericNode;
  ctx_Version : Version
}.

Definition NodeValidatorFunc := NodeContext → option NodeAnalysisResult.

(** ** HTTP requests and responses, as the probe uses them *)

Record Request := mkRequest {
  Method : string;
  URL : string;
  Header : list (string * string)
}.

(** [RespHeader] is keyed by canonical header name; [Header.Get] of an absent
    key is the empty string. *)
Record Response := mkResponse {
  StatusCode : Z;
  RespHeader : gmap string string
}.

Definition Header_Get (resp : Response) (key : string) : string :=
  default "" (RespHeader resp !! key).

Definition MethodHead : string := "HEAD".
Definition MethodGet : string := "GET".
Definition StatusMethodNotAllowed : Z := 405.
Definition probeRangeHeader : string := "bytes=0-0".

(** What [url.Parse] returns, reduced to what the probe reads. *)
Record url_URL := mkURL {
  Scheme : string;
  Host : string;
  URL_String : string
}.

(** Errors of [normalizeProbeURL], one constructor per [errors.New] or
    [fmt.Errorf] of the function. *)
Inductive ProbeURLError :=
  | ErrMediaURLEmpty
  | ErrInvalidMediaURL (raw : string) (err : string)
  | ErrMissingSchemeOrHost (raw : string)
  | ErrUnsupportedScheme (scheme : string).

Definition HasPrefix (s prefix : string) : bool := String.prefix prefix s.

(** ** [result.go]: category summaries

    The copy of [result.go] among the sources declares buckets that carry a
    single [Reason]; [summarizeCategories] is embedded on those declarations,
    in a name space of its own. *)

(** Go's [int] on a 64-bit platform. *)
Definition int_wrap (z : Z) : Z := (z + 2 ^ 63) mod 2 ^ 64 - 2 ^ 63.

Definition int_incr (z : Z) : Z := int_wrap (z + 1).

Record CategorySummary := mkSummary {
  Sum_Category : string;
  TotalNodes : Z;
  FailingNodes : Z;
  Sum_Status : ResultStatus;
  Sum_Reasons : list string
}.

Module Summary.

Record AttributeResult := mkAttributeResult {
  AR_Name : string;
  AR_VersionSupport : list Version;
  AR_Status : ResultStatus;
  AR_Reason : string
}.

Record NodeAnalysisResult := mkAnalysis {
  Category : string;
  Status : ResultStatus;
  Reason : string;
  Attributes : list AttributeResult
}.

#[local] Unset Elimination Schemes.

(** [Children] is a slice of pointers; [walk] skips the [nil] ones. *)
Inductive NodeResult := mkNodeResult {
  Node : string;
  VersionSupport : list Version;
  Analyses : gmap string NodeAnalysisResult;
  Children : list (option NodeResult)
}.

#[local] Set Elimination Schemes.

(** The body of the loop over [node.Analyses]. *)
Definition touch (category : string) (analysis : NodeAnalysisResult)
    (summaries : gmap string CategorySummary) : gmap string CategorySummary :=
  let summary :=
    match summaries !! category with
    | Some s => s
    | None => mkSummary category 0 0 StatusPass []
    end in
  let summary :=
    mkSummary (Sum_Category summary) (int_incr (TotalNodes summary))
      (FailingNodes summary) (Sum_Status summary) (Sum_Reasons summary) in
  let summary :=
    if decide (Status analysis = StatusFail) then
      mkSummary (Sum_Category summary) (TotalNodes summary)
        (int_incr (FailingNodes summary)) StatusFail
        (if bool_decide (Reason analysis ≠ "") && (length (Sum_Reasons summary) <? 5)%nat
         then Sum_Reasons summary ++ [Reason analysis]
         else Sum_Reasons summary)
    else summary in
  <[category := summary]> summaries.

Fixpoint walk (node : NodeResult) (summaries : gmap string CategorySummary)
    {struct node} : gmap string CategorySummary :=
  let summaries := map_fold touch summaries (Analyses node) in
  let fix children (cs : list (option NodeResult))
      (summaries : gmap string CategorySummary) : gmap string CategorySummary :=
    match cs with
    | [] => summaries
    | None :: rest => children rest summaries
    | Some child :: rest => children rest (walk child summaries)
    end in
  children (match node with mkNodeResult _ _ _ c => c end) summaries.

Definition summarizeCategories (root : option NodeResult)
    : option (gmap string CategorySummary) :=
  match root with
  | None => None
  | Some r =>
      let summaries := walk r ∅ in
      if decide (size summaries = 0%nat) then None else Some summaries
  end.

(** The nodes of a result tree in pre-order (document order). *)
Fixpoint preorder (node : NodeResult) : list NodeResult :=
  node ::
  (fix children (cs : list (option NodeResult)) : list NodeResult :=
     match cs with
     | [] => []
     | None :: rest => children rest
     | Some child :: rest => preorder child ++ children rest
     end) (match node with mkNodeResult _ _ _ c => c end).

(** The buckets of one category, in pre-order. *)
Definition contributions (category : string) (root : NodeResult) : list NodeAnalysisResult :=
  omap (λ n, Analyses n !! category) (preorder root).

Definition failing (analysis : NodeAnalysisResult) : Prop := Status analysis = StatusFail.

#[global] Instance failing_dec analysis : Decision (failing analysis).
Proof. unfold failing. apply _. Defined.

(** The reasons of the failing buckets, the empty ones left out. *)
Definition failureReasons (contribs : list NodeAnalysisResult) : list string :=
  filter (λ r, r ≠ "") (Reason <$> filter failing contribs).

End Summary.

Section Library.

(** [strings.TrimSpace], [strings.ToLower], [strconv.Quote] (the [%q] verb)
    and [url.Parse]; an error of [url.Parse] is its message. *)
Variable TrimSpace : string → string.
Variable ToLower : string → string.
Variable Quote : string → string.
Variable url_Parse : string → url_URL + string.

(** *** [custom.go] *)

Definition Text (ctx : NodeContext) : string :=
  match ctx_Node ctx with
  | None => ""
  | Some n => TrimSpace (Content n)
  end.

Definition Attribute (ctx : NodeContext) (name : string) : option string :=
  match ctx_Node ctx with
  | None => None
  | Some n => attrValue n name
  end.

(** [customValidators]: the value at an absent key is the [nil] slice. *)
Definition RegisterCustomValidator (customValidators : gmap string (list NodeValidatorFunc))
    (nodeName : string) (validator : option NodeValidatorFunc)
    : gmap string (list NodeValidatorFunc) :=
  match validator with
  | None => customValidators
  | Some v =>
      let key := ToLower nodeName in
      <[key := default [] (customValidators !! key) ++ [v]]> customValidators
  end.

Definition getCustomValidators (customValidators : gmap string (list NodeValidatorFunc))
    (nodeName : string) : list NodeValidatorFunc :=
  [] ++ default [] (customValidators !! ToLower nodeName).

(** *** [http_helpers.go] *)

Definition ProbeURLError_Error (e : ProbeURLError) : string :=
  match e with
  | ErrMediaURLEmpty => "media URL is empty"
  | ErrInvalidMediaURL raw err => "invalid media URL " +:+ Quote raw +:+ ": " +:+ err
  | ErrMissingSchemeOrHost raw =>
      "invalid media URL " +:+ Quote raw +:+ ": missing scheme or host"
  | ErrUnsupportedScheme scheme => "unsupported media URL scheme " +:+ Quote scheme
  end.

Definition normalizeProbeURL (raw : string) : string + ProbeURLError :=
  let trimmed := TrimSpace raw in
  if decide (trimmed = "") then inr ErrMediaURLEmpty
  else
    let trimmed := if HasPrefix trimmed "//" then "https:" +:+ trimmed else trimmed in
    match url_Parse trimmed with
    | inr err => inr (ErrInvalidMediaURL raw err)
    | inl parsed =>
        if decide (Scheme parsed = "" ∨ Host parsed = "")
        then inr (ErrMissingSchemeOrHost raw)
        else if decide (Scheme parsed ≠ "http" ∧ Scheme parsed ≠ "https")
        then inr (ErrUnsupportedScheme (Scheme parsed))
        else inl (URL_String parsed)
    end.

Section Network.

(** [Net] is the state of everything the HTTP client talks to; a client
    is what [http.Client.Do] does to it. A transport error is its
    message. *)
Variable Net : Type.

Definition Client := Request → Net → (Response + string) * Net.

Variable DefaultClient : Client.

(** [http.NewRequestWithContext] with a fixed valid method and a live
    context fails exactly when [url.Parse] rejects the target. *)
Definition doHTTPRequest (client : option Client) (method target : string)
    (headers : list (string * string)) (net : Net) : (Response + string) * Net :=
  let client := match client with None => DefaultClient | Some c => c end in
  match url_Parse target with
  | inr err => (inr err, net)
  | inl _ =>
      let req := mkRequest method target headers in
      match client req net with
      | (inr err, net') => (inr err, net')
      | (inl resp, net') => (inl resp, net')
      end
  end.

Definition probeMediaURL (client : option Client) (rawURL : string) (net : Net)
    : (Response + string) * Net :=
  match normalizeProbeURL rawURL with
  | inr err => (inr (ProbeURLError_Error err), net)
  | inl normalized =>
      match doHTTPRequest client MethodHead normalized [] net with
      | (inl resp, net1) =>
          if decide (StatusCode resp ≠ StatusMethodNotAllowed)
          then (inl resp, net1)
          else doHTTPRequest client MethodGet normalized
                 [("Range", probeRangeHeader)] net1
      | (inr err, net1) => (inr err, net1)
      end
  end.

(** *** [parser.go]: the built-in media-file hook *)

(** [actual[:idx]] for [idx := strings.Index(actual, ";")], when [idx >= 0]. *)
Fixpoint beforeSemicolon (s : string) : option string :=
  match s with
  | EmptyString => None
  | String c rest =>
      if decide (c = ";"%char) then Some EmptyString
      else match beforeSemicolon rest with
           | Some p => Some (String c p)
           | None => None
           end
  end.

Definition HTTPValidatorFunc :=
  NodeContext → option Client → Net → (option NodeAnalysisResult * option string) * Net.

Definition failedCustom (reason : string) : NodeAnalysisResult :=
  mkAnalysis CustomAnalysisCategory StatusFail [reason] [].

(** The content-type comparison that follows the status check. *)
Definition contentTypeMismatch (nodeCtx : NodeContext) (resp : Response) : option string :=
  match Attribute nodeCtx "type" with
  | None => None
  | Some expected =>
      let expected := ToLower (TrimSpace expected) in
      if decide (expected ≠ "") then
        let actual := ToLower (TrimSpace (Header_Get resp "Content-Type")) in
        let actual := match beforeSemicolon actual with
                      | Some p => TrimSpace p
                      | None => actual
                      end in
        if decide (actual ≠ "" ∧ actual ≠ expected)
        then Some ("content type mismatch: expected " +:+ expected +:+ ", got " +:+ actual)
        else None
      else None
  end.

Definition mediaFileHTTPValidator : HTTPValidatorFunc := λ nodeCtx client net,
  let url := Text nodeCtx in
  if decide (url = "") then
    ((Some (failedCustom "media file URL is empty"), None), net)
  else
    match probeMediaURL client url net with
    | (inr err, net1) =>
        ((Some (failedCustom ("media file request failed: " +:+ err)), None), net1)
    | (inl resp, net1) =>
        if decide (StatusCode resp >= 400) then
          ((Some (failedCustom ("media file responded with HTTP " +:+ pretty (StatusCode resp))),
            None), net1)
        else
          match contentTypeMismatch nodeCtx resp with
          | Some msg => ((Some (failedCustom msg), None), net1)
          | None => ((Some (mkAnalysis CustomAnalysisCategory StatusPass [] []), None), net1)
          end
    end.

(** *** [custom.go]: the HTTP registry *)

Definition RegisterHTTPValidator (store : gmap string (list HTTPValidatorFunc))
    (nodeName : string) (validator : option HTTPValidatorFunc)
    : gmap string (list HTTPValidatorFunc) :=
  match validator with
  | None => store
  | Some v =>
      let key := ToLower nodeName in
      <[key := default [] (store !! key) ++ [v]]> store
  end.

Definition getHTTPValidators (store : gmap string (list HTTPValidatorFunc))
    (nodeName : string) : list HTTPValidatorFunc :=
  [] ++ default [] (store !! ToLower nodeName).

Definition registerBuiltInHTTPValidators (store : gmap string (list HTTPValidatorFunc))
    : gmap string (list HTTPValidatorFunc) :=
  RegisterHTTPValidator store "MediaFile" (Some mediaFileHTTPValidator).

(** The two process-wide registries, read by every validation pass. *)
Record Registries := mkRegistries {
  customValidators : gmap string (list NodeValidatorFunc);
  HTTPValidatorRegistry : gmap string (list HTTPValidatorFunc)
}.

Record HTTPValidationOptions := mkHTTPOptions {
  opt_Client : option Client;
  Timeout : Z
}.

Definition HTTPValidationOptions_client (opts : HTTPValidationOptions) : Client :=
  match opt_Client opts with
  | None => DefaultClient
  | Some c => c
  end.

(** *** [validator.go]: configuration *)

Record config := mkConfig {
  catalog : Catalog;
  runCustom : bool;
  runHTTP : bool;
  httpOptions : HTTPValidationOptions
}.

(** The table of [catalog.go]; nothing below depends on its entries. *)
Variable defaultCatalog : Catalog.

Definition defaultConfig : config :=
  mkConfig defaultCatalog true true (mkHTTPOptions None 2000000000).

Definition Option := config → config.

Definition WithCatalog (c : option Catalog) : Option := λ cfg,
  match c with
  | Some c' => mkConfig c' (runCustom cfg) (runHTTP cfg) (httpOptions cfg)
  | None => cfg
  end.

Definition DisableCustomValidators : Option := λ cfg,
  mkConfig (catalog cfg) false false (httpOptions cfg).

Definition DisableHTTPValidators : Option := λ cfg,
  mkConfig (catalog cfg) (runCustom cfg) false (httpOptions cfg).

Definition WithHTTPValidationOptions (opts : HTTPValidationOptions) : Option := λ cfg,
  mkConfig (catalog cfg) (runCustom cfg) (runHTTP cfg) opts.

Definition applyOptions (cfg : config) (opts : list Option) : config :=
  fold_left (λ c opt, opt c) opts cfg.

(** *** [validator.go]: attribute validation *)

(** One iteration of the loop over [node.Attrs]; [analysis] is the bucket
    behind the pointer the function was given. *)
Definition validateAttribute (version : Version) (spec : option NodeSpec)
    (analysis : NodeAnalysisResult) (attr : xml_Attr) : NodeAnalysisResult :=
  let attrName := Local (Attr_Name attr) in
  let attributeResult := mkAttributeResult attrName [] StatusPass [] in
  match spec with
  | None =>
      let msg := "node is not recognized; attribute cannot be validated" in
      let attributeResult := addReason (setAttrStatus attributeResult StatusFail) msg in
      markFailure (addAttribute analysis attributeResult) [msg]
  | Some s =>
      match NodeSpec_attribute spec attrName with
      | None =>
          let msg := "attribute " +:+ attrName +:+ " is not allowed on " +:+ NS_Name s in
          let attributeResult := addReason (setAttrStatus attributeResult StatusFail) msg in
          markFailure (addAttribute analysis attributeResult) [msg]
      | Some attrSpec =>
          let attributeResult := setAttrVersionSupport attributeResult (AS_Versions attrSpec) in
          let '(attributeResult, analysis) :=
            if negb (AttributeSpec_supports attrSpec version) then
              let msg := "attribute " +:+ attrName +:+ " is not supported in VAST " +:+ version in
              (addReason (setAttrStatus attributeResult StatusFail) msg,
               markFailure analysis [msg])
            else (attributeResult, analysis) in
          let value := TrimSpace (Attr_Value attr) in
          let '(attributeResult, analysis) :=
            if bool_decide (value = "") && negb (AS_AllowEmpty attrSpec) then
              let msg := "attribute " +:+ attrName +:+ " cannot be empty" in
              (addReason (setAttrStatus attributeResult StatusFail) msg,
               markFailure analysis [msg])
            else (attributeResult, analysis) in
          addAttribute analysis attributeResult
      end
  end.

(** The first loop, threading the [seen] set and the bucket. *)
Fixpoint validatePresent (version : Version) (spec : option NodeSpec)
    (attrs : list xml_Attr) (seen : gset string) (analysis : NodeAnalysisResult)
    : gset string * NodeAnalysisResult :=
  match attrs with
  | [] => (seen, analysis)
  | attr :: rest =>
      validatePresent version spec rest ({[Local (Attr_Name attr)]} ∪ seen)
        (validateAttribute version spec analysis attr)
  end.

Definition missingRequired (attrSpec : AttributeSpec) : AttributeResult :=
  mkAttributeResult (AS_Name attrSpec) (AS_Versions attrSpec) StatusFail
    ["missing required attribute " +:+ AS_Name attrSpec].

(** The second loop, over the entries of [spec.Attributes]. *)
Fixpoint validateRequired (attrSpecs : list AttributeSpec) (seen : gset string)
    (analysis : NodeAnalysisResult) : NodeAnalysisResult :=
  match attrSpecs with
  | [] => analysis
  | attrSpec :: rest =>
      if negb (AS_Required attrSpec) then validateRequired rest seen analysis
      else if decide (AS_Name attrSpec ∈ seen) then validateRequired rest seen analysis
      else
        let msg := "missing required attribute " +:+ AS_Name attrSpec in
        validateRequired rest seen
          (markFailure (addAttribute analysis (missingRequired attrSpec)) [msg])
  end.

(** Go leaves the order of [range] over a map unspecified; the entries are
    taken here in the order of [map_to_list]. *)
Definition attributeSpecs (spec : NodeSpec) : list AttributeSpec :=
  (map_to_list (NS_Attributes spec)).*2.

Definition validateAttributes (node : genericNode) (version : Version)
    (spec : option NodeSpec) (analysis : NodeAnalysisResult) : NodeAnalysisResult :=
  let '(seen, analysis) := validatePresent version spec (Attrs node) ∅ analysis in
  match spec with
  | None => analysis
  | Some s => validateRequired (attributeSpecs s) seen analysis
  end.

(** *** [validator.go]: hook dispatch *)

Definition withDefaultCategory (analysis : NodeAnalysisResult) : NodeAnalysisResult :=
  if decide (Category analysis = "")
  then mkAnalysis CustomAnalysisCategory (Status analysis) (Reasons analysis)
         (Attributes analysis)
  else analysis.

Fixpoint runCustomValidators (validators : list NodeValidatorFunc)
    (nodeResult : NodeResult) (node : genericNode) (version : Version) : NodeResult :=
  match validators with
  | [] => nodeResult
  | validator :: rest =>
      match validator (mkContext (Some node) version) with
      | None => runCustomValidators rest nodeResult node version
      | Some analysis =>
          runCustomValidators rest
            (mergeAnalysis nodeResult (withDefaultCategory analysis)) node version
      end
  end.

Definition applyCustomValidators (regs : Registries) (nodeResult : NodeResult)
    (node : genericNode) (version : Version) : NodeResult :=
  runCustomValidators (getCustomValidators (customValidators regs) (Node nodeResult))
    nodeResult node version.

Fixpoint runHTTPValidators (validators : list HTTPValidatorFunc) (client : Client)
    (nodeResult : NodeResult) (node : genericNode) (version : Version) (net : Net)
    : NodeResult * Net :=
  match validators with
  | [] => (nodeResult, net)
  | validator :: rest =>
      let '((analysis, err), net1) :=
        validator (mkContext (Some node) version) (Some client) net in
      let analysis :=
        match err with
        | Some e => Some (markFailure (mkAnalysis CustomAnalysisCategory "" [] []) [e])
        | None => analysis
        end in
      match analysis with
      | None => runHTTPValidators rest client nodeResult node version net1
      | Some a =>
          runHTTPValidators rest client
            (mergeAnalysis nodeResult (withDefaultCategory a)) node version net1
      end
  end.

(** The context with its timeout is not modelled: an expired context shows
    up as a transport error of the client. *)
Definition applyHTTPValidators (regs : Registries) (nodeResult : NodeResult)
    (node : genericNode) (version : Version) (cfg : config) (net : Net)
    : NodeResult * Net :=
  let validators := getHTTPValidators (HTTPValidatorRegistry regs) (Node nodeResult) in
  match validators with
  | [] => (nodeResult, net)
  | _ =>
      runHTTPValidators validators (HTTPValidationOptions_client (httpOptions cfg))
        nodeResult node version net
  end.

(** *** [validator.go]: the traversal *)

(** The structural checks made on the spec-compliance bucket before the
    attributes are looked at. *)
Definition structuralChecks (name : string) (version : Version)
    (spec parentSpec : option NodeSpec) (parentAllowsUnknown : bool)
    (iabAnalysis : NodeAnalysisResult) : NodeAnalysisResult :=
  match spec with
  | None =>
      if negb parentAllowsUnknown
      then markFailure iabAnalysis ["node " +:+ name +:+ " is not recognized in catalog"]
      else iabAnalysis
  | Some s =>
      let iabAnalysis :=
        if negb (NodeSpec_supports s version)
        then markFailure iabAnalysis
               ["node " +:+ name +:+ " is not supported in VAST " +:+ version]
        else iabAnalysis in
      match parentSpec with
      | Some p =>
          if negb parentAllowsUnknown then
            match NodeSpec_child parentSpec name with
            | None =>
                markFailure iabAnalysis
                  ["node " +:+ name +:+ " is not a valid child of " +:+ NS_Name p]
            | Some childSpec =>
                if negb (ChildSpec_supports childSpec version)
                then markFailure iabAnalysis
                       ["node " +:+ name +:+ " is not allowed for parent " +:+ NS_Name p
                        +:+ " in VAST " +:+ version]
                else iabAnalysis
            end
          else iabAnalysis
      | None => iabAnalysis
      end
  end.

(** Everything [validateNodeRecursive] does to a node before it descends. *)
Definition validateNode (regs : Registries) (node : genericNode) (version : Version)
    (cfg : config) (spec parentSpec : option NodeSpec) (parentAllowsUnknown : bool)
    (net : Net) : NodeResult * Net :=
  let result :=
    mkNodeResult (localName node)
      (match spec with Some s => NS_Versions s | None => [] end) ∅ [] in
  let result := addAnalysis result IABAnalysisCategory in
  let result :=
    onAnalysis IABAnalysisCategory
      (structuralChecks (Node result) version spec parentSpec parentAllowsUnknown) result in
  let result :=
    if negb parentAllowsUnknown
    then onAnalysis IABAnalysisCategory (validateAttributes node version spec) result
    else result in
  let result :=
    if runCustom cfg then applyCustomValidators regs result node version else result in
  if runHTTP cfg then applyHTTPValidators regs result node version cfg net
  else (result, net).

Definition childAllowsUnknown (spec : option NodeSpec) (parentAllowsUnknown : bool) : bool :=
  match spec with
  | Some s => if NS_AllowUnknownChildren s then true else parentAllowsUnknown
  | None => parentAllowsUnknown
  end.

(** The loop over [node.Children]: each child result is appended to
    [result.Children], and the network state is handed on. *)
Definition validateChildren (validate : genericNode → Net → NodeResult * Net)
    : list genericNode → list NodeResult → Net → list NodeResult * Net :=
  fix loop (cs : list genericNode) (acc : list NodeResult) (net : Net) :=
    match cs with
    | [] => (acc, net)
    | child :: rest =>
        let '(childResult, net') := validate child net in
        loop rest (acc ++ [childResult]) net'
    end.

Fixpoint validateNodeRecursive (regs : Registries) (node : genericNode) (version : Version)
    (cfg : config) (spec parentSpec : option NodeSpec) (parentAllowsUnknown : bool)
    (net : Net) {struct node} : NodeResult * Net :=
  let '(result, net) :=
    validateNode regs node version cfg spec parentSpec parentAllowsUnknown net in
  let childAllows := childAllowsUnknown spec parentAllowsUnknown in
  let '(cs, net) :=
    validateChildren
      (λ child,
         let childSpec := Catalog_node (catalog cfg) (localName child) in
         validateNodeRecursive regs child version cfg childSpec spec childAllows)
      (match node with mkNode _ _ c _ => c end) (Children result) net in
  (setChildren result cs, net).

(** *** [parser.go]: building the tree *)

(** The tokens [buildNodeTree] distinguishes; comments, directives and
    processing instructions fall through its [switch]. *)
Inductive Token :=
  | StartElement (name : xml_Name) (attr : list xml_Attr)
  | EndElement (name : xml_Name)
  | CharData (data : string)
  | OtherToken.

(** The [encoding/xml] decoder: the tokens that successive calls of
    [decoder.Token] deliver, and the error that ends them when it is not
    [io.EOF]. *)
Variable xml_tokens : string → list Token * option string.

Inductive ValidateError :=
  | errEmptyXML
  | ErrParseXML (err : string)
  | ErrUnexpectedClosingTag (name : string)
  | ErrInvalidRoot
  | ErrMissingVersion
  | ErrCatalogMissingVAST.

Definition appendChild (parent child : genericNode) : genericNode :=
  mkNode (gn_Name parent) (Attrs parent) (gn_Children parent ++ [child]) (Content parent).

Definition appendContent (current : genericNode) (trimmed : string) : genericNode :=
  mkNode (gn_Name current) (Attrs current) (gn_Children current)
    ((if decide (Content current ≠ "") then Content current +:+ " " else Content current)
     +:+ trimmed).

(** The open elements, innermost first. In the Go code an element is linked
    into its parent when it opens and filled in place afterwards; here it is
    linked when it closes, or by [closeOpen] when the tokens end first, which
    yields the same tree since only the innermost open element changes. *)
Fixpoint closeOpen (top : genericNode) (below : list genericNode) : genericNode :=
  match below with
  | [] => top
  | parent :: rest => closeOpen (appendChild parent top) rest
  end.

(** [root] is the last top-level element that was closed; an open top-level
    element is the last entry of [stack]. *)
Fixpoint buildLoop (tokens : list Token) (stack : list genericNode)
    (root : option genericNode) : (option genericNode) + ValidateError :=
  match tokens with
  | [] =>
      match stack with
      | [] => inl root
      | top :: below => inl (Some (closeOpen top below))
      end
  | StartElement name attr :: rest => buildLoop rest (mkNode name attr [] "" :: stack) root
  | EndElement name :: rest =>
      match stack with
      | [] => inr (ErrUnexpectedClosingTag (Local name))
      | top :: [] => buildLoop rest [] (Some top)
      | top :: parent :: below => buildLoop rest (appendChild parent top :: below) root
      end
  | CharData data :: rest =>
      match stack with
      | [] => buildLoop rest stack root
      | current :: below =>
          let trimmed := TrimSpace data in
          if decide (trimmed = "") then buildLoop rest stack root
          else buildLoop rest (appendContent current trimmed :: below) root
      end
  | OtherToken :: rest => buildLoop rest stack root
  end.

Definition buildNodeTree (raw : string) : genericNode + ValidateError :=
  let '(tokens, err) := xml_tokens raw in
  match buildLoop tokens [] None with
  | inr e => inr e
  | inl root =>
      match err with
      | Some e => inr (ErrParseXML e)
      | None =>
          match root with
          | None => inr errEmptyXML
          | Some r => inl r
          end
      end
  end.

(** *** [validator.go]: the entry point *)

(** The summaries attached to a result are computed by [summarizeCategories]
    of the [result.go] that declares buckets with [Reasons]; that file is not
    among the sources, and what it computes does not influence the root
    result or the error. *)
Variable summarizeCategories : NodeResult → option (gmap string CategorySummary).

Record ValidationResult := mkValidationResult {
  VR_Version : Version;
  VR_Root : NodeResult;
  VR_Summaries : option (gmap string CategorySummary)
}.

Definition ErrUnsupportedVersion : string := "Unsupported VAST version".

Definition Validate (regs : Registries) (raw : string) (opts : list Option) (net : Net)
    : (ValidationResult + ValidateError) * Net :=
  if decide (raw = "") then (inr errEmptyXML, net)
  else
    let cfg := applyOptions defaultConfig opts in
    match buildNodeTree raw with
    | inr err => (inr err, net)
    | inl root =>
        if decide (localName root ≠ "VAST") then (inr ErrInvalidRoot, net)
        else
          match attrValue root "version" with
          | None => (inr ErrMissingVersion, net)
          | Some versionValue =>
              if decide (TrimSpace versionValue = "") then (inr ErrMissingVersion, net)
              else
                let version := TrimSpace versionValue in
                match Catalog_node (catalog cfg) "VAST" with
                | None => (inr ErrCatalogMissingVAST, net)
                | Some rootSpec =>
                    let rootVersionSupported := NodeSpec_supports rootSpec version in
                    let '(rootResult, net1) :=
                      validateNodeRecursive regs root version cfg (Some rootSpec) None
                        false net in
                    let rootResult :=
                      if negb rootVersionSupported then
                        onAnalysis IABAnalysisCategory
                          (λ iab, markFailure iab [ErrUnsupportedVersion +:+ ": " +:+ version])
                          (addAnalysis rootResult IABAnalysisCategory)
                      else rootResult in
                    (inl (mkValidationResult version rootResult
                            (summarizeCategories rootResult)), net1)
                end
          end
    end.


(** *** Predicates used in the statements *)

(** The bucket of [category] exists on the node result and has failed. *)
Definition failedAt (category : string) (nr : NodeResult) : Prop :=
  ∃ a, Analyses nr !! category = Some a ∧ Status a = StatusFail.

(** The local names of the attributes of a node, in document order, one per
    occurrence. *)
Definition attrNames (node : genericNode) : list string :=
  (λ attr, Local (Attr_Name attr)) <$> Attrs node.

(** The spec marks the attribute required and the node carries no attribute
    of that name. *)
Definition requiredAbsent (node : genericNode) (attrSpec : AttributeSpec) : Prop :=
  AS_Required attrSpec = true ∧ AS_Name attrSpec ∉ attrNames node.

#[global] Instance requiredAbsent_dec node attrSpec : Decision (requiredAbsent node attrSpec).
Proof. unfold requiredAbsent. apply _. Defined.

(** The synthetic results of the second loop of [validateAttributes]. *)
Definition missingResults (node : genericNode) (spec : option NodeSpec) : list AttributeResult :=
  match spec with
  | Some s => missingRequired <$> filter (requiredAbsent node) (attributeSpecs s)
  | None => []
  end.

Definition failedResult (r : AttributeResult) : Prop := AR_Status r = StatusFail.

(** Last-one-wins lookup, the reading of attribute lookup that the data model
    of the specification gives; compared with [attrValue] below. *)
Definition attrValue_last (n : genericNode) (name : string) : option string :=
  last (Attr_Value <$> filter (λ attr, Local (Attr_Name attr) = name) (Attrs n)).

(** *** The traversal of an exempt subtree, in the words of the specification

    Under a parent that allows unknown children a node gets a passing
    spec-compliance bucket with no attribute results; the one structural
    check that remains is the version check of a node whose name has a spec.
    The hooks run as everywhere, and every descendant is exempt in turn. *)

Definition exemptBucket (name : string) (version : Version) (spec : option NodeSpec)
    : NodeAnalysisResult :=
  let pass := mkAnalysis IABAnalysisCategory StatusPass [] [] in
  match spec with
  | Some s =>
      if NodeSpec_supports s version then pass
      else markFailure pass ["node " +:+ name +:+ " is not supported in VAST " +:+ version]
  | None => pass
  end.

Definition exemptNode (regs : Registries) (node : genericNode) (version : Version)
    (cfg : config) (spec : option NodeSpec) (net : Net) : NodeResult * Net :=
  let result :=
    mkNodeResult (localName node) (match spec with Some s => NS_Versions s | None => [] end)
      {[IABAnalysisCategory := exemptBucket (localName node) version spec]} [] in
  let result :=
    if runCustom cfg then applyCustomValidators regs result node version else result in
  if runHTTP cfg then applyHTTPValidators regs result node version cfg net
  else (result, net).

Fixpoint exemptWalk (regs : Registries) (node : genericNode) (version : Version)
    (cfg : config) (spec : option NodeSpec) (net : Net) {struct node} : NodeResult * Net :=
  let '(result, net) := exemptNode regs node version cfg spec net in
  let '(cs, net) :=
    validateChildren
      (λ child,
         exemptWalk regs child version cfg (Catalog_node (catalog cfg) (localName child)))
      (match node with mkNode _ _ c _ => c end) (Children result) net in
  (setChildren result cs, net).

(** Induction on a tree, with the hypothesis for every child. *)
Fixpoint genericNode_ind (P : genericNode → Prop)
    (step : ∀ name attrs children content,
        Forall P children → P (mkNode name attrs children content))
    (n : genericNode) {struct n} : P n :=
  match n with
  | mkNode name attrs children content =>
      step name attrs children content
        ((fix all (cs : list genericNode) : Forall P cs :=
            match cs with
            | [] => @List.Forall_nil _ P
            | c :: rest => @List.Forall_cons _ P c rest (genericNode_ind P step c) (all rest)
            end) children)
  end.

(** *** Conditions on the input of [Validate], in the words of the
    specification *)





(** * Properties *)

#[local] Set Default Proof Using "Type".

(** Drops the library parameters that the goal does not mention, so that
    solvers do not pick them up. *)
Ltac forget_library :=
  repeat match goal with f : string → _ |- _ => clear f end.

(** ** Buckets: a failed status stays failed *)

Arguments markFailure : simpl never.

Lemma markFailure_status analysis reasons :
  Status (markFailure analysis reasons) = StatusFail.
Proof.
  unfold markFailure; simpl.
  destruct (decide (Status analysis ≠ StatusFail)) as [_|Hn]; [done|].
  by destruct (decide (Status analysis = StatusFail)).
Qed.

Lemma markFailure_attributes analysis reasons :
  Attributes (markFailure analysis reasons) = Attributes analysis.
Proof. done. Qed.

Lemma markFailure_category analysis reasons :
  Category (markFailure analysis reasons) = Category analysis.
Proof. done. Qed.

Lemma addAttribute_status analysis result :
  Status (addAttribute analysis result) = Status analysis.
Proof. done. Qed.

Lemma validateAttribute_keeps_fail version spec analysis attr :
  Status analysis = StatusFail →
  Status (validateAttribute version spec analysis attr) = StatusFail.
Proof.
  intros Hf. unfold validateAttribute.
  destruct spec as [s|]; [|apply markFailure_status].
  destruct (NodeSpec_attribute (Some s) _) as [attrSpec|]; [|apply markFailure_status].
  destruct (negb (AttributeSpec_supports attrSpec version));
    destruct (bool_decide _ && negb _); cbv beta iota zeta;
    rewrite addAttribute_status, ?markFailure_status; done.
Qed.

Lemma validatePresent_keeps_fail version spec attrs seen analysis :
  Status analysis = StatusFail →
  Status (validatePresent version spec attrs seen analysis).2 = StatusFail.
Proof.
  revert seen analysis.
  induction attrs as [|attr attrs IH]; intros seen analysis Hf; simpl; [done|].
  by apply IH, validateAttribute_keeps_fail.
Qed.

Lemma validateRequired_keeps_fail attrSpecs seen analysis :
  Status analysis = StatusFail →
  Status (validateRequired attrSpecs seen analysis) = StatusFail.
Proof.
  revert analysis.
  induction attrSpecs as [|attrSpec rest IH]; intros analysis Hf; simpl; [done|].
  destruct (negb (AS_Required attrSpec)); [by apply IH|].
  destruct (decide (AS_Name attrSpec ∈ seen)); [by apply IH|].
  apply IH, markFailure_status.
Qed.

Lemma validateAttributes_keeps_fail node version spec analysis :
  Status analysis = StatusFail →
  Status (validateAttributes node version spec analysis) = StatusFail.
Proof.
  intros Hf. unfold validateAttributes.
  pose proof (validatePresent_keeps_fail version spec (Attrs node) ∅ analysis Hf) as Hp.
  destruct (validatePresent version spec (Attrs node) ∅ analysis) as [seen analysis'].
  destruct spec; [by apply validateRequired_keeps_fail|done].
Qed.




Lemma mergeAnalysis_failedAt c nr analysis :
  failedAt c nr → failedAt c (mergeAnalysis nr analysis).
Proof.
  intros (a & Ha & Hs). unfold failedAt, mergeAnalysis.
  destruct (Analyses nr !! Category analysis) as [existing|] eqn:He; simpl.
  - destruct (decide (Category analysis = c)) as [Hc|Hne].
    + rewrite Hc, lookup_insert_eq. eexists; split; [done|].
      rewrite Hc in He. assert (existing = a) as -> by congruence.
      destruct (decide (Status analysis = StatusFail)); [apply markFailure_status|done].
    + exists a. by rewrite lookup_insert_ne.
  - exists a. split; [|done]. rewrite lookup_insert_ne; [done|]. intros <-. congruence.
Qed.

Lemma runCustomValidators_failedAt c validators nr node version :
  failedAt c nr → failedAt c (runCustomValidators validators nr node version).
Proof.
  revert nr. induction validators as [|v rest IH]; intros nr Hf; simpl; [done|].
  destruct (v _); [|by apply IH]. by apply IH, mergeAnalysis_failedAt.
Qed.

Lemma runHTTPValidators_failedAt c validators client nr node version net :
  failedAt c nr →
  failedAt c (runHTTPValidators validators client nr node version net).1.
Proof.
  revert nr net. induction validators as [|v rest IH]; intros nr net Hf; simpl; [done|].
  destruct (v _ _ net) as [[analysis err] net1].
  destruct err as [e|]; [by apply IH, mergeAnalysis_failedAt|].
  destruct analysis; [by apply IH, mergeAnalysis_failedAt|by apply IH].
Qed.




(** ** Hook registries *)

Lemma runCustomValidators_app validators v nr node version :
  runCustomValidators (validators ++ [v]) nr node version =
  let nr' := runCustomValidators validators nr node version in
  match v (mkContext (Some node) version) with
  | None => nr'
  | Some analysis => mergeAnalysis nr' (withDefaultCategory analysis)
  end.
Proof.
  revert nr. induction validators as [|w rest IH]; intros nr; simpl.
  - by destruct (v _).
  - destruct (w _); apply IH.
Qed.

Lemma getCustomValidators_register cv registered visited v :
  ToLower registered = ToLower visited →
  getCustomValidators (RegisterCustomValidator cv registered (Some v)) visited =
  getCustomValidators cv visited ++ [v].
Proof.
  intros Hk. unfold getCustomValidators, RegisterCustomValidator. simpl.
  by rewrite Hk, lookup_insert_eq.
Qed.

Lemma getHTTPValidators_register store registered visited h :
  ToLower registered = ToLower visited →
  getHTTPValidators (RegisterHTTPValidator store registered (Some h)) visited =
  getHTTPValidators store visited ++ [h].
Proof.
  intros Hk. unfold getHTTPValidators, RegisterHTTPValidator. simpl.
  by rewrite Hk, lookup_insert_eq.
Qed.

(** What the network pass merges for one hook: a failed analysis in the
    custom category carrying the error when the hook returned one, the hook's
    own analysis otherwise, filed under the custom category when it names
    none. *)
Definition hookContribution (out : option NodeAnalysisResult * option string)
    : option NodeAnalysisResult :=
  let '(analysis, err) := out in
  let analysis :=
    match err with
    | Some e => Some (markFailure (mkAnalysis CustomAnalysisCategory "" [] []) [e])
    | None => analysis
    end in
  match analysis with
  | None => None
  | Some a => Some (withDefaultCategory a)
  end.

Lemma runHTTPValidators_snoc validators h client nr node version net :
  runHTTPValidators (validators ++ [h]) client nr node version net =
  let before := runHTTPValidators validators client nr node version net in
  let out := h (mkContext (Some node) version) (Some client) before.2 in
  (match hookContribution out.1 with
   | None => before.1
   | Some analysis => mergeAnalysis before.1 analysis
   end, out.2).
Proof.
  revert nr net. induction validators as [|w rest IH]; intros nr net; simpl.
  - destruct (h _ _ net) as [[analysis err] net1]. simpl.
    destruct err as [e|]; [done|]. by destruct analysis.
  - destruct (w _ _ net) as [[analysis err] net1].
    destruct err as [e|]; [apply IH|]. destruct analysis; apply IH.
Qed.

(** C10. Both registries key their validators by the lower-cased node name,
    on registration and on retrieval: when the registered name and the name
    of a visited node have the same lower-casing, the validator is among
    those retrieved for the node (after the ones already there), and each
    pass over the node runs it on that node: the synchronous pass calls it
    last, on the node and the version, and merges what it returns; the
    network pass calls it last, on the node, the version, the configured
    client and the network state that the earlier hooks left, and merges its
    contribution. A catalog lookup compares the name as it is: an entry under
    the registered spelling does not answer for another spelling.
    Registering [nil] changes nothing. *)
Theorem registries_fold_case (cv : gmap string (list NodeValidatorFunc))
    (store : gmap string (list HTTPValidatorFunc)) (registered visited : string)
    (v : NodeValidatorFunc) (h : HTTPValidatorFunc) :
  ToLower registered = ToLower visited →
  getCustomValidators (RegisterCustomValidator cv registered (Some v)) visited =
    getCustomValidators cv visited ++ [v] ∧
  getHTTPValidators (RegisterHTTPValidator store registered (Some h)) visited =
    getHTTPValidators store visited ++ [h] ∧
  (∀ nr node version, Node nr = visited →
     applyCustomValidators (mkRegistries (RegisterCustomValidator cv registered (Some v)) store)
       nr node version =
     let nr' := applyCustomValidators (mkRegistries cv store) nr node version in
     match v (mkContext (Some node) version) with
     | None => nr'
     | Some analysis => mergeAnalysis nr' (withDefaultCategory analysis)
     end) ∧
  (∀ nr node version cfg net, Node nr = visited →
     applyHTTPValidators (mkRegistries cv (RegisterHTTPValidator store registered (Some h)))
       nr node version cfg net =
     runHTTPValidators (getHTTPValidators store visited ++ [h])
       (HTTPValidationOptions_client (httpOptions cfg)) nr node version net) ∧
  (∀ nr node version cfg net, Node nr = visited →
     applyHTTPValidators (mkRegistries cv (RegisterHTTPValidator store registered (Some h)))
       nr node version cfg net =
     let before := applyHTTPValidators (mkRegistries cv store) nr node version cfg net in
     let out :=
       h (mkContext (Some node) version)
         (Some (HTTPValidationOptions_client (httpOptions cfg))) before.2 in
     (match hookContribution out.1 with
      | None => before.1
      | Some analysis => mergeAnalysis before.1 analysis
      end, out.2)) ∧
  (∀ (c : Catalog) spec, registered ≠ visited →
     Catalog_node (<[registered := spec]> c) visited = Catalog_node c visited) ∧
  RegisterCustomValidator cv registered None = cv ∧
  RegisterHTTPValidator store registered None = store.
Proof.
  intros Hk. repeat split.
  - by apply getCustomValidators_register.
  - by apply getHTTPValidators_register.
  - intros nr node version Hn. unfold applyCustomValidators. cbn [customValidators].
    rewrite Hn, getCustomValidators_register by done.
    apply runCustomValidators_app.
  - intros nr node version cfg net Hn. unfold applyHTTPValidators.
    cbn [HTTPValidatorRegistry].
    rewrite Hn, getHTTPValidators_register by done.
    by destruct (getHTTPValidators store visited).
  - intros nr node version cfg net Hn. unfold applyHTTPValidators.
    cbn [HTTPValidatorRegistry].
    rewrite Hn, getHTTPValidators_register by done.
    destruct (getHTTPValidators store visited) as [|w rest].
    + apply (runHTTPValidators_snoc [] h).
    + apply (runHTTPValidators_snoc (w :: rest) h).
  - intros c spec Hne. unfold Catalog_node. by rewrite lookup_insert_ne.
Qed.

(** ** The media probe *)

(** The string that [normalizeProbeURL] hands to [url.Parse]. *)
Definition probeTarget (raw : string) : string :=
  let trimmed := TrimSpace raw in
  if HasPrefix trimmed "//" then "https:" +:+ trimmed else trimmed.

(** C7, as amended. [normalizeProbeURL] trims the input, reads a
    schema-relative input (one that starts with two slashes) as HTTPS, and
    then returns exactly one of five outcomes: the empty-URL error exactly
    when the trimmed input is empty; the invalid-URL error carrying the
    parser's message exactly when the parser rejects the target; the
    missing-scheme-or-host error exactly when the parsed URL lacks a scheme
    or lacks a host (either one, not only both); the unsupported-scheme error
    exactly when scheme and host are present and the scheme is neither http
    nor https; and otherwise the parsed URL printed back, with no error. *)
Theorem normalizeProbeURL_outcomes (raw : string) :
  (normalizeProbeURL raw = inr ErrMediaURLEmpty ↔ TrimSpace raw = "") ∧
  (∀ e, normalizeProbeURL raw = inr (ErrInvalidMediaURL raw e) ↔
        TrimSpace raw ≠ "" ∧ url_Parse (probeTarget raw) = inr e) ∧
  (normalizeProbeURL raw = inr (ErrMissingSchemeOrHost raw) ↔
        TrimSpace raw ≠ "" ∧
        ∃ p, url_Parse (probeTarget raw) = inl p ∧ (Scheme p = "" ∨ Host p = "")) ∧
  (∀ s, normalizeProbeURL raw = inr (ErrUnsupportedScheme s) ↔
        TrimSpace raw ≠ "" ∧
        ∃ p, url_Parse (probeTarget raw) = inl p ∧ Scheme p = s ∧
             Scheme p ≠ "" ∧ Host p ≠ "" ∧ s ≠ "http" ∧ s ≠ "https") ∧
  (∀ u, normalizeProbeURL raw = inl u ↔
        TrimSpace raw ≠ "" ∧
        ∃ p, url_Parse (probeTarget raw) = inl p ∧ u = URL_String p ∧
             Host p ≠ "" ∧ (Scheme p = "http" ∨ Scheme p = "https")).
Proof.
  forget_library.
  unfold normalizeProbeURL, probeTarget.
  destruct (decide (TrimSpace raw = "")) as [He|He];
    [|destruct (url_Parse _) as [p|err] eqn:Hp;
      [destruct (decide (Scheme p = "" ∨ Host p = "")) as [Hm|Hm];
       [|destruct (decide (Scheme p ≠ "http" ∧ Scheme p ≠ "https")) as [Hs|Hs]]|]].
  all: repeat match goal with
         | |- _ ∧ _ => split
         | |- ∀ _, _ => intro
         end.
  all: split; intros H.
  all: repeat match goal with
         | H : ∃ _, _ |- _ => destruct H
         | H : _ ∧ _ |- _ => destruct H
         end.
  all: simplify_eq.
  all: try done.
  all: try (split; [done|]).
  all: try (eexists; split; [done|]).
  all: try done.
  all: try tauto.
  all: repeat split; try tauto.
  all: try (destruct (decide (Scheme p = "http")); [tauto|];
            destruct (decide (Scheme p = "https")); tauto).
  all: try (intros E; apply Hm; tauto).
  all: repeat match goal with H : _ ∨ _ |- _ => destruct H end; try congruence.
Qed.

Definition headRequest (u : string) : Request := mkRequest MethodHead u [].

Definition rangedGetRequest (u : string) : Request :=
  mkRequest MethodGet u [("Range", probeRangeHeader)].

Lemma doHTTPRequest_client client method u headers net p :
  url_Parse u = inl p →
  doHTTPRequest (Some client) method u headers net = client (mkRequest method u headers) net.
Proof.
  intros Hp. unfold doHTTPRequest. rewrite Hp.
  by destruct (client _ net) as [[resp|err] net'].
Qed.

Lemma probeMediaURL_requests client rawURL u p net :
  normalizeProbeURL rawURL = inl u →
  url_Parse u = inl p →
  probeMediaURL (Some client) rawURL net =
  match client (headRequest u) net with
  | (inl head, net1) =>
      if decide (StatusCode head = StatusMethodNotAllowed)
      then client (rangedGetRequest u) net1
      else (inl head, net1)
  | (inr err, net1) => (inr err, net1)
  end.
Proof.
  intros Hn Hp. unfold probeMediaURL. rewrite Hn.
  rewrite (doHTTPRequest_client _ _ _ _ _ _ Hp). unfold headRequest.
  destruct (client _ net) as [[head|err] net1]; [|done].
  destruct (decide (StatusCode head ≠ _)) as [Hne|He];
    destruct (decide (StatusCode head = _)) as [He'|Hne']; try done.
  by rewrite (doHTTPRequest_client _ _ _ _ _ _ Hp).
Qed.

(** C8, as amended. For a media-file node whose text is not empty and
    normalizes to a URL from which a request can be built, the probe first
    sends a HEAD request to the client; a transport error of that request is
    returned without a second request; a HEAD response whose status is not
    405 is returned as it is; and exactly when the status is 405 the probe
    sends a GET request with header Range: bytes=0-0 to the client, in the
    state the HEAD request left, and returns its outcome. A response with
    status 400 or more makes the analysis fail with a reason that cites the
    status in decimal. A server that answers 405 to HEAD and less than 400 to
    the ranged GET passes when the content-type comparison finds no mismatch
    (no declared type, a blank one, no content type in the response, or equal
    types). *)
Theorem probe_head_then_ranged_get (client : Client) (nodeCtx : NodeContext)
    (u : string) (p : url_URL) (net : Net) :
  Text nodeCtx ≠ "" →
  normalizeProbeURL (Text nodeCtx) = inl u →
  url_Parse u = inl p →
  probeMediaURL (Some client) (Text nodeCtx) net =
    match client (headRequest u) net with
    | (inl head, net1) =>
        if decide (StatusCode head = StatusMethodNotAllowed)
        then client (rangedGetRequest u) net1
        else (inl head, net1)
    | (inr err, net1) => (inr err, net1)
    end ∧
  (∀ resp net2,
     probeMediaURL (Some client) (Text nodeCtx) net = (inl resp, net2) →
     StatusCode resp >= 400 →
     mediaFileHTTPValidator nodeCtx (Some client) net =
       ((Some (failedCustom ("media file responded with HTTP " +:+ pretty (StatusCode resp))),
         None), net2)) ∧
  (∀ head net1 resp net2,
     client (headRequest u) net = (inl head, net1) →
     StatusCode head = StatusMethodNotAllowed →
     client (rangedGetRequest u) net1 = (inl resp, net2) →
     StatusCode resp < 400 →
     contentTypeMismatch nodeCtx resp = None →
     mediaFileHTTPValidator nodeCtx (Some client) net =
       ((Some (mkAnalysis CustomAnalysisCategory StatusPass [] []), None), net2)).
Proof.
  intros Hne Hn Hp.
  split; [by apply probeMediaURL_requests with p|]. split.
  - intros resp net2 Hprobe Hge. unfold mediaFileHTTPValidator.
    destruct (decide (Text nodeCtx = "")); [done|]. rewrite Hprobe.
    by destruct (decide (StatusCode resp >= 400)).
  - intros head net1 resp net2 Hhead H405 Hget Hlt Hct. unfold mediaFileHTTPValidator.
    destruct (decide (Text nodeCtx = "")); [done|].
    rewrite (probeMediaURL_requests _ _ _ _ _ Hn Hp), Hhead.
    destruct (decide (StatusCode head = _)); [|done]. rewrite Hget.
    destruct (decide (StatusCode resp >= 400)); [lia|]. by rewrite Hct.
Qed.

(** ** Attribute validation *)

Lemma validateAttribute_attributes version spec analysis attr :
  ∃ r, Attributes (validateAttribute version spec analysis attr) = Attributes analysis ++ [r] ∧
       AR_Name r = Local (Attr_Name attr) ∧
       (spec = None → failedResult r).
Proof.
  unfold validateAttribute.
  destruct spec as [s|]; [|by eexists].
  destruct (NodeSpec_attribute (Some s) _) as [attrSpec|]; [|by eexists].
  destruct (negb (AttributeSpec_supports attrSpec version));
    destruct (bool_decide _ && negb _); cbv beta iota zeta; by eexists.
Qed.

Lemma validatePresent_attributes version spec attrs seen analysis :
  ∃ present,
    (validatePresent version spec attrs seen analysis).1 =
      list_to_set ((λ attr, Local (Attr_Name attr)) <$> attrs) ∪ seen ∧
    Attributes (validatePresent version spec attrs seen analysis).2 =
      Attributes analysis ++ present ∧
    AR_Name <$> present = (λ attr, Local (Attr_Name attr)) <$> attrs ∧
    (spec = None → Forall failedResult present).
Proof.
  forget_library. revert seen analysis.
  induction attrs as [|attr attrs IH]; intros seen analysis; simpl.
  - exists []. rewrite app_nil_r. repeat split; [set_solver|done].
  - destruct (validateAttribute_attributes version spec analysis attr) as (r & Hr & Hn & Hf).
    destruct (IH ({[Local (Attr_Name attr)]} ∪ seen)
                (validateAttribute version spec analysis attr))
      as (present & Hs & Ha & Hnames & Hfail).
    exists (r :: present). rewrite Hs, Ha, Hr, <- app_assoc.
    repeat split; [set_solver|by rewrite !fmap_cons, Hn, Hnames|].
    intros Hnone. constructor; [by apply Hf|by apply Hfail].
Qed.

Lemma validateRequired_attributes attrSpecs seen analysis :
  Attributes (validateRequired attrSpecs seen analysis) =
  Attributes analysis ++
    (missingRequired <$>
       filter (λ attrSpec, AS_Required attrSpec = true ∧ AS_Name attrSpec ∉ seen) attrSpecs).
Proof.
  revert analysis.
  induction attrSpecs as [|attrSpec rest IH]; intros analysis; simpl.
  - by rewrite app_nil_r.
  - rewrite filter_cons.
    destruct (AS_Required attrSpec) eqn:Hreq; simpl.
    + destruct (decide (AS_Name attrSpec ∈ seen)) as [Hin|Hin].
      * rewrite decide_False by tauto. apply IH.
      * rewrite decide_True by tauto. rewrite IH. simpl.
        by rewrite <- app_assoc.
    + apply IH.
Qed.

Lemma validateAttributes_attributes node version spec analysis :
  ∃ present,
    Attributes (validateAttributes node version spec analysis) =
      Attributes analysis ++ present ++ missingResults node spec ∧
    AR_Name <$> present = attrNames node ∧
    (spec = None → Forall failedResult present).
Proof.
  forget_library.
  unfold validateAttributes.
  destruct (validatePresent_attributes version spec (Attrs node) ∅ analysis)
    as (present & Hs & Ha & Hnames & Hfail).
  destruct (validatePresent version spec (Attrs node) ∅ analysis) as [seen analysis'].
  simpl in Hs, Ha. exists present. split; [|done].
  destruct spec as [s|]; simpl.
  - rewrite validateRequired_attributes, Ha, <- app_assoc. do 3 f_equal.
    apply list_filter_iff. intros attrSpec. unfold requiredAbsent, attrNames.
    rewrite Hs. set_solver.
  - by rewrite app_nil_r.
Qed.

(** The attribute-level results of a bucket start with [l]. *)
Definition attributesStart (c : string) (l : list AttributeResult) (nr : NodeResult) : Prop :=
  ∃ b, Analyses nr !! c = Some b ∧ l `prefix_of` Attributes b.

Lemma mergeAnalysis_attributesStart c l nr analysis :
  attributesStart c l nr → attributesStart c l (mergeAnalysis nr analysis).
Proof.
  intros (b & Hb & Hp). unfold attributesStart, mergeAnalysis.
  destruct (Analyses nr !! Category analysis) as [existing|] eqn:He; simpl.
  - destruct (decide (Category analysis = c)) as [Hc|Hne].
    + rewrite Hc, lookup_insert_eq. eexists; split; [done|].
      rewrite Hc in He. assert (existing = b) as -> by congruence.
      destruct (decide (Status analysis = StatusFail));
        rewrite ?markFailure_attributes; simpl; by apply prefix_app_r.
    + exists b. by rewrite lookup_insert_ne.
  - exists b. split; [|done]. rewrite lookup_insert_ne; [done|]. intros <-. congruence.
Qed.

Lemma runCustomValidators_attributesStart c l validators nr node version :
  attributesStart c l nr →
  attributesStart c l (runCustomValidators validators nr node version).
Proof.
  revert nr. induction validators as [|v rest IH]; intros nr Hf; simpl; [done|].
  destruct (v _); [|by apply IH]. by apply IH, mergeAnalysis_attributesStart.
Qed.

Lemma runHTTPValidators_attributesStart c l validators client nr node version net :
  attributesStart c l nr →
  attributesStart c l (runHTTPValidators validators client nr node version net).1.
Proof.
  revert nr net. induction validators as [|v rest IH]; intros nr net Hf; simpl; [done|].
  destruct (v _ _ net) as [[analysis err] net1].
  destruct err as [e|]; [by apply IH, mergeAnalysis_attributesStart|].
  destruct analysis; [by apply IH, mergeAnalysis_attributesStart|by apply IH].
Qed.

Lemma applyCustomValidators_attributesStart c l regs nr node version :
  attributesStart c l nr →
  attributesStart c l (applyCustomValidators regs nr node version).
Proof. apply runCustomValidators_attributesStart. Qed.

Lemma applyHTTPValidators_attributesStart c l regs nr node version cfg net :
  attributesStart c l nr →
  attributesStart c l (applyHTTPValidators regs nr node version cfg net).1.
Proof.
  intros H. unfold applyHTTPValidators.
  destruct (getHTTPValidators _ _); [done|].
  by apply runHTTPValidators_attributesStart.
Qed.

(** The spec-compliance bucket of a node that is not exempt, before any hook
    has run. *)
Definition checkedBucket (node : genericNode) (version : Version)
    (spec parentSpec : option NodeSpec) : NodeAnalysisResult :=
  validateAttributes node version spec
    (structuralChecks (localName node) version spec parentSpec false
       (mkAnalysis IABAnalysisCategory StatusPass [] [])).

Lemma validateNode_checked regs node version cfg spec parentSpec net :
  validateNode regs node version cfg spec parentSpec false net =
  let result :=
    mkNodeResult (localName node) (match spec with Some s => NS_Versions s | None => [] end)
      {[IABAnalysisCategory := checkedBucket node version spec parentSpec]} [] in
  let result :=
    if runCustom cfg then applyCustomValidators regs result node version else result in
  if runHTTP cfg then applyHTTPValidators regs result node version cfg net
  else (result, net).
Proof.
  unfold validateNode, addAnalysis, onAnalysis, setAnalyses, checkedBucket. simpl.
  rewrite lookup_empty. simpl.
  rewrite !alter_insert_eq, insert_empty. done.
Qed.

Lemma structuralChecks_attributes name version spec parentSpec pau analysis :
  Attributes (structuralChecks name version spec parentSpec pau analysis) =
  Attributes analysis.
Proof.
  unfold structuralChecks.
  destruct spec as [s|].
  - destruct (negb (NodeSpec_supports s version)), parentSpec as [p|], (negb pau);
      try done;
      destruct (NodeSpec_child (Some p) name) as [childSpec|]; try done;
      by destruct (negb (ChildSpec_supports childSpec version)).
  - by destruct (negb pau).
Qed.

Lemma elem_of_attributeSpecs s attrSpec :
  attrSpec ∈ attributeSpecs s ↔ ∃ k, NS_Attributes s !! k = Some attrSpec.
Proof.
  unfold attributeSpecs. rewrite list_elem_of_fmap. split.
  - intros ([k x] & -> & Hin). exists k. by apply elem_of_map_to_list in Hin.
  - intros (k & Hk). exists (k, attrSpec). split; [done|]. by apply elem_of_map_to_list.
Qed.

Lemma elem_of_missingResults node spec r :
  r ∈ missingResults node spec ↔
  ∃ s k attrSpec, spec = Some s ∧ NS_Attributes s !! k = Some attrSpec ∧
                  requiredAbsent node attrSpec ∧ r = missingRequired attrSpec.
Proof.
  unfold missingResults. destruct spec as [s|].
  - rewrite list_elem_of_fmap. split.
    + intros (attrSpec & -> & Hin). apply list_elem_of_filter in Hin as [Hreq Hin].
      apply elem_of_attributeSpecs in Hin as (k & Hk). by exists s, k, attrSpec.
    + intros (s' & k & attrSpec & [= <-] & Hk & Hreq & ->).
      exists attrSpec. split; [done|]. apply list_elem_of_filter. split; [done|].
      apply elem_of_attributeSpecs. by exists k.
  - split; [by intros ?%elem_of_nil|]. by intros (? & ? & ? & [=] & _).
Qed.

Lemma validateNode_attributes regs node version cfg spec parentSpec net :
  ∃ present b,
    Analyses (validateNode regs node version cfg spec parentSpec false net).1
      !! IABAnalysisCategory = Some b ∧
    (present ++ missingResults node spec) `prefix_of` Attributes b ∧
    AR_Name <$> present = attrNames node ∧
    (spec = None → Forall failedResult present) ∧
    (runCustom cfg = false → runHTTP cfg = false →
     Attributes b = present ++ missingResults node spec).
Proof.
  destruct (validateAttributes_attributes node version spec
              (structuralChecks (localName node) version spec parentSpec false
                 (mkAnalysis IABAnalysisCategory StatusPass [] [])))
    as (present & Ha & Hn & Hf).
  rewrite structuralChecks_attributes in Ha. simpl in Ha.
  exists present. rewrite validateNode_checked. cbv zeta.
  set (r0 := mkNodeResult _ _ _ _).
  assert (attributesStart IABAnalysisCategory (present ++ missingResults node spec) r0) as H0.
  { eexists. split; [apply lookup_singleton_eq|]. unfold checkedBucket. by rewrite Ha. }
  assert (∃ b, Analyses
             (if runHTTP cfg
              then applyHTTPValidators regs
                     (if runCustom cfg then applyCustomValidators regs r0 node version else r0)
                     node version cfg net
              else (if runCustom cfg then applyCustomValidators regs r0 node version else r0,
                    net)).1 !! IABAnalysisCategory = Some b ∧
           (present ++ missingResults node spec) `prefix_of` Attributes b ∧
           (runCustom cfg = false → runHTTP cfg = false →
            Attributes b = present ++ missingResults node spec)) as (b & Hb & Hp & He).
  { destruct (runCustom cfg) eqn:Hc, (runHTTP cfg) eqn:Hh; simpl.
    - destruct (applyHTTPValidators_attributesStart _ _ regs _ node version cfg net
                  (applyCustomValidators_attributesStart _ _ regs _ node version H0))
        as (b & Hb & Hp). exists b. by repeat split.
    - destruct (applyCustomValidators_attributesStart _ _ regs _ node version H0)
        as (b & Hb & Hp). exists b. by repeat split.
    - destruct (applyHTTPValidators_attributesStart _ _ regs _ node version cfg net H0)
        as (b & Hb & Hp). exists b. by repeat split.
    - exists (checkedBucket node version spec parentSpec).
      split; [apply lookup_singleton_eq|]. unfold checkedBucket. by rewrite Ha. }
  by exists b.
Qed.

(** C5. Attribute validation of a node, which the traversal runs on every
    node that is not exempt: the attribute-level results it appends consist
    of one result per attribute present on the node, in document order and
    named for that attribute, whether or not the attribute passes, followed
    by the synthetic results, each failed and named for its attribute, of
    exactly the attributes that the spec marks required and the node does
    not carry. When the node has no spec every present attribute yields a
    failed result and nothing is synthesized. On the result of a node that is
    not exempt these results open the attribute list of the spec-compliance
    bucket, and they are all of it when no hook runs. *)
Theorem attribute_results_complete (regs : Registries) (node : genericNode)
    (version : Version) (cfg : config) (spec parentSpec : option NodeSpec) (net : Net)
    (analysis : NodeAnalysisResult) :
  (∃ present,
     Attributes (validateAttributes node version spec analysis) =
       Attributes analysis ++ present ++ missingResults node spec ∧
     AR_Name <$> present = attrNames node ∧
     (spec = None → Forall failedResult present)) ∧
  (∀ r, r ∈ missingResults node spec ↔
        ∃ s k attrSpec, spec = Some s ∧ NS_Attributes s !! k = Some attrSpec ∧
                        requiredAbsent node attrSpec ∧ r = missingRequired attrSpec) ∧
  (∀ attrSpec, AR_Name (missingRequired attrSpec) = AS_Name attrSpec ∧
               failedResult (missingRequired attrSpec)) ∧
  (∃ present b,
     Analyses (validateNode regs node version cfg spec parentSpec false net).1
       !! IABAnalysisCategory = Some b ∧
     (present ++ missingResults node spec) `prefix_of` Attributes b ∧
     AR_Name <$> present = attrNames node ∧
     (spec = None → Forall failedResult present) ∧
     (runCustom cfg = false → runHTTP cfg = false →
      Attributes b = present ++ missingResults node spec)).
Proof.
  split; [apply validateAttributes_attributes|].
  split; [apply elem_of_missingResults|].
  split; [done|apply validateNode_attributes].
Qed.

Lemma attrValue_in_head attrs name :
  attrValue_in attrs name =
  head (Attr_Value <$> filter (λ attr, Local (Attr_Name attr) = name) attrs).
Proof.
  induction attrs as [|attr rest IH]; simpl; [done|].
  rewrite filter_cons. by destruct (decide (Local (Attr_Name attr) = name)).
Qed.

(** C6, as amended. Attribute lookup on a parsed node returns the value of
    the first attribute, in document order, whose local name is the one asked
    for (first-one-wins), and the lookup offered to hooks is that same
    lookup. Per-attribute reporting yields one result per occurrence, so an
    attribute that occurs twice is reported twice. Required-attribute
    detection goes by name: a required attribute is reported missing only
    when no attribute of the node has its name, however many occurrences
    there are. *)
Theorem attribute_lookup_first_wins (node : genericNode) (name : string) :
  attrValue node name =
    head (Attr_Value <$> filter (λ attr, Local (Attr_Name attr) = name) (Attrs node)) ∧
  (∀ version, Attribute (mkContext (Some node) version) name = attrValue node name) ∧
  (∀ version spec analysis,
     ∃ present,
       Attributes (validateAttributes node version spec analysis) =
         Attributes analysis ++ present ++ missingResults node spec ∧
       AR_Name <$> present = attrNames node) ∧
  (∀ spec r, r ∈ missingResults node spec → AR_Name r ∉ attrNames node).
Proof.
  split; [apply attrValue_in_head|]. split; [done|]. split.
  - intros version spec analysis.
    destruct (validateAttributes_attributes node version spec analysis)
      as (present & Ha & Hn & _). by exists present.
  - intros spec r Hr.
    apply elem_of_missingResults in Hr as (s & k & attrSpec & _ & _ & [_ Habs] & ->).
    done.
Qed.

(** ** Exempt subtrees *)

Lemma validateChildren_ext (f g : genericNode → Net → NodeResult * Net) cs acc net :
  Forall (λ c, ∀ net, f c net = g c net) cs →
  validateChildren f cs acc net = validateChildren g cs acc net.
Proof.
  intros H. revert acc net.
  induction H as [|c cs Hc _ IH]; intros acc net; simpl; [done|].
  rewrite Hc. destruct (g c net) as [childResult net']. apply IH.
Qed.

Lemma structuralChecks_exempt name version spec parentSpec :
  structuralChecks name version spec parentSpec true
    (mkAnalysis IABAnalysisCategory StatusPass [] []) =
  exemptBucket name version spec.
Proof.
  unfold structuralChecks, exemptBucket.
  destruct spec as [s|]; [|done].
  by destruct (NodeSpec_supports s version), parentSpec.
Qed.

Lemma validateNode_exempt regs node version cfg spec parentSpec net :
  validateNode regs node version cfg spec parentSpec true net =
  exemptNode regs node version cfg spec net.
Proof.
  unfold validateNode, exemptNode, addAnalysis, onAnalysis, setAnalyses. simpl.
  rewrite lookup_empty. simpl.
  by rewrite alter_insert_eq, insert_empty, structuralChecks_exempt.
Qed.

Lemma childAllowsUnknown_inherited spec : childAllowsUnknown spec true = true.
Proof. destruct spec as [s|]; [|done]. simpl. by destruct (NS_AllowUnknownChildren s). Qed.

Lemma validateNodeRecursive_exempt regs node version cfg :
  ∀ spec parentSpec net,
    validateNodeRecursive regs node version cfg spec parentSpec true net =
    exemptWalk regs node version cfg spec net.
Proof.
  induction node as [name attrs children content IH] using genericNode_ind.
  intros spec parentSpec net. simpl.
  rewrite validateNode_exempt.
  destruct (exemptNode _ _ _ _ _ _) as [result net1].
  rewrite childAllowsUnknown_inherited.
  rewrite (validateChildren_ext _
             (λ child, exemptWalk regs child version cfg
                         (Catalog_node (catalog cfg) (localName child)))); [done|].
  eapply Forall_impl; [exact IH|]. intros child Hc net'. apply Hc.
Qed.


(** ** The parser *)





(** ** The entry point *)

Lemma versions_contain_elem vs version :
  versions_contain vs version = true ↔ version ∈ vs.
Proof.
  induction vs as [|v rest IH]; simpl.
  - split; [done|by intros ?%elem_of_nil].
  - destruct (decide (v = version)) as [->|Hne].
    + split; [intros _; by left|done].
    + rewrite IH. split; [by right|]. by intros [?|?]%elem_of_cons.
Qed.


Lemma appendReasons_one acc reason :
  reason ≠ "" → appendReasons acc [reason] = acc ++ [reason].
Proof. intros Hne. simpl. by destruct (decide (reason = "")). Qed.


(** * Further properties of the engine *)

(** ** Buckets *)

Lemma appendReasons_filter acc reasons :
  appendReasons acc reasons = acc ++ filter (λ r, r ≠ "") reasons.
Proof.
  revert acc. induction reasons as [|reason rest IH]; intros acc; simpl.
  - by rewrite app_nil_r.
  - rewrite filter_cons. destruct (decide (reason = "")) as [He|He].
    + rewrite decide_False by (by intros ?). apply IH.
    + rewrite decide_True by done. rewrite IH. by rewrite <- app_assoc.
Qed.

(** X1. [markFailure] marks the bucket failed and appends the given reasons
    after those already there, in the order given, leaving the empty ones
    out; the category and the attribute results are untouched. *)
Theorem markFailure_appends_reasons (analysis : NodeAnalysisResult) (reasons : list string) :
  Reasons (markFailure analysis reasons) =
    Reasons analysis ++ filter (λ r, r ≠ "") reasons ∧
  Status (markFailure analysis reasons) = StatusFail ∧
  Category (markFailure analysis reasons) = Category analysis ∧
  Attributes (markFailure analysis reasons) = Attributes analysis.
Proof.
  split; [apply appendReasons_filter|].
  split; [apply markFailure_status|done].
Qed.

(** X2. Merging a hook's result into a category that already has a bucket
    keeps the bucket's category; when the contribution has failed, its
    non-empty reasons are appended to the bucket's reasons and the bucket
    fails; when it has not, its reasons are dropped and the bucket keeps its
    status and reasons. Buckets of other categories, and the node's name,
    versions and children, are untouched. *)
Theorem mergeAnalysis_existing_bucket (nr : NodeResult) (analysis existing : NodeAnalysisResult) :
  Analyses nr !! Category analysis = Some existing →
  ∃ merged,
    Analyses (mergeAnalysis nr analysis) !! Category analysis = Some merged ∧
    Category merged = Category existing ∧
    (Status analysis = StatusFail →
     Status merged = StatusFail ∧
     Reasons merged = Reasons existing ++ filter (λ r, r ≠ "") (Reasons analysis)) ∧
    (Status analysis ≠ StatusFail →
     Status merged = Status existing ∧ Reasons merged = Reasons existing) ∧
    (∀ c, c ≠ Category analysis →
          Analyses (mergeAnalysis nr analysis) !! c = Analyses nr !! c) ∧
    Node (mergeAnalysis nr analysis) = Node nr ∧
    VersionSupport (mergeAnalysis nr analysis) = VersionSupport nr ∧
    Children (mergeAnalysis nr analysis) = Children nr.
Proof.
  intros He. unfold mergeAnalysis. rewrite He. simpl. rewrite lookup_insert_eq.
  eexists. split; [done|].
  destruct (decide (Status analysis = StatusFail)) as [Hs|Hs].
  - split; [done|]. split.
    { intros _. split; [apply markFailure_status|]. apply appendReasons_filter. }
    split; [done|]. split; [|done].
    intros c Hc. by rewrite lookup_insert_ne.
  - split; [done|]. split; [done|]. split; [done|]. split; [|done].
    intros c Hc. by rewrite lookup_insert_ne.
Qed.

(** X3. [addAnalysis] makes sure the bucket of a category exists: a bucket
    that is already there is kept as it is, a missing one is created passing
    and empty under the category's name; no other bucket changes, and adding
    twice is adding once. *)
Theorem addAnalysis_ensures_bucket (nr : NodeResult) (category : string) :
  (∀ b, Analyses nr !! category = Some b → addAnalysis nr category = nr) ∧
  (Analyses nr !! category = None →
   Analyses (addAnalysis nr category) !! category =
     Some (mkAnalysis category StatusPass [] [])) ∧
  (∀ c, c ≠ category → Analyses (addAnalysis nr category) !! c = Analyses nr !! c) ∧
  addAnalysis (addAnalysis nr category) category = addAnalysis nr category.
Proof.
  unfold addAnalysis at 1 2 3.
  destruct (Analyses nr !! category) as [b|] eqn:Hb.
  - repeat split; try done. unfold addAnalysis. by rewrite Hb, Hb.
  - repeat split; try done.
    + intros _. simpl. apply lookup_insert_eq.
    + intros c Hc. simpl. by rewrite lookup_insert_ne.
    + unfold addAnalysis. rewrite Hb. simpl. by rewrite lookup_insert_eq.
Qed.

(** ** The result tree *)

#[local] Unset Elimination Schemes.

(** The names of a tree, without anything else. *)
Inductive Shape := ShapeNode (name : string) (children : list Shape).

#[local] Set Elimination Schemes.

Fixpoint shapeOfNode (n : genericNode) : Shape :=
  match n with
  | mkNode name _ children _ => ShapeNode (Local name) (map shapeOfNode children)
  end.

Fixpoint shapeOfResult (r : NodeResult) : Shape :=
  match r with
  | mkNodeResult node _ _ children => ShapeNode node (map shapeOfResult children)
  end.

(** The node results of a result tree, in pre-order. *)
Fixpoint allResults (r : NodeResult) : list NodeResult :=
  match r with
  | mkNodeResult _ _ _ children => r :: concat (map allResults children)
  end.

Lemma mergeAnalysis_frame nr analysis :
  Node (mergeAnalysis nr analysis) = Node nr ∧
  VersionSupport (mergeAnalysis nr analysis) = VersionSupport nr ∧
  Children (mergeAnalysis nr analysis) = Children nr.
Proof. unfold mergeAnalysis. by destruct (Analyses nr !! Category analysis). Qed.

Lemma runCustomValidators_frame validators nr node version :
  Node (runCustomValidators validators nr node version) = Node nr ∧
  VersionSupport (runCustomValidators validators nr node version) = VersionSupport nr ∧
  Children (runCustomValidators validators nr node version) = Children nr.
Proof.
  revert nr. induction validators as [|v rest IH]; intros nr; simpl; [done|].
  destruct (v _) as [analysis|]; [|apply IH].
  destruct (IH (mergeAnalysis nr (withDefaultCategory analysis))) as (-> & -> & ->).
  apply mergeAnalysis_frame.
Qed.

Lemma runHTTPValidators_frame validators client nr node version net :
  Node (runHTTPValidators validators client nr node version net).1 = Node nr ∧
  VersionSupport (runHTTPValidators validators client nr node version net).1 =
    VersionSupport nr ∧
  Children (runHTTPValidators validators client nr node version net).1 = Children nr.
Proof.
  revert nr net. induction validators as [|v rest IH]; intros nr net; simpl; [done|].
  destruct (v _ _ net) as [[analysis err] net1].
  destruct err as [e|].
  - destruct (IH (mergeAnalysis nr
                    (withDefaultCategory
                       (markFailure (mkAnalysis CustomAnalysisCategory "" [] []) [e]))) net1)
      as (-> & -> & ->).
    apply mergeAnalysis_frame.
  - destruct analysis as [a|]; [|apply IH].
    destruct (IH (mergeAnalysis nr (withDefaultCategory a)) net1) as (-> & -> & ->).
    apply mergeAnalysis_frame.
Qed.

Lemma validateNode_frame regs node version cfg spec parentSpec pau net :
  Node (validateNode regs node version cfg spec parentSpec pau net).1 = localName node ∧
  VersionSupport (validateNode regs node version cfg spec parentSpec pau net).1 =
    match spec with Some s => NS_Versions s | None => [] end ∧
  Children (validateNode regs node version cfg spec parentSpec pau net).1 = [].
Proof.
  unfold validateNode.
  set (r0 := addAnalysis _ _).
  set (r1 := onAnalysis _ _ r0).
  set (r2 := if negb pau then _ else r1).
  assert (Node r2 = localName node ∧
          VersionSupport r2 = match spec with Some s => NS_Versions s | None => [] end ∧
          Children r2 = []) as H2.
  { unfold r2, r1, r0, addAnalysis. simpl. rewrite lookup_empty. by destruct (negb pau). }
  set (r3 := if runCustom cfg then _ else r2).
  assert (Node r3 = Node r2 ∧ VersionSupport r3 = VersionSupport r2 ∧
          Children r3 = Children r2) as H3.
  { unfold r3. destruct (runCustom cfg); [|done]. apply runCustomValidators_frame. }
  destruct H2 as (<- & <- & <-). destruct H3 as (<- & <- & <-).
  destruct (runHTTP cfg); [|done].
  unfold applyHTTPValidators. destruct (getHTTPValidators _ _); [done|].
  apply runHTTPValidators_frame.
Qed.

Lemma validateChildren_shape (f : genericNode → Net → NodeResult * Net) cs :
  Forall (λ c, ∀ net, shapeOfResult (f c net).1 = shapeOfNode c) cs →
  ∀ acc net,
    map shapeOfResult (validateChildren f cs acc net).1 =
    map shapeOfResult acc ++ map shapeOfNode cs.
Proof.
  induction 1 as [|c cs Hc _ IH]; intros acc net; simpl.
  - by rewrite app_nil_r.
  - specialize (Hc net). destruct (f c net) as [childResult net'].
    rewrite IH, map_app. simpl in *. by rewrite <- app_assoc, Hc.
Qed.

Lemma shapeOfResult_eq r :
  shapeOfResult r = ShapeNode (Node r) (map shapeOfResult (Children r)).
Proof. by destruct r. Qed.

(** X4. The result tree mirrors the parsed tree: every parsed node has
    exactly one node result, named for it, and the child results stand in
    the order of the children, whatever the catalog, the hooks and the
    network answer. *)
Theorem result_tree_mirrors_document (regs : Registries) (node : genericNode)
    (version : Version) (cfg : config) (spec parentSpec : option NodeSpec)
    (parentAllowsUnknown : bool) (net : Net) :
  shapeOfResult
    (validateNodeRecursive regs node version cfg spec parentSpec parentAllowsUnknown net).1 =
  shapeOfNode node.
Proof.
  revert spec parentSpec parentAllowsUnknown net.
  induction node as [name attrs children content IH] using genericNode_ind.
  intros spec parentSpec pau net. simpl.
  pose proof (validateNode_frame regs (mkNode name attrs children content) version cfg
                spec parentSpec pau net) as (Hn & _ & Hc).
  destruct (validateNode _ _ _ _ _ _ _ _) as [result net1]. simpl in Hn, Hc.
  pose proof (validateChildren_shape
                (λ child, validateNodeRecursive regs child version cfg
                            (Catalog_node (catalog cfg) (localName child)) spec
                            (childAllowsUnknown spec pau)) children) as Hs.
  destruct (validateChildren _ children (Children result) net1) as [cs net2] eqn:Hv.
  rewrite shapeOfResult_eq. simpl. rewrite Hn. f_equal.
  specialize (Hs ltac:(eapply Forall_impl; [exact IH|]; intros c Hc' net'; apply Hc')
                (Children result) net1).
  rewrite Hv in Hs. simpl in Hs. by rewrite Hs, Hc.
Qed.

(** The node result has a bucket under [category], labelled with it. *)
Definition hasBucket (category : string) (nr : NodeResult) : Prop :=
  ∃ b, Analyses nr !! category = Some b ∧ Category b = category.

Lemma mergeAnalysis_hasBucket c nr analysis :
  hasBucket c nr → hasBucket c (mergeAnalysis nr analysis).
Proof.
  intros (b & Hb & Hc). unfold hasBucket, mergeAnalysis.
  destruct (Analyses nr !! Category analysis) as [existing|] eqn:He; simpl.
  - destruct (decide (Category analysis = c)) as [Heq|Hne].
    + rewrite Heq, lookup_insert_eq. eexists; split; [done|].
      rewrite Heq in He. assert (existing = b) as -> by congruence.
      by destruct (decide (Status analysis = StatusFail)).
    + exists b. by rewrite lookup_insert_ne.
  - exists b. split; [|done]. rewrite lookup_insert_ne; [done|]. intros <-. congruence.
Qed.

Lemma runCustomValidators_hasBucket c validators nr node version :
  hasBucket c nr → hasBucket c (runCustomValidators validators nr node version).
Proof.
  revert nr. induction validators as [|v rest IH]; intros nr Hf; simpl; [done|].
  destruct (v _); [|by apply IH]. by apply IH, mergeAnalysis_hasBucket.
Qed.

Lemma runHTTPValidators_hasBucket c validators client nr node version net :
  hasBucket c nr →
  hasBucket c (runHTTPValidators validators client nr node version net).1.
Proof.
  revert nr net. induction validators as [|v rest IH]; intros nr net Hf; simpl; [done|].
  destruct (v _ _ net) as [[analysis err] net1].
  destruct err as [e|]; [by apply IH, mergeAnalysis_hasBucket|].
  destruct analysis; [by apply IH, mergeAnalysis_hasBucket|by apply IH].
Qed.

Lemma validateAttribute_category version spec analysis attr :
  Category (validateAttribute version spec analysis attr) = Category analysis.
Proof.
  unfold validateAttribute.
  destruct spec as [s|]; [|done].
  destruct (NodeSpec_attribute (Some s) _) as [attrSpec|]; [|done].
  by destruct (negb (AttributeSpec_supports attrSpec version));
    destruct (bool_decide _ && negb _).
Qed.

Lemma validateAttributes_category node version spec analysis :
  Category (validateAttributes node version spec analysis) = Category analysis.
Proof.
  unfold validateAttributes.
  assert (∀ attrs seen a,
            Category (validatePresent version spec attrs seen a).2 = Category a) as Hp.
  { induction attrs as [|attr attrs IH]; intros seen a; simpl; [done|].
    by rewrite IH, validateAttribute_category. }
  specialize (Hp (Attrs node) ∅ analysis).
  destruct (validatePresent version spec (Attrs node) ∅ analysis) as [seen analysis'].
  simpl in Hp. destruct spec as [s|]; [|done].
  rewrite <- Hp. clear Hp. generalize analysis'. clear analysis'.
  induction (attributeSpecs s) as [|attrSpec rest IH]; intros a; simpl; [done|].
  destruct (negb (AS_Required attrSpec)); [apply IH|].
  destruct (decide (AS_Name attrSpec ∈ seen)); [apply IH|].
  by rewrite IH.
Qed.

Lemma structuralChecks_category name version spec parentSpec pau analysis :
  Category (structuralChecks name version spec parentSpec pau analysis) = Category analysis.
Proof.
  unfold structuralChecks.
  destruct spec as [s|].
  - destruct (negb (NodeSpec_supports s version)), parentSpec as [p|], (negb pau);
      try done;
      destruct (NodeSpec_child (Some p) name) as [childSpec|]; try done;
      by destruct (negb (ChildSpec_supports childSpec version)).
  - by destruct (negb pau).
Qed.

Lemma validateNode_hasBucket regs node version cfg spec parentSpec pau net :
  hasBucket IABAnalysisCategory
    (validateNode regs node version cfg spec parentSpec pau net).1.
Proof.
  unfold validateNode.
  set (r2 := if negb pau then _ else _).
  assert (hasBucket IABAnalysisCategory r2) as H2.
  { unfold r2, hasBucket, addAnalysis, onAnalysis. simpl. rewrite lookup_empty. simpl.
    destruct (negb pau); simpl.
    - rewrite !alter_insert_eq, lookup_insert_eq. eexists; split; [done|].
      by rewrite validateAttributes_category, structuralChecks_category.
    - rewrite alter_insert_eq, lookup_insert_eq. eexists; split; [done|].
      by rewrite structuralChecks_category. }
  set (r3 := if runCustom cfg then _ else r2).
  assert (hasBucket IABAnalysisCategory r3) as H3.
  { unfold r3. destruct (runCustom cfg); [|done]. by apply runCustomValidators_hasBucket. }
  destruct (runHTTP cfg); [|done].
  unfold applyHTTPValidators. destruct (getHTTPValidators _ _); [done|].
  by apply runHTTPValidators_hasBucket.
Qed.

Lemma allResults_eq r : allResults r = r :: concat (map allResults (Children r)).
Proof. by destruct r. Qed.

Lemma validateChildren_all (P : NodeResult → Prop)
    (f : genericNode → Net → NodeResult * Net) cs :
  Forall (λ c, ∀ net, Forall P (allResults (f c net).1)) cs →
  ∀ acc net,
    Forall P (concat (map allResults acc)) →
    Forall P (concat (map allResults (validateChildren f cs acc net).1)).
Proof.
  induction 1 as [|c cs Hc _ IH]; intros acc net Hacc; simpl; [done|].
  specialize (Hc net). destruct (f c net) as [childResult net'].
  apply IH. rewrite map_app, concat_app. apply Forall_app. split; [done|].
  simpl. by rewrite app_nil_r.
Qed.

(** X5. Every node result of the tree carries a spec-compliance bucket,
    labelled [iab.analysis]: hooks may add to it or fail it, but none removes
    or relabels it. *)
Theorem every_result_has_compliance_bucket (regs : Registries) (node : genericNode)
    (version : Version) (cfg : config) (spec parentSpec : option NodeSpec)
    (parentAllowsUnknown : bool) (net : Net) :
  Forall (hasBucket IABAnalysisCategory)
    (allResults
       (validateNodeRecursive regs node version cfg spec parentSpec parentAllowsUnknown
          net).1).
Proof.
  revert spec parentSpec parentAllowsUnknown net.
  induction node as [name attrs children content IH] using genericNode_ind.
  intros spec parentSpec pau net. simpl.
  pose proof (validateNode_hasBucket regs (mkNode name attrs children content) version cfg
                spec parentSpec pau net) as Hb.
  pose proof (validateNode_frame regs (mkNode name attrs children content) version cfg
                spec parentSpec pau net) as (_ & _ & Hc).
  destruct (validateNode _ _ _ _ _ _ _ _) as [result net1]. simpl in Hb, Hc.
  pose proof (validateChildren_all (hasBucket IABAnalysisCategory)
                (λ child, validateNodeRecursive regs child version cfg
                            (Catalog_node (catalog cfg) (localName child)) spec
                            (childAllowsUnknown spec pau)) children) as Hs.
  specialize (Hs ltac:(eapply Forall_impl; [exact IH|]; intros c Hc' net'; apply Hc')
                (Children result) net1).
  destruct (validateChildren _ children (Children result) net1) as [cs net2] eqn:Hv.
  cbn [fst] in *. rewrite allResults_eq. cbn [Children setChildren]. constructor.
  - destruct Hb as (b & Hb & Hcat). by exists b.
  - apply Hs. by rewrite Hc.
Qed.

(** ** Options *)

(** The options that the package offers; [config] is not exported, so no
    other option can be written outside the package. *)
Inductive builtinOption : Option → Prop :=
  | builtin_WithCatalog c : builtinOption (WithCatalog c)
  | builtin_DisableCustomValidators : builtinOption DisableCustomValidators
  | builtin_DisableHTTPValidators : builtinOption DisableHTTPValidators
  | builtin_WithHTTPValidationOptions o : builtinOption (WithHTTPValidationOptions o).

Lemma builtinOption_flags o cfg :
  builtinOption o →
  (runCustom cfg = false → runCustom (o cfg) = false) ∧
  (runHTTP cfg = false → runHTTP (o cfg) = false).
Proof. intros [c| | |h]; simpl; try done. by destruct c. Qed.

Lemma applyOptions_flags opts :
  Forall builtinOption opts →
  ∀ cfg,
    (runCustom cfg = false → runCustom (applyOptions cfg opts) = false) ∧
    (runHTTP cfg = false → runHTTP (applyOptions cfg opts) = false).
Proof.
  unfold applyOptions.
  induction 1 as [|o opts Ho _ IH]; intros cfg; simpl; [done|].
  destruct (builtinOption_flags o cfg Ho) as [Hc Hh].
  destruct (IH (o cfg)) as [IHc IHh]. split; auto.
Qed.

Lemma applyOptions_disabled opts :
  Forall builtinOption opts →
  ∀ cfg,
    (In DisableCustomValidators opts →
     runCustom (applyOptions cfg opts) = false ∧ runHTTP (applyOptions cfg opts) = false) ∧
    (In DisableHTTPValidators opts → runHTTP (applyOptions cfg opts) = false).
Proof.
  induction 1 as [|o opts Ho Hall IH]; intros cfg; [by split|].
  change (applyOptions cfg (o :: opts)) with (applyOptions (o cfg) opts).
  destruct (IH (o cfg)) as [IHc IHh].
  destruct (applyOptions_flags opts Hall (o cfg)) as [Fc Fh].
  split.
  - intros [->|Hin]; [|by apply IHc]. split; [by apply Fc|by apply Fh].
  - intros [->|Hin]; [|by apply IHh]. by apply Fh.
Qed.

Lemma validateChildren_no_network (f : genericNode → Net → NodeResult * Net) cs :
  Forall (λ c, ∀ net, (f c net).2 = net) cs →
  ∀ acc net, (validateChildren f cs acc net).2 = net.
Proof.
  induction 1 as [|c cs Hc _ IH]; intros acc net; simpl; [done|].
  specialize (Hc net). destruct (f c net) as [childResult net']. simpl in Hc. subst net'.
  apply IH.
Qed.

Lemma validateNodeRecursive_no_network regs node version cfg :
  runHTTP cfg = false →
  ∀ spec parentSpec pau net,
    (validateNodeRecursive regs node version cfg spec parentSpec pau net).2 = net.
Proof.
  intros Hh.
  induction node as [name attrs children content IH] using genericNode_ind.
  intros spec parentSpec pau net. simpl.
  unfold validateNode at 1. rewrite Hh.
  pose proof (validateChildren_no_network
                (λ child, validateNodeRecursive regs child version cfg
                            (Catalog_node (catalog cfg) (localName child)) spec
                            (childAllowsUnknown spec pau)) children) as Hs.
  specialize (Hs ltac:(eapply Forall_impl; [exact IH|]; intros c Hc' net'; apply Hc')).
  match goal with |- context [validateChildren ?f children ?acc net] =>
    specialize (Hs acc net); destruct (validateChildren f children acc net) as [cs net2]
  end.
  done.
Qed.

Lemma validateChildren_same (f g : genericNode → Net → NodeResult * Net) cs :
  Forall (λ c, ∀ net net', (f c net).1 = (g c net').1) cs →
  Forall (λ c, ∀ net, (f c net).2 = net) cs →
  Forall (λ c, ∀ net, (g c net).2 = net) cs →
  ∀ acc net net', (validateChildren f cs acc net).1 = (validateChildren g cs acc net').1.
Proof.
  intros H. induction H as [|c cs Hc _ IH]; intros Hf Hg acc net net'; simpl; [done|].
  apply Forall_cons in Hf as [Hf1 Hf]. apply Forall_cons in Hg as [Hg1 Hg].
  specialize (Hc net net'). specialize (Hf1 net). specialize (Hg1 net').
  destruct (f c net) as [r1 n1], (g c net') as [r2 n2]. simpl in *. subst.
  by apply IH.
Qed.

Lemma validateNodeRecursive_no_hooks regs regs' node version cfg :
  runCustom cfg = false → runHTTP cfg = false →
  ∀ spec parentSpec pau net net',
    (validateNodeRecursive regs node version cfg spec parentSpec pau net).1 =
    (validateNodeRecursive regs' node version cfg spec parentSpec pau net').1.
Proof.
  intros Hc Hh.
  induction node as [name attrs children content IH] using genericNode_ind.
  intros spec parentSpec pau net net'. simpl.
  unfold validateNode. rewrite Hc, Hh.
  pose proof (validateChildren_same
                (λ child, validateNodeRecursive regs child version cfg
                            (Catalog_node (catalog cfg) (localName child)) spec
                            (childAllowsUnknown spec pau))
                (λ child, validateNodeRecursive regs' child version cfg
                            (Catalog_node (catalog cfg) (localName child)) spec
                            (childAllowsUnknown spec pau)) children) as Hs.
  specialize (Hs ltac:(eapply Forall_impl; [exact IH|]; intros c Hc' n n'; apply Hc')
                ltac:(apply Forall_forall; intros c _ n;
                      by apply validateNodeRecursive_no_network)
                ltac:(apply Forall_forall; intros c _ n;
                      by apply validateNodeRecursive_no_network)).
  match goal with |- context [validateChildren ?f children ?acc net] =>
    specialize (Hs acc net net');
    destruct (validateChildren f children acc net) as [cs net2]
  end.
  match goal with |- context [validateChildren ?g children ?acc net'] =>
    destruct (validateChildren g children acc net') as [cs' net2']
  end.
  simpl in *. by subst.
Qed.

(** X6. Hooks are switched off for the whole call by an option anywhere in
    the list, and no later option switches them back on. With
    [DisableHTTPValidators] or [DisableCustomValidators] among the options
    the call sends no request: the network state comes back as it was. With
    [DisableCustomValidators] the outcome does not depend on the registries
    or on the network at all. *)
Theorem disabled_hooks_stay_disabled (regs regs' : Registries) (raw : string)
    (opts : list Option) (net net' : Net) :
  Forall builtinOption opts →
  (In DisableHTTPValidators opts ∨ In DisableCustomValidators opts →
   (Validate regs raw opts net).2 = net) ∧
  (In DisableCustomValidators opts →
   (Validate regs raw opts net).1 = (Validate regs' raw opts net').1).
Proof.
  intros Hall.
  destruct (applyOptions_disabled opts Hall defaultConfig) as [Hcustom Hhttp].
  split.
  - intros Hin.
    assert (runHTTP (applyOptions defaultConfig opts) = false) as Hh.
    { destruct Hin as [Hin|Hin]; [by apply Hhttp|by apply Hcustom]. }
    unfold Validate.
    destruct (decide (raw = "")); [done|].
    destruct (buildNodeTree raw) as [root|e]; [|done].
    destruct (decide (localName root ≠ "VAST")); [done|].
    destruct (attrValue root "version") as [versionValue|]; [|done].
    destruct (decide (TrimSpace versionValue = "")); [done|].
    destruct (Catalog_node _ "VAST") as [rootSpec|]; [|done].
    pose proof (validateNodeRecursive_no_network regs root (TrimSpace versionValue)
                  (applyOptions defaultConfig opts) Hh (Some rootSpec) None false net) as Hn.
    by destruct (validateNodeRecursive _ _ _ _ _ _ _ _) as [rootResult net1].
  - intros Hin. destruct (Hcustom Hin) as [Hc Hh].
    unfold Validate.
    destruct (decide (raw = "")); [done|].
    destruct (buildNodeTree raw) as [root|e]; [|done].
    destruct (decide (localName root ≠ "VAST")); [done|].
    destruct (attrValue root "version") as [versionValue|]; [|done].
    destruct (decide (TrimSpace versionValue = "")); [done|].
    destruct (Catalog_node _ "VAST") as [rootSpec|]; [|done].
    pose proof (validateNodeRecursive_no_hooks regs regs' root (TrimSpace versionValue)
                  (applyOptions defaultConfig opts) Hc Hh (Some rootSpec) None false
                  net net') as Hn.
    destruct (validateNodeRecursive regs _ _ _ _ _ _ net) as [rootResult net1].
    destruct (validateNodeRecursive regs' _ _ _ _ _ _ net') as [rootResult' net1'].
    simpl in *. by subst.
Qed.

(** ** Errors of the entry point *)




(** ** What the spec-compliance bucket says *)

(** The attribute is in the spec's table, valid for the version, and not
    blank unless the spec allows that. *)
Definition attributeAccepted (version : Version) (s : NodeSpec) (attr : xml_Attr) : Prop :=
  ∃ attrSpec,
    NS_Attributes s !! Local (Attr_Name attr) = Some attrSpec ∧
    AttributeSpec_supports attrSpec version = true ∧
    (TrimSpace (Attr_Value attr) = "" → AS_AllowEmpty attrSpec = true).

(** The node passes every check that the catalog encodes. *)
Definition compliant (node : genericNode) (version : Version)
    (spec parentSpec : option NodeSpec) : Prop :=
  ∃ s, spec = Some s ∧
    NodeSpec_supports s version = true ∧
    (∀ p, parentSpec = Some p →
       ∃ childSpec, NS_Children p !! localName node = Some childSpec ∧
                    ChildSpec_supports childSpec version = true) ∧
    Forall (attributeAccepted version s) (Attrs node) ∧
    (∀ k attrSpec, NS_Attributes s !! k = Some attrSpec →
       AS_Required attrSpec = true → AS_Name attrSpec ∈ attrNames node).

(** A bucket that only [markFailure] with a reason has touched: it passes
    without reasons or has failed with some. *)
Definition settled (a : NodeAnalysisResult) : Prop :=
  (Status a = StatusPass ∧ Reasons a = []) ∨ (Status a = StatusFail ∧ Reasons a ≠ []).

Lemma markFailure_settled a msg :
  msg ≠ "" → settled (markFailure a [msg]) ∧ Status (markFailure a [msg]) ≠ StatusPass.
Proof.
  intros Hm. split.
  - right. split; [apply markFailure_status|].
    unfold markFailure. cbn [Reasons]. rewrite appendReasons_one by done.
    by destruct (Reasons a).
  - by rewrite markFailure_status.
Qed.

Lemma structuralChecks_settled name version spec parentSpec a :
  settled a →
  settled (structuralChecks name version spec parentSpec false a) ∧
  (Status (structuralChecks name version spec parentSpec false a) = StatusPass ↔
   Status a = StatusPass ∧
   ∃ s, spec = Some s ∧ NodeSpec_supports s version = true ∧
        (∀ p, parentSpec = Some p →
           ∃ childSpec, NS_Children p !! name = Some childSpec ∧
                        ChildSpec_supports childSpec version = true)).
Proof.
  intros Ha. unfold structuralChecks.
  destruct spec as [s|]; cbn [negb].
  2: { edestruct markFailure_settled as [Hs Hn]; [|split; [exact Hs|]]; [done|].
       split; [done|]. by intros [_ (? & [=] & _)]. }
  destruct (NodeSpec_supports s version) eqn:Hsup; cbn [negb].
  - destruct parentSpec as [p|].
    + unfold NodeSpec_child.
      destruct (NS_Children p !! name) as [childSpec|] eqn:Hc.
      * destruct (ChildSpec_supports childSpec version) eqn:Hcs; cbn [negb].
        -- split; [done|]. split; [|by intros [? _]].
           intros Hp. split; [done|]. exists s. split_and!; try done.
           intros p' [= <-]. by exists childSpec.
        -- edestruct markFailure_settled as [Hs Hn]; [|split; [exact Hs|]]; [done|].
           split; [done|]. intros [_ (s' & [= <-] & _ & Hp)].
           destruct (Hp p eq_refl) as (cs & Hcs' & Hsup'). congruence.
      * edestruct markFailure_settled as [Hs Hn]; [|split; [exact Hs|]]; [done|].
        split; [done|]. intros [_ (s' & [= <-] & _ & Hp)].
        destruct (Hp p eq_refl) as (cs & Hcs' & _). congruence.
    + split; [done|]. split; [|by intros [? _]].
      intros Hp. split; [done|]. exists s. by split_and!.
  - set (a1 := markFailure a _).
    assert (settled a1 ∧ Status a1 ≠ StatusPass) as [Hs1 Hn1] by (by apply markFailure_settled).
    assert (∀ b, settled b → Status b ≠ StatusPass →
              (Status b = StatusPass ↔
               Status a = StatusPass ∧
               ∃ s0, Some s = Some s0 ∧ NodeSpec_supports s0 version = true ∧
                     (∀ p, parentSpec = Some p →
                        ∃ childSpec, NS_Children p !! name = Some childSpec ∧
                                     ChildSpec_supports childSpec version = true))) as Hno.
    { intros b _ Hb. split; [done|]. intros [_ (s' & [= <-] & ? & _)]. congruence. }
    destruct parentSpec as [p|]; [|by split; [|apply Hno]].
    unfold NodeSpec_child. destruct (NS_Children p !! name) as [childSpec|].
    + destruct (ChildSpec_supports childSpec version); cbn [negb].
      * by split; [|apply Hno].
      * edestruct (markFailure_settled a1) as [Hs Hn]; [|split; [exact Hs|by apply Hno]]; done.
    + edestruct (markFailure_settled a1) as [Hs Hn]; [|split; [exact Hs|by apply Hno]]; done.
Qed.

Lemma addAttribute_settled a r : settled a → settled (addAttribute a r).
Proof. done. Qed.

Lemma validateAttribute_settled version spec a attr :
  settled a →
  settled (validateAttribute version spec a attr) ∧
  (Status (validateAttribute version spec a attr) = StatusPass ↔
   Status a = StatusPass ∧ ∃ s, spec = Some s ∧ attributeAccepted version s attr).
Proof.
  intros Ha. unfold validateAttribute, attributeAccepted.
  destruct spec as [s|].
  2: { edestruct markFailure_settled as [Hs Hn]; [|split; [exact Hs|]]; [done|].
       split; [done|]. by intros [_ (? & [=] & _)]. }
  unfold NodeSpec_attribute.
  destruct (NS_Attributes s !! Local (Attr_Name attr)) as [attrSpec|] eqn:Hlook.
  2: { edestruct markFailure_settled as [Hs Hn]; [|split; [exact Hs|]]; [done|].
       split; [done|]. intros [_ (s' & [= <-] & x & Hx & _)]. congruence. }
  destruct (AttributeSpec_supports attrSpec version) eqn:Hsup; cbn [negb].
  - destruct (decide (TrimSpace (Attr_Value attr) = "")) as [Hb|Hb].
    + rewrite (bool_decide_eq_true_2 _ Hb).
      destruct (AS_AllowEmpty attrSpec) eqn:Hallow; cbn [negb andb].
      * split; [done|]. split; [|by intros [? _]].
        intros Hp. split; [done|]. exists s. split; [done|]. by exists attrSpec.
      * edestruct (markFailure_settled a) as [Hs Hn]; [|split; [exact Hs|]]; [done|].
        split; [done|]. intros [_ (s' & [= <-] & x & Hx & _ & Hal)].
        assert (x = attrSpec) as -> by congruence. specialize (Hal Hb). congruence.
    + rewrite (bool_decide_eq_false_2 _ Hb). cbn [andb].
      split; [done|]. split; [|by intros [? _]].
      intros Hp. split; [done|]. exists s. split; [done|]. exists attrSpec. by split_and!.
  - set (a1 := markFailure a _).
    assert (settled a1 ∧ Status a1 ≠ StatusPass) as [Hs1 Hn1] by (by apply markFailure_settled).
    assert (∀ b : NodeAnalysisResult, Status b ≠ StatusPass →
              (Status b = StatusPass ↔
               Status a = StatusPass ∧
               ∃ s0, Some s = Some s0 ∧
                 ∃ x, NS_Attributes s0 !! Local (Attr_Name attr) = Some x ∧
                      AttributeSpec_supports x version = true ∧
                      (TrimSpace (Attr_Value attr) = "" → AS_AllowEmpty x = true))) as Hno.
    { intros b Hb. split; [done|]. intros [_ (s' & [= <-] & x & Hx & Hsx & _)].
      assert (x = attrSpec) as -> by congruence. congruence. }
    destruct (bool_decide _ && negb _).
    + edestruct (markFailure_settled a1) as [Hs Hn]; [|split; [exact Hs|by apply Hno]]; done.
    + by split; [|apply Hno].
Qed.

Lemma validatePresent_settled version spec attrs :
  ∀ seen a,
    settled a →
    settled (validatePresent version spec attrs seen a).2 ∧
    (Status (validatePresent version spec attrs seen a).2 = StatusPass ↔
     Status a = StatusPass ∧
     Forall (λ attr, ∃ s, spec = Some s ∧ attributeAccepted version s attr) attrs).
Proof.
  forget_library.
  induction attrs as [|attr attrs IH]; intros seen a Ha; simpl.
  - split; [done|]. split; [by intros ?|by intros [? _]].
  - destruct (validateAttribute_settled version spec a attr Ha) as [Hs Hp].
    destruct (IH ({[Local (Attr_Name attr)]} ∪ seen) _ Hs) as [Hs' Hp'].
    split; [done|]. rewrite Hp', Hp, Forall_cons. tauto.
Qed.

Lemma validateRequired_settled attrSpecs seen :
  ∀ a,
    settled a →
    settled (validateRequired attrSpecs seen a) ∧
    (Status (validateRequired attrSpecs seen a) = StatusPass ↔
     Status a = StatusPass ∧
     Forall (λ attrSpec, AS_Required attrSpec = true → AS_Name attrSpec ∈ seen) attrSpecs).
Proof.
  induction attrSpecs as [|attrSpec rest IH]; intros a Ha; simpl.
  - split; [done|]. split; [by intros ?|by intros [? _]].
  - destruct (AS_Required attrSpec) eqn:Hreq; cbn [negb].
    + destruct (decide (AS_Name attrSpec ∈ seen)) as [Hin|Hin].
      * destruct (IH a Ha) as [Hs Hp]. split; [done|].
        rewrite Hp, Forall_cons. tauto.
      * destruct (markFailure_settled (addAttribute a (missingRequired attrSpec))
                    ("missing required attribute " +:+ AS_Name attrSpec))
          as [Hs Hn]; [done|].
        destruct (IH _ Hs) as [Hs' Hp'].
        split; [done|]. rewrite Hp', Forall_cons. split; [by intros [? _]|].
        intros [_ [Hc _]]. by specialize (Hc Hreq).
    + destruct (IH a Ha) as [Hs Hp]. split; [done|].
      rewrite Hp, Forall_cons. split; [|tauto]. intros [? ?]. split_and!; try done.
      intros Hr. congruence.
Qed.

Lemma checkedBucket_verdict node version spec parentSpec :
  settled (checkedBucket node version spec parentSpec) ∧
  (Status (checkedBucket node version spec parentSpec) = StatusPass ↔
   compliant node version spec parentSpec).
Proof.
  forget_library.
  assert (settled (mkAnalysis IABAnalysisCategory StatusPass [] [])) as H0 by (by left).
  destruct (structuralChecks_settled (localName node) version spec parentSpec _ H0)
    as [H1 P1].
  set (a1 := structuralChecks _ _ _ _ _ _) in *.
  destruct (validatePresent_settled version spec (Attrs node) ∅ a1 H1) as [H2 P2].
  destruct (validatePresent_attributes version spec (Attrs node) ∅ a1) as (_ & Hseen & _).
  unfold checkedBucket, validateAttributes. fold a1.
  destruct (validatePresent version spec (Attrs node) ∅ a1) as [seen a2].
  cbn [fst snd] in *. unfold compliant.
  destruct spec as [s|].
  - destruct (validateRequired_settled (attributeSpecs s) seen a2 H2) as [H3 P3].
    split; [done|]. rewrite P3, P2, P1. subst seen. split.
    + intros [[[_ (s' & [= <-] & Hsup & Hpar)] Hattrs] Hreq].
      exists s. split_and!; try done.
      * eapply Forall_impl; [exact Hattrs|]. by intros attr (s' & [= <-] & ?).
      * intros k attrSpec Hk Hr.
        rewrite Forall_forall in Hreq.
        assert (attrSpec ∈ attributeSpecs s) as Hin
          by (apply elem_of_attributeSpecs; by exists k).
        specialize (Hreq attrSpec Hin Hr). unfold attrNames. set_solver.
    + intros (s' & [= <-] & Hsup & Hpar & Hattrs & Hreq). split_and!; try done.
      * by exists s.
      * eapply Forall_impl; [exact Hattrs|]. intros attr ?. by exists s.
      * apply Forall_forall. intros attrSpec Hin Hr.
        apply elem_of_attributeSpecs in Hin as (k & Hk).
        specialize (Hreq k attrSpec Hk Hr). unfold attrNames in Hreq. set_solver.
  - split; [done|]. rewrite P2, P1. split.
    + by intros [[_ (? & [=] & _)] _].
    + by intros (? & [=] & _).
Qed.

Lemma checkedBucket_fails node version spec parentSpec :
  Status (checkedBucket node version spec parentSpec) = StatusFail ↔
  ¬ compliant node version spec parentSpec.
Proof.
  destruct (checkedBucket_verdict node version spec parentSpec) as [Hs Hp].
  rewrite <- Hp. destruct Hs as [[-> _]|[-> _]]; split; done.
Qed.

(** X8. The spec-compliance bucket of a node that is not exempt, as the
    structural and attribute checks leave it, passes exactly when the node is
    compliant: its name has a spec that supports the version, the parent (if
    it has a spec) lists it as a child for the version, every attribute is in
    the spec's table, valid for the version and not blank unless allowed, and
    no required attribute is absent. Otherwise it has failed; it has failed
    exactly when it carries a reason; and this is the bucket found on the
    node result when no hook runs. *)
Theorem compliance_bucket_verdict (regs : Registries) (node : genericNode)
    (version : Version) (cfg : config) (spec parentSpec : option NodeSpec) (net : Net) :
  (Status (checkedBucket node version spec parentSpec) = StatusPass ↔
   compliant node version spec parentSpec) ∧
  (Status (checkedBucket node version spec parentSpec) = StatusFail ↔
   ¬ compliant node version spec parentSpec) ∧
  (Status (checkedBucket node version spec parentSpec) = StatusFail ↔
   Reasons (checkedBucket node version spec parentSpec) ≠ []) ∧
  (runCustom cfg = false → runHTTP cfg = false →
   Analyses (validateNode regs node version cfg spec parentSpec false net).1
     !! IABAnalysisCategory = Some (checkedBucket node version spec parentSpec)).
Proof.
  destruct (checkedBucket_verdict node version spec parentSpec) as [Hs Hp].
  split; [done|]. split_and!.
  - apply checkedBucket_fails.
  - destruct Hs as [[-> ->]|[-> ?]]; split; done.
  - intros Hc Hh. rewrite validateNode_checked. cbv zeta. rewrite Hc, Hh. simpl.
    apply lookup_singleton_eq.
Qed.

(** ** Failures that hooks cannot undo *)

Lemma markFailure_reasons_prefix a reasons :
  Reasons a `prefix_of` Reasons (markFailure a reasons).
Proof.
  unfold markFailure. cbn [Reasons]. rewrite appendReasons_filter. by apply prefix_app_r.
Qed.

Lemma validateAttribute_reasons_prefix version spec a attr :
  Reasons a `prefix_of` Reasons (validateAttribute version spec a attr).
Proof.
  unfold validateAttribute.
  destruct spec as [s|]; [|apply (markFailure_reasons_prefix (addAttribute a _))].
  destruct (NodeSpec_attribute (Some s) _) as [attrSpec|];
    [|apply (markFailure_reasons_prefix (addAttribute a _))].
  destruct (negb (AttributeSpec_supports attrSpec version));
    destruct (bool_decide _ && negb _); cbv beta iota zeta;
    change (Reasons (addAttribute ?x ?r)) with (Reasons x); try done.
  - etrans; apply markFailure_reasons_prefix.
  - apply markFailure_reasons_prefix.
  - apply markFailure_reasons_prefix.
Qed.

Lemma validateAttributes_reasons_prefix node version spec a :
  Reasons a `prefix_of` Reasons (validateAttributes node version spec a).
Proof.
  unfold validateAttributes.
  assert (∀ attrs seen b,
            Reasons b `prefix_of` Reasons (validatePresent version spec attrs seen b).2) as Hp.
  { induction attrs as [|attr attrs IH]; intros seen b; simpl; [done|].
    etrans; [apply validateAttribute_reasons_prefix|apply IH]. }
  specialize (Hp (Attrs node) ∅ a).
  destruct (validatePresent version spec (Attrs node) ∅ a) as [seen a']. simpl in Hp.
  destruct spec as [s|]; [|done].
  etrans; [exact Hp|]. clear Hp. generalize a'. clear a'.
  induction (attributeSpecs s) as [|attrSpec rest IH]; intros b; simpl; [done|].
  destruct (negb (AS_Required attrSpec)); [apply IH|].
  destruct (decide (AS_Name attrSpec ∈ seen)); [apply IH|].
  etrans; [|apply IH]. apply (markFailure_reasons_prefix (addAttribute b _)).
Qed.

(** The reasons of a bucket start with [l]. *)
Definition reasonsStart (c : string) (l : list string) (nr : NodeResult) : Prop :=
  ∃ b, Analyses nr !! c = Some b ∧ l `prefix_of` Reasons b.

Lemma mergeAnalysis_reasonsStart c l nr analysis :
  reasonsStart c l nr → reasonsStart c l (mergeAnalysis nr analysis).
Proof.
  intros (b & Hb & Hp). unfold reasonsStart, mergeAnalysis.
  destruct (Analyses nr !! Category analysis) as [existing|] eqn:He; simpl.
  - destruct (decide (Category analysis = c)) as [Hc|Hne].
    + rewrite Hc, lookup_insert_eq. eexists; split; [done|].
      rewrite Hc in He. assert (existing = b) as -> by congruence.
      destruct (decide (Status analysis = StatusFail)); [|done].
      etrans; [exact Hp|]. apply (markFailure_reasons_prefix (mkAnalysis _ _ _ _)).
    + exists b. by rewrite lookup_insert_ne.
  - exists b. split; [|done]. rewrite lookup_insert_ne; [done|]. intros <-. congruence.
Qed.

Lemma runCustomValidators_reasonsStart c l validators nr node version :
  reasonsStart c l nr → reasonsStart c l (runCustomValidators validators nr node version).
Proof.
  revert nr. induction validators as [|v rest IH]; intros nr Hf; simpl; [done|].
  destruct (v _); [|by apply IH]. by apply IH, mergeAnalysis_reasonsStart.
Qed.

Lemma runHTTPValidators_reasonsStart c l validators client nr node version net :
  reasonsStart c l nr →
  reasonsStart c l (runHTTPValidators validators client nr node version net).1.
Proof.
  revert nr net. induction validators as [|v rest IH]; intros nr net Hf; simpl; [done|].
  destruct (v _ _ net) as [[analysis err] net1].
  destruct err as [e|]; [by apply IH, mergeAnalysis_reasonsStart|].
  destruct analysis; [by apply IH, mergeAnalysis_reasonsStart|by apply IH].
Qed.

Lemma applyHTTPValidators_reasonsStart c l regs nr node version cfg net :
  reasonsStart c l nr →
  reasonsStart c l (applyHTTPValidators regs nr node version cfg net).1.
Proof.
  intros H. unfold applyHTTPValidators.
  destruct (getHTTPValidators _ _); [done|].
  by apply runHTTPValidators_reasonsStart.
Qed.

Lemma applyHTTPValidators_failedAt c regs nr node version cfg net :
  failedAt c nr → failedAt c (applyHTTPValidators regs nr node version cfg net).1.
Proof.
  intros H. unfold applyHTTPValidators.
  destruct (getHTTPValidators _ _); [done|].
  by apply runHTTPValidators_failedAt.
Qed.

Lemma validateNode_keeps_checked regs node version cfg spec parentSpec net :
  reasonsStart IABAnalysisCategory (Reasons (checkedBucket node version spec parentSpec))
    (validateNode regs node version cfg spec parentSpec false net).1 ∧
  (Status (checkedBucket node version spec parentSpec) = StatusFail →
   failedAt IABAnalysisCategory
     (validateNode regs node version cfg spec parentSpec false net).1).
Proof.
  rewrite validateNode_checked. cbv zeta.
  set (r0 := mkNodeResult _ _ _ _).
  assert (reasonsStart IABAnalysisCategory
            (Reasons (checkedBucket node version spec parentSpec)) r0) as HR.
  { eexists. split; [apply lookup_singleton_eq|done]. }
  assert (Status (checkedBucket node version spec parentSpec) = StatusFail →
          failedAt IABAnalysisCategory r0) as HF.
  { intros Hs. eexists. split; [apply lookup_singleton_eq|done]. }
  split.
  - destruct (runCustom cfg), (runHTTP cfg); cbn [fst]; try done.
    + by apply applyHTTPValidators_reasonsStart, runCustomValidators_reasonsStart.
    + by apply runCustomValidators_reasonsStart.
    + by apply applyHTTPValidators_reasonsStart.
  - intros Hs. specialize (HF Hs).
    destruct (runCustom cfg), (runHTTP cfg); cbn [fst]; try done.
    + by apply applyHTTPValidators_failedAt, runCustomValidators_failedAt.
    + by apply runCustomValidators_failedAt.
    + by apply applyHTTPValidators_failedAt.
Qed.

(** X9. What the catalog checks find wrong with a node stays on its result,
    whichever hooks run afterwards: a node that is not exempt and not
    compliant ends with a failed spec-compliance bucket, the reasons of the
    checks open the bucket's reasons, and for a node without a spec the
    first of them says that the node is not recognized in the catalog. *)
Theorem catalog_failures_survive_hooks (regs : Registries) (node : genericNode)
    (version : Version) (cfg : config) (spec parentSpec : option NodeSpec) (net : Net) :
  (¬ compliant node version spec parentSpec →
   failedAt IABAnalysisCategory
     (validateNode regs node version cfg spec parentSpec false net).1) ∧
  reasonsStart IABAnalysisCategory (Reasons (checkedBucket node version spec parentSpec))
    (validateNode regs node version cfg spec parentSpec false net).1 ∧
  (spec = None →
   reasonsStart IABAnalysisCategory
     ["node " +:+ localName node +:+ " is not recognized in catalog"]
     (validateNode regs node version cfg spec parentSpec false net).1).
Proof.
  destruct (validateNode_keeps_checked regs node version cfg spec parentSpec net) as [HR HF].
  split_and!.
  - intros Hn. apply HF, checkedBucket_fails, Hn.
  - exact HR.
  - intros ->. destruct HR as (b & Hb & Hp). exists b. split; [done|].
    etrans; [|exact Hp]. unfold checkedBucket.
    etrans; [|apply validateAttributes_reasons_prefix]. done.
Qed.

(** ** The parser *)

(** The tokens of a tree: the start tag, the text if there is any, the
    children in order, the end tag. *)
Fixpoint tokensOf (n : genericNode) : list Token :=
  match n with
  | mkNode name attrs children content =>
      StartElement name attrs ::
      (if decide (content = "") then [] else [CharData content]) ++
      concat (map tokensOf children) ++ [EndElement name]
  end.

(** The nodes of a tree, in document order. *)
Fixpoint allNodes (n : genericNode) : list genericNode :=
  match n with
  | mkNode _ _ children _ => n :: concat (map allNodes children)
  end.

(** The text of every node is as [TrimSpace] leaves it. *)
Definition trimmedTree (n : genericNode) : Prop :=
  Forall (λ m, TrimSpace (Content m) = Content m) (allNodes n).

(** What closing an element does to the state of [buildLoop]. *)
Definition closeElement (n : genericNode) (stack : list genericNode)
    (root : option genericNode) : list genericNode * option genericNode :=
  match stack with
  | [] => ([], Some n)
  | parent :: below => (appendChild parent n :: below, root)
  end.

Lemma buildLoop_children (cs : list genericNode) :
  Forall (λ c, ∀ rest stack root,
            buildLoop (tokensOf c ++ rest) stack root =
            buildLoop rest (closeElement c stack root).1 (closeElement c stack root).2) cs →
  ∀ rest frame below root,
    buildLoop (concat (map tokensOf cs) ++ rest) (frame :: below) root =
    buildLoop rest
      (mkNode (gn_Name frame) (Attrs frame) (gn_Children frame ++ cs) (Content frame)
       :: below) root.
Proof.
  induction 1 as [|c cs Hc _ IH]; intros rest frame below root; simpl.
  - rewrite app_nil_r. by destruct frame.
  - rewrite <- app_assoc, Hc. simpl. rewrite IH. simpl. by rewrite <- app_assoc.
Qed.

Lemma buildLoop_tokensOf (n : genericNode) :
  trimmedTree n →
  ∀ rest stack root,
    buildLoop (tokensOf n ++ rest) stack root =
    buildLoop rest (closeElement n stack root).1 (closeElement n stack root).2.
Proof.
  unfold trimmedTree.
  induction n as [name attrs children content IH] using genericNode_ind.
  intros Ht rest stack root. simpl in Ht. apply Forall_cons in Ht as [Hc Ht]. simpl in Hc.
  assert (Forall (λ c, ∀ rest stack root,
            buildLoop (tokensOf c ++ rest) stack root =
            buildLoop rest (closeElement c stack root).1 (closeElement c stack root).2)
            children) as Hch.
  { clear -IH Ht. induction IH as [|c cs Hc _ IHcs]; [constructor|].
    simpl in Ht. apply Forall_app in Ht as [Ht1 Ht2].
    constructor; [by apply Hc|by apply IHcs]. }
  pose proof (buildLoop_children children Hch) as Hloop.
  cbn [tokensOf app buildLoop].
  destruct (decide (content = "")) as [->|Hne].
  - cbn [app]. rewrite <- app_assoc, Hloop. simpl. by destruct stack.
  - cbn [app buildLoop]. rewrite Hc.
    destruct (decide (content = "")); [done|].
    rewrite <- app_assoc, Hloop. simpl. by destruct stack.
Qed.

(** X10. Parsing gives back the tree that the tokens spell: when the
    tokenizer delivers the tokens of a tree whose texts are trimmed, and ends
    without an error, [buildNodeTree] returns that tree, with the attributes
    and the children in their order. *)
Theorem buildNodeTree_of_tokens (raw : string) (n : genericNode) :
  xml_tokens raw = (tokensOf n, None) →
  trimmedTree n →
  buildNodeTree raw = inl n.
Proof.
  intros Htok Ht. unfold buildNodeTree. rewrite Htok.
  pose proof (buildLoop_tokensOf n Ht [] [] None) as Hb.
  rewrite app_nil_r in Hb. by rewrite Hb.
Qed.

(** A token that [buildLoop] acts on: not a comment, directive or processing
    instruction, and not text that is blank once trimmed. *)
Definition significant (t : Token) : Prop :=
  match t with
  | OtherToken => False
  | CharData data => TrimSpace data ≠ ""
  | _ => True
  end.

#[global] Instance significant_dec t : Decision (significant t).
Proof. destruct t; simpl; apply _. Defined.

(** X11. Comments, directives, processing instructions and blank text do
    not show in the outcome of parsing: leaving them out of the token stream
    changes neither the tree nor the error. Text outside the root element is
    dropped as well. *)
Theorem buildLoop_skips_insignificant (tokens : list Token) (stack : list genericNode)
    (root : option genericNode) :
  buildLoop (filter significant tokens) stack root = buildLoop tokens stack root ∧
  (∀ data rest, buildLoop (CharData data :: rest) [] root = buildLoop rest [] root).
Proof.
  split; [|done].
  revert stack root. induction tokens as [|t rest IH]; intros stack root; [done|].
  rewrite filter_cons. destruct t as [name attr|name|data|].
  - rewrite decide_True by done. simpl. apply IH.
  - rewrite decide_True by done. simpl.
    destruct stack as [|top [|parent below]]; [done|apply IH..].
  - simpl. destruct (decide (TrimSpace data ≠ "")) as [Hs|Hs].
    + simpl. destruct stack as [|current below]; [apply IH|].
      destruct (decide (TrimSpace data = "")); [done|apply IH].
    + rewrite IH. destruct stack as [|current below]; [done|].
      by destruct (decide (TrimSpace data = "")).
  - rewrite decide_False by (by intros ?). simpl. apply IH.
Qed.

(** X12. Attribute lookup answers by local name alone: it finds nothing
    exactly when no attribute of the node has that local name, whatever the
    name spaces, and a value it returns is the value of an attribute of the
    node with that local name. *)
Theorem attrValue_missing_key (n : genericNode) (name : string) :
  (attrValue n name = None ↔ name ∉ attrNames n) ∧
  (∀ v, attrValue n name = Some v →
        ∃ attr, attr ∈ Attrs n ∧ Local (Attr_Name attr) = name ∧ Attr_Value attr = v).
Proof.
  forget_library.
  unfold attrValue, attrNames.
  induction (Attrs n) as [|attr rest [IH1 IH2]]; simpl.
  - split; [split; [intros _; apply not_elem_of_nil|done]|done].
  - destruct (decide (Local (Attr_Name attr) = name)) as [He|He].
    + split.
      * split; [done|]. intros Hn. exfalso. apply Hn. rewrite He. by left.
      * intros v [= <-]. exists attr. split_and!; [by left|done..].
    + split.
      * rewrite IH1, not_elem_of_cons. naive_solver.
      * intros v Hv. destruct (IH2 v Hv) as (a & Hin & ? & ?).
        exists a. split_and!; [by right|done..].
Qed.

(** ** Hooks *)

(** X13. The built-in media-file hook never reports an execution error: it
    always answers with an analysis in the custom category, without
    attribute results, that either passes without a reason or has failed
    with exactly one. For a node without text, or with a text that does not
    normalize to a URL, it fails without sending any request. *)
Theorem mediaFile_hook_always_answers (nodeCtx : NodeContext) (client : option Client)
    (net : Net) :
  ∃ a,
    (mediaFileHTTPValidator nodeCtx client net).1 = (Some a, None) ∧
    Category a = CustomAnalysisCategory ∧
    Attributes a = [] ∧
    ((Status a = StatusPass ∧ Reasons a = []) ∨
     (Status a = StatusFail ∧ length (Reasons a) = 1%nat)) ∧
    (Text nodeCtx = "" →
     a = failedCustom "media file URL is empty" ∧
     (mediaFileHTTPValidator nodeCtx client net).2 = net) ∧
    (∀ e, Text nodeCtx ≠ "" → normalizeProbeURL (Text nodeCtx) = inr e →
          a = failedCustom ("media file request failed: " +:+ ProbeURLError_Error e) ∧
          (mediaFileHTTPValidator nodeCtx client net).2 = net).
Proof.
  unfold mediaFileHTTPValidator, probeMediaURL. cbv zeta.
  destruct (decide (Text nodeCtx = "")) as [He|He].
  { eexists. split; [reflexivity|]. split_and!; try done; try (by right). }
  destruct (normalizeProbeURL (Text nodeCtx)) as [u|err] eqn:Hn.
  2: { eexists. split; [reflexivity|]. split_and!; try done; try (by right);
       try (by intros e _ [= <-]). }
  assert (∀ (out : (Response + string) * Net),
    ∃ a,
      (match out with
       | (inr err, net1) =>
           ((Some (failedCustom ("media file request failed: " +:+ err)), None), net1)
       | (inl resp, net1) =>
           if decide (StatusCode resp >= 400) then
             ((Some (failedCustom
                       ("media file responded with HTTP " +:+ pretty (StatusCode resp))),
               None), net1)
           else
             match contentTypeMismatch nodeCtx resp with
             | Some msg => ((Some (failedCustom msg), None), net1)
             | None =>
                 ((Some (mkAnalysis CustomAnalysisCategory StatusPass [] []), None), net1)
             end
       end).1 = (Some a, @None string) ∧
      Category a = CustomAnalysisCategory ∧
      Attributes a = [] ∧
      ((Status a = StatusPass ∧ Reasons a = []) ∨
       (Status a = StatusFail ∧ length (Reasons a) = 1%nat))) as Hout.
  { intros [[resp|err] net1].
    - destruct (decide (StatusCode resp >= 400)).
      + eexists. split; [reflexivity|]. split_and!; try done. by right.
      + destruct (contentTypeMismatch nodeCtx resp).
        * eexists. split; [reflexivity|]. split_and!; try done. by right.
        * eexists. split; [reflexivity|]. split_and!; try done. by left.
    - eexists. split; [reflexivity|]. split_and!; try done. by right. }
  match goal with
  | |- ∃ a, (match ?out with _ => _ end).1 = _ ∧ _ =>
      destruct (Hout out) as (a & Ha & Hc & Hat & Hs)
  end.
  exists a. split_and!; try done.
Qed.

(** X14. An execution error of a network hook does not stop the pass: the
    analysis that came with the error is dropped, a failed analysis in the
    custom category with the error message as its reason is merged instead,
    the remaining hooks run on, and the custom bucket of the node ends
    failed. *)
Theorem hook_error_becomes_failure (h : HTTPValidatorFunc) (rest : list HTTPValidatorFunc)
    (client : Client) (nr : NodeResult) (node : genericNode) (version : Version)
    (net net1 : Net) (analysis : option NodeAnalysisResult) (e : string) :
  h (mkContext (Some node) version) (Some client) net = ((analysis, Some e), net1) →
  runHTTPValidators (h :: rest) client nr node version net =
    runHTTPValidators rest client
      (mergeAnalysis nr
         (mkAnalysis CustomAnalysisCategory StatusFail (filter (λ r, r ≠ "") [e]) []))
      node version net1 ∧
  failedAt CustomAnalysisCategory
    (runHTTPValidators (h :: rest) client nr node version net).1.
Proof.
  intros Hh.
  assert (runHTTPValidators (h :: rest) client nr node version net =
          runHTTPValidators rest client
            (mergeAnalysis nr
               (mkAnalysis CustomAnalysisCategory StatusFail (filter (λ r, r ≠ "") [e]) []))
            node version net1) as Hrun.
  { cbn [runHTTPValidators]. rewrite Hh. cbv beta iota zeta.
    unfold withDefaultCategory, markFailure. cbn [Category Status Reasons Attributes].
    rewrite appendReasons_filter. done. }
  split; [exact Hrun|]. rewrite Hrun.
  apply runHTTPValidators_failedAt.
  set (a := mkAnalysis _ _ _ _).
  unfold failedAt, mergeAnalysis.
  destruct (Analyses nr !! Category a) as [existing|] eqn:He; simpl.
  - rewrite lookup_insert_eq. eexists. split; [done|]. apply markFailure_status.
  - rewrite lookup_insert_eq. by eexists.
Qed.

Lemma runHTTPValidators_app l1 l2 client nr node version net :
  runHTTPValidators (l1 ++ l2) client nr node version net =
  let '(nr1, net1) := runHTTPValidators l1 client nr node version net in
  runHTTPValidators l2 client nr1 node version net1.
Proof.
  revert nr net. induction l1 as [|v rest IH]; intros nr net; simpl; [done|].
  destruct (v _ _ net) as [[analysis err] net1].
  destruct err as [e|]; [apply IH|]. destruct analysis; apply IH.
Qed.

Lemma runCustomValidators_app_list l1 l2 nr node version :
  runCustomValidators (l1 ++ l2) nr node version =
  runCustomValidators l2 (runCustomValidators l1 nr node version) node version.
Proof.
  revert nr. induction l1 as [|v rest IH]; intros nr; simpl; [done|].
  destruct (v _); apply IH.
Qed.

(** X15. Hooks run in the order of their registration, each on what the
    ones before it left: registering two hooks under one name makes both
    run, the first before the second, after those already registered; the
    pass over a list of hooks is the pass over its first part followed by the
    pass over the rest; a registration under a name with another lower-casing
    leaves the hooks of a node untouched, and a node for whose name nothing is
    registered gets no hook. *)
Theorem hooks_run_in_registration_order (cv : gmap string (list NodeValidatorFunc))
    (store : gmap string (list HTTPValidatorFunc)) (name other : string)
    (v1 v2 : NodeValidatorFunc) (h1 h2 : HTTPValidatorFunc) :
  getCustomValidators
    (RegisterCustomValidator (RegisterCustomValidator cv name (Some v1)) name (Some v2))
    name = getCustomValidators cv name ++ [v1; v2] ∧
  getHTTPValidators
    (RegisterHTTPValidator (RegisterHTTPValidator store name (Some h1)) name (Some h2))
    name = getHTTPValidators store name ++ [h1; h2] ∧
  (∀ l1 l2 nr node version,
     runCustomValidators (l1 ++ l2) nr node version =
     runCustomValidators l2 (runCustomValidators l1 nr node version) node version) ∧
  (∀ l1 l2 client nr node version net,
     runHTTPValidators (l1 ++ l2) client nr node version net =
     runHTTPValidators l2 client
       (runHTTPValidators l1 client nr node version net).1 node version
       (runHTTPValidators l1 client nr node version net).2) ∧
  (ToLower other ≠ ToLower name →
   getCustomValidators (RegisterCustomValidator cv other (Some v1)) name =
     getCustomValidators cv name ∧
   getHTTPValidators (RegisterHTTPValidator store other (Some h1)) name =
     getHTTPValidators store name) ∧
  getCustomValidators ∅ name = [] ∧
  getHTTPValidators ∅ name = [].
Proof.
  split_and!.
  - unfold getCustomValidators, RegisterCustomValidator. simpl.
    rewrite !lookup_insert_eq. simpl. by rewrite <- app_assoc.
  - unfold getHTTPValidators, RegisterHTTPValidator. simpl.
    rewrite !lookup_insert_eq. simpl. by rewrite <- app_assoc.
  - apply runCustomValidators_app_list.
  - intros l1 l2 client nr node version net. rewrite runHTTPValidators_app.
    by destruct (runHTTPValidators l1 client nr node version net).
  - intros Hne. unfold getCustomValidators, RegisterCustomValidator,
      getHTTPValidators, RegisterHTTPValidator. simpl.
    by rewrite !lookup_insert_ne.
  - unfold getCustomValidators. by rewrite lookup_empty.
  - unfold getHTTPValidators. by rewrite lookup_empty.
Qed.

(** * The traversal, visit by visit *)

(** One call of [validateNodeRecursive]: the node and the three arguments
    that say how it is to be checked. *)
Record Visit := mkVisit {
  v_node : genericNode;
  v_spec : option NodeSpec;
  v_parentSpec : option NodeSpec;
  v_parentAllowsUnknown : bool
}.

(** The calls that one call of [validateNodeRecursive] amounts to, in
    pre-order: the call itself, then for each child in turn the calls of the
    recursive call made for it. *)
Fixpoint visits (cfg : config) (node : genericNode) (spec parentSpec : option NodeSpec)
    (parentAllowsUnknown : bool) {struct node} : list Visit :=
  mkVisit node spec parentSpec parentAllowsUnknown ::
  concat
    (map (λ child,
            visits cfg child (Catalog_node (catalog cfg) (localName child)) spec
              (childAllowsUnknown spec parentAllowsUnknown))
       (match node with mkNode _ _ c _ => c end)).

(** The node result is, children apart, what [validateNode] returns for the
    visit at some state of the network. *)
Definition visited (regs : Registries) (version : Version) (cfg : config)
    (v : Visit) (res : NodeResult) : Prop :=
  ∃ net,
    setChildren res [] =
    (validateNode regs (v_node v) version cfg (v_spec v) (v_parentSpec v)
       (v_parentAllowsUnknown v) net).1.

(** The spec-compliance bucket of a visit before any hook has run. *)
Definition nodeBucket (version : Version) (v : Visit) : NodeAnalysisResult :=
  if v_parentAllowsUnknown v
  then exemptBucket (localName (v_node v)) version (v_spec v)
  else checkedBucket (v_node v) version (v_spec v) (v_parentSpec v).


(** Every comparison that depends on a version is made with [version]: the
    spec-compliance bucket of the visit has failed, with the reason of the
    check, when the node's spec does not support [version], when the entry of
    the node in its parent's spec does not, and when the spec of one of its
    attributes does not; and where no hook runs the bucket passes exactly
    when the checks made with [version] find nothing. *)
Definition versionGated (version : Version) (cfg : config) (v : Visit) (res : NodeResult)
    : Prop :=
  let name := localName (v_node v) in
  ∃ iab,
    Analyses res !! IABAnalysisCategory = Some iab ∧
    (∀ s, v_spec v = Some s → NodeSpec_supports s version = false →
       Status iab = StatusFail ∧
       ("node " +:+ name +:+ " is not supported in VAST " +:+ version) ∈ Reasons iab) ∧
    (v_parentAllowsUnknown v = false →
     ∀ s p childSpec,
       v_spec v = Some s → v_parentSpec v = Some p →
       NodeSpec_child (Some p) name = Some childSpec →
       ChildSpec_supports childSpec version = false →
       Status iab = StatusFail ∧
       ("node " +:+ name +:+ " is not allowed for parent " +:+ NS_Name p +:+ " in VAST "
        +:+ version) ∈ Reasons iab) ∧
    (v_parentAllowsUnknown v = false →
     ∀ attr attrSpec,
       attr ∈ Attrs (v_node v) →
       NodeSpec_attribute (v_spec v) (Local (Attr_Name attr)) = Some attrSpec →
       AttributeSpec_supports attrSpec version = false →
       Status iab = StatusFail ∧
       ("attribute " +:+ Local (Attr_Name attr) +:+ " is not supported in VAST " +:+ version)
         ∈ Reasons iab) ∧
    (runCustom cfg = false → runHTTP cfg = false →
     (Status iab = StatusPass ↔
      if v_parentAllowsUnknown v
      then ∀ s, v_spec v = Some s → NodeSpec_supports s version = true
      else compliant (v_node v) version (v_spec v) (v_parentSpec v))).

(** The node result of an exempt visit is, children apart, what [exemptNode]
    yields. *)
Definition exemptResult (regs : Registries) (version : Version) (cfg : config)
    (v : Visit) (res : NodeResult) : Prop :=
  v_parentAllowsUnknown v = true →
  ∃ net, setChildren res [] = (exemptNode regs (v_node v) version cfg (v_spec v) net).1.

(** The parent's spec allows unknown children. *)
Definition underPermittingParent (v : Visit) : Prop :=
  ∃ p, v_parentSpec v = Some p ∧ NS_AllowUnknownChildren p = true.

(** ** Results and visits correspond *)

Lemma setChildren_own (r : NodeResult) : setChildren r (Children r) = r.
Proof. by destruct r. Qed.

Lemma validateChildren_visits (P : Visit → NodeResult → Prop)
    (f : genericNode → Net → NodeResult * Net) (g : genericNode → list Visit) cs :
  Forall (λ c, ∀ net, Forall2 P (g c) (allResults (f c net).1)) cs →
  ∀ acc net pre,
    Forall2 P pre (concat (map allResults acc)) →
    Forall2 P (pre ++ concat (map g cs))
      (concat (map allResults (validateChildren f cs acc net).1)).
Proof.
  induction 1 as [|c cs Hc _ IH]; intros acc net pre Hpre; simpl.
  - by rewrite app_nil_r.
  - specialize (Hc net). destruct (f c net) as [childResult net'].
    rewrite app_assoc. apply IH. rewrite map_app, concat_app.
    apply Forall2_app; [done|]. simpl. by rewrite app_nil_r.
Qed.

Lemma traversal_visits regs version cfg node :
  ∀ spec parentSpec pau net,
    Forall2 (visited regs version cfg) (visits cfg node spec parentSpec pau)
      (allResults (validateNodeRecursive regs node version cfg spec parentSpec pau net).1).
Proof.
  induction node as [name attrs children content IH] using genericNode_ind.
  intros spec parentSpec pau net.
  cbn [validateNodeRecursive visits].
  pose proof (validateNode_frame regs (mkNode name attrs children content) version cfg
                spec parentSpec pau net) as (_ & _ & Hc).
  assert (∀ cs,
            visited regs version cfg
              (mkVisit (mkNode name attrs children content) spec parentSpec pau)
              (setChildren
                 (validateNode regs (mkNode name attrs children content) version cfg spec
                    parentSpec pau net).1 cs)) as Hhead.
  { intros cs. exists net. cbn [v_node v_spec v_parentSpec v_parentAllowsUnknown].
    destruct (validateNode _ _ _ _ _ _ _ _).1 as [n vs an ch].
    cbn [Children] in Hc. by subst ch. }
  destruct (validateNode _ _ _ _ _ _ _ _) as [result net1]. cbn [fst] in Hc, Hhead.
  pose proof (validateChildren_visits (visited regs version cfg)
                (λ child, validateNodeRecursive regs child version cfg
                            (Catalog_node (catalog cfg) (localName child)) spec
                            (childAllowsUnknown spec pau))
                (λ child, visits cfg child (Catalog_node (catalog cfg) (localName child))
                            spec (childAllowsUnknown spec pau)) children) as Hs.
  specialize (Hs ltac:(eapply Forall_impl; [exact IH|]; intros c Hc' net'; apply Hc')
                (Children result) net1 []).
  destruct (validateChildren _ children (Children result) net1) as [cs net2] eqn:Hv.
  cbn [fst] in *. rewrite allResults_eq. cbn [Children setChildren].
  constructor; [apply Hhead|]. apply Hs. rewrite Hc. constructor.
Qed.

(** ** What a visit leaves on its node result *)

Lemma validateNode_hooks regs node version cfg spec parentSpec pau net :
  validateNode regs node version cfg spec parentSpec pau net =
  let result :=
    mkNodeResult (localName node) (match spec with Some s => NS_Versions s | None => [] end)
      {[IABAnalysisCategory := nodeBucket version (mkVisit node spec parentSpec pau)]} [] in
  let result :=
    if runCustom cfg then applyCustomValidators regs result node version else result in
  if runHTTP cfg then applyHTTPValidators regs result node version cfg net
  else (result, net).
Proof.
  destruct pau; [by rewrite validateNode_exempt|apply validateNode_checked].
Qed.

Lemma hooks_preserve (P : NodeResult → Prop) regs cfg node version net r0 :
  (∀ vs nr, P nr → P (runCustomValidators vs nr node version)) →
  (∀ vs client nr net', P nr → P (runHTTPValidators vs client nr node version net').1) →
  P r0 →
  P (if runHTTP cfg
     then applyHTTPValidators regs
            (if runCustom cfg then applyCustomValidators regs r0 node version else r0)
            node version cfg net
     else (if runCustom cfg then applyCustomValidators regs r0 node version else r0, net)).1.
Proof.
  intros Hc Hh H0.
  assert (P (if runCustom cfg then applyCustomValidators regs r0 node version else r0)) as H1.
  { destruct (runCustom cfg); [apply Hc, H0|exact H0]. }
  destruct (runHTTP cfg); [|exact H1].
  unfold applyHTTPValidators. destruct (getHTTPValidators _ _); [exact H1|].
  by apply Hh.
Qed.

Lemma validateNode_bucket regs node version cfg spec parentSpec pau net :
  ∃ iab,
    Analyses (validateNode regs node version cfg spec parentSpec pau net).1
      !! IABAnalysisCategory = Some iab ∧
    Reasons (nodeBucket version (mkVisit node spec parentSpec pau)) `prefix_of` Reasons iab ∧
    (Status (nodeBucket version (mkVisit node spec parentSpec pau)) = StatusFail →
     Status iab = StatusFail) ∧
    (runCustom cfg = false → runHTTP cfg = false →
     iab = nodeBucket version (mkVisit node spec parentSpec pau)).
Proof.
  rewrite validateNode_hooks. cbv zeta.
  set (B := nodeBucket version (mkVisit node spec parentSpec pau)).
  set (r0 := mkNodeResult _ _ _ _).
  assert (Analyses r0 !! IABAnalysisCategory = Some B) as H0 by apply lookup_singleton_eq.
  pose proof (hooks_preserve (reasonsStart IABAnalysisCategory (Reasons B)) regs cfg node
                version net r0
                ltac:(intros; by apply runCustomValidators_reasonsStart)
                ltac:(intros; by apply runHTTPValidators_reasonsStart)
                ltac:(by exists B)) as (iab & Hl & Hp).
  exists iab. split; [exact Hl|]. split; [exact Hp|]. split.
  - intros Hs.
    pose proof (hooks_preserve (failedAt IABAnalysisCategory) regs cfg node
                  version net r0
                  ltac:(intros; by apply runCustomValidators_failedAt)
                  ltac:(intros; by apply runHTTPValidators_failedAt)
                  ltac:(by exists B)) as (a & Ha & Hf).
    congruence.
  - intros Hc Hh. rewrite Hc, Hh in Hl. cbn [fst] in Hl. congruence.
Qed.






Lemma exemptBucket_fails name version spec :
  Status (exemptBucket name version spec) = StatusFail ↔
  ∃ s, spec = Some s ∧ NodeSpec_supports s version = false.
Proof.
  unfold exemptBucket. destruct spec as [s|].
  - destruct (NodeSpec_supports s version) eqn:Hs.
    + split; [done|]. intros (s' & [= <-] & ?). congruence.
    + rewrite markFailure_status. split; [|done]. intros _. by exists s.
  - split; [done|]. by intros (? & [=] & _).
Qed.

Lemma nodeBucket_unsupported version node spec parentSpec pau s :
  spec = Some s → NodeSpec_supports s version = false →
  Status (nodeBucket version (mkVisit node spec parentSpec pau)) = StatusFail.
Proof.
  intros -> Hs. unfold nodeBucket. cbn [v_parentAllowsUnknown v_node v_spec v_parentSpec].
  destruct pau.
  - apply exemptBucket_fails. by exists s.
  - apply checkedBucket_fails. intros (s' & [= <-] & Hsup & _). congruence.
Qed.


(** ** Comparisons with the version *)

Lemma markFailure_reason a msg : msg ≠ "" → msg ∈ Reasons (markFailure a [msg]).
Proof.
  intros Hne. unfold markFailure. cbn [Reasons]. rewrite appendReasons_one by done.
  apply elem_of_app. right. by left.
Qed.

Lemma elem_of_prefix {A} (x : A) (l1 l2 : list A) :
  l1 `prefix_of` l2 → x ∈ l1 → x ∈ l2.
Proof. intros [k ->] Hin. apply elem_of_app. by left. Qed.

Lemma structuralChecks_node_version name version s parentSpec pau a :
  NodeSpec_supports s version = false →
  Status (structuralChecks name version (Some s) parentSpec pau a) = StatusFail ∧
  ("node " +:+ name +:+ " is not supported in VAST " +:+ version)
    ∈ Reasons (structuralChecks name version (Some s) parentSpec pau a).
Proof.
  intros Hs. unfold structuralChecks. rewrite Hs. cbn [negb].
  set (msg := "node " +:+ name +:+ " is not supported in VAST " +:+ version).
  assert (Status (markFailure a [msg]) = StatusFail ∧ msg ∈ Reasons (markFailure a [msg]))
    as [H1 H2].
  { split; [apply markFailure_status|by apply markFailure_reason]. }
  destruct parentSpec as [p|]; [|done]. destruct (negb pau); [|done].
  destruct (NodeSpec_child (Some p) name) as [childSpec|].
  - destruct (negb (ChildSpec_supports childSpec version)); [|done].
    split; [apply markFailure_status|].
    eapply elem_of_prefix; [apply markFailure_reasons_prefix|done].
  - split; [apply markFailure_status|].
    eapply elem_of_prefix; [apply markFailure_reasons_prefix|done].
Qed.

Lemma structuralChecks_child_version name version s p childSpec a :
  NodeSpec_child (Some p) name = Some childSpec →
  ChildSpec_supports childSpec version = false →
  Status (structuralChecks name version (Some s) (Some p) false a) = StatusFail ∧
  ("node " +:+ name +:+ " is not allowed for parent " +:+ NS_Name p +:+ " in VAST "
   +:+ version) ∈ Reasons (structuralChecks name version (Some s) (Some p) false a).
Proof.
  intros Hc Hs. unfold structuralChecks. cbn [negb]. rewrite Hc, Hs. cbn [negb].
  split; [apply markFailure_status|by apply markFailure_reason].
Qed.

Lemma validateAttribute_version version spec a attr attrSpec :
  NodeSpec_attribute spec (Local (Attr_Name attr)) = Some attrSpec →
  AttributeSpec_supports attrSpec version = false →
  Status (validateAttribute version spec a attr) = StatusFail ∧
  ("attribute " +:+ Local (Attr_Name attr) +:+ " is not supported in VAST " +:+ version)
    ∈ Reasons (validateAttribute version spec a attr).
Proof.
  intros Ha Hs. unfold validateAttribute.
  destruct spec as [s|]; [|done]. cbv zeta. rewrite Ha, Hs. cbn [negb].
  destruct (bool_decide _ && negb _); cbv beta iota zeta;
    change (Reasons (addAttribute ?x ?r)) with (Reasons x);
    rewrite addAttribute_status.
  - split; [apply markFailure_status|].
    eapply elem_of_prefix; [apply markFailure_reasons_prefix|].
    by apply markFailure_reason.
  - split; [apply markFailure_status|by apply markFailure_reason].
Qed.

Lemma validatePresent_reasons_prefix version spec attrs seen a :
  Reasons a `prefix_of` Reasons (validatePresent version spec attrs seen a).2.
Proof.
  revert seen a. induction attrs as [|attr attrs IH]; intros seen a; simpl; [done|].
  etrans; [apply validateAttribute_reasons_prefix|apply IH].
Qed.

Lemma validateRequired_reasons_prefix attrSpecs seen a :
  Reasons a `prefix_of` Reasons (validateRequired attrSpecs seen a).
Proof.
  revert a. induction attrSpecs as [|attrSpec rest IH]; intros a; simpl; [done|].
  destruct (negb (AS_Required attrSpec)); [apply IH|].
  destruct (decide (AS_Name attrSpec ∈ seen)); [apply IH|].
  etrans; [|apply IH]. apply (markFailure_reasons_prefix (addAttribute a _)).
Qed.

Lemma validatePresent_version version spec attrs seen a attr attrSpec :
  attr ∈ attrs →
  NodeSpec_attribute spec (Local (Attr_Name attr)) = Some attrSpec →
  AttributeSpec_supports attrSpec version = false →
  Status (validatePresent version spec attrs seen a).2 = StatusFail ∧
  ("attribute " +:+ Local (Attr_Name attr) +:+ " is not supported in VAST " +:+ version)
    ∈ Reasons (validatePresent version spec attrs seen a).2.
Proof.
  intros Hin Ha Hs. revert seen a Hin.
  induction attrs as [|attr' attrs IH]; intros seen a Hin.
  - by apply elem_of_nil in Hin.
  - apply elem_of_cons in Hin as [<-|Hin]; simpl.
    + destruct (validateAttribute_version version spec a attr attrSpec Ha Hs) as [H1 H2].
      split; [by apply validatePresent_keeps_fail|].
      eapply elem_of_prefix; [apply validatePresent_reasons_prefix|done].
    + by apply IH.
Qed.

Lemma validateAttributes_version node version spec a attr attrSpec :
  attr ∈ Attrs node →
  NodeSpec_attribute spec (Local (Attr_Name attr)) = Some attrSpec →
  AttributeSpec_supports attrSpec version = false →
  Status (validateAttributes node version spec a) = StatusFail ∧
  ("attribute " +:+ Local (Attr_Name attr) +:+ " is not supported in VAST " +:+ version)
    ∈ Reasons (validateAttributes node version spec a).
Proof.
  intros Hin Ha Hs. unfold validateAttributes.
  destruct (validatePresent_version version spec (Attrs node) ∅ a attr attrSpec Hin Ha Hs)
    as [H1 H2].
  destruct (validatePresent version spec (Attrs node) ∅ a) as [seen a']. cbn [snd] in H1, H2.
  destruct spec as [s|]; [|done].
  split; [by apply validateRequired_keeps_fail|].
  eapply elem_of_prefix; [apply validateRequired_reasons_prefix|done].
Qed.

Lemma gated_of_bucket version cfg v res iab :
  Analyses res !! IABAnalysisCategory = Some iab →
  Reasons (nodeBucket version v) `prefix_of` Reasons iab →
  (Status (nodeBucket version v) = StatusFail → Status iab = StatusFail) →
  (runCustom cfg = false → runHTTP cfg = false →
   (Status iab = StatusPass ↔ Status (nodeBucket version v) = StatusPass)) →
  versionGated version cfg v res.
Proof.
  destruct v as [node spec parentSpec pau]. intros Hl Hp Hf Hq.
  exists iab. cbn [v_node v_spec v_parentSpec v_parentAllowsUnknown].
  split; [exact Hl|]. split; [|split; [|split]].
  - intros s -> Hs.
    split; [by eapply Hf, nodeBucket_unsupported|].
    eapply elem_of_prefix; [exact Hp|].
    unfold nodeBucket. cbn [v_node v_spec v_parentSpec v_parentAllowsUnknown].
    destruct pau.
    + unfold exemptBucket. rewrite Hs. by apply markFailure_reason.
    + unfold checkedBucket.
      eapply elem_of_prefix; [apply validateAttributes_reasons_prefix|].
      by apply structuralChecks_node_version.
  - intros -> s p childSpec -> -> Hc Hs.
    unfold nodeBucket in Hp, Hf. cbn [v_node v_spec v_parentSpec v_parentAllowsUnknown] in Hp, Hf.
    unfold checkedBucket in Hp, Hf.
    destruct (structuralChecks_child_version (localName node) version s p childSpec
                (mkAnalysis IABAnalysisCategory StatusPass [] []) Hc Hs) as [H1 H2].
    split.
    + by apply Hf, validateAttributes_keeps_fail.
    + eapply elem_of_prefix; [exact Hp|].
      eapply elem_of_prefix; [apply validateAttributes_reasons_prefix|done].
  - intros -> attr attrSpec Hin Ha Hs.
    unfold nodeBucket in Hp, Hf. cbn [v_node v_spec v_parentSpec v_parentAllowsUnknown] in Hp, Hf.
    unfold checkedBucket in Hp, Hf.
    destruct (validateAttributes_version node version spec
                (structuralChecks (localName node) version spec parentSpec false
                   (mkAnalysis IABAnalysisCategory StatusPass [] []))
                attr attrSpec Hin Ha Hs) as [H1 H2].
    split; [by apply Hf|]. eapply elem_of_prefix; [exact Hp|done].
  - intros Hc Hh. rewrite (Hq Hc Hh).
    unfold nodeBucket. cbn [v_node v_spec v_parentSpec v_parentAllowsUnknown].
    destruct pau.
    + unfold exemptBucket. destruct spec as [s|].
      * destruct (NodeSpec_supports s version) eqn:Hs.
        -- split; [|done]. by intros _ s' [= <-].
        -- rewrite markFailure_status. split; [done|].
           intros Hall. specialize (Hall s eq_refl). congruence.
      * split; [|done]. by intros _ s' [=].
    + by destruct (checkedBucket_verdict node version spec parentSpec) as [_ Hv].
Qed.

Lemma visited_bucket regs version cfg v res :
  visited regs version cfg v res →
  ∃ iab,
    Analyses res !! IABAnalysisCategory = Some iab ∧
    Reasons (nodeBucket version v) `prefix_of` Reasons iab ∧
    (Status (nodeBucket version v) = StatusFail → Status iab = StatusFail) ∧
    (runCustom cfg = false → runHTTP cfg = false → iab = nodeBucket version v).
Proof.
  destruct v as [node spec parentSpec pau]. intros [net Hres].
  cbn [v_node v_spec v_parentSpec v_parentAllowsUnknown] in Hres.
  assert (Analyses res =
          Analyses (validateNode regs node version cfg spec parentSpec pau net).1)
    as HA by (by rewrite <- Hres).
  rewrite HA. apply validateNode_bucket.
Qed.

Lemma visited_versionGated regs version cfg v res :
  visited regs version cfg v res → versionGated version cfg v res.
Proof.
  intros Hv. destruct (visited_bucket regs version cfg v res Hv) as (iab & Hl & Hp & Hf & He).
  apply (gated_of_bucket version cfg v res iab); [done..|].
  intros Hc Hh. by rewrite (He Hc Hh).
Qed.

(** ** The root of the result *)

Lemma visits_eq cfg node spec parentSpec pau :
  visits cfg node spec parentSpec pau =
  mkVisit node spec parentSpec pau ::
  concat
    (map (λ child,
            visits cfg child (Catalog_node (catalog cfg) (localName child)) spec
              (childAllowsUnknown spec pau))
       (gn_Children node)).
Proof. by destruct node. Qed.

Lemma allResults_root (P : Visit → NodeResult → Prop) v vs root root' :
  Children root' = Children root →
  P v root' →
  Forall2 P (v :: vs) (allResults root) →
  Forall2 P (v :: vs) (allResults root').
Proof.
  intros Hc Hp. rewrite !allResults_eq, Hc. intros H.
  apply Forall2_cons in H as [_ H]. by apply Forall2_cons.
Qed.

(** What [Validate] does to the root result for a version that the VAST
    entry does not list. *)
Definition markUnsupported (version : Version) (rootResult : NodeResult) : NodeResult :=
  onAnalysis IABAnalysisCategory
    (λ iab, markFailure iab [ErrUnsupportedVersion +:+ ": " +:+ version])
    (addAnalysis rootResult IABAnalysisCategory).

Lemma markUnsupported_lookup version r iab :
  Analyses r !! IABAnalysisCategory = Some iab →
  Analyses (markUnsupported version r) !! IABAnalysisCategory =
    Some (markFailure iab [ErrUnsupportedVersion +:+ ": " +:+ version]).
Proof.
  intros Hl. unfold markUnsupported, onAnalysis, addAnalysis. rewrite Hl. simpl.
  by rewrite lookup_alter_eq, Hl.
Qed.

Lemma markUnsupported_frame version r :
  Node (markUnsupported version r) = Node r ∧
  Children (markUnsupported version r) = Children r.
Proof.
  unfold markUnsupported, onAnalysis, addAnalysis.
  by destruct (Analyses r !! IABAnalysisCategory).
Qed.



(** ** Exempt subtrees, over the whole traversal *)

Lemma visits_inherited cfg node :
  ∀ spec parentSpec,
    Forall (λ v, v_parentAllowsUnknown v = true) (visits cfg node spec parentSpec true).
Proof.
  induction node as [name attrs children content IH] using genericNode_ind.
  intros spec parentSpec. rewrite visits_eq. constructor; [done|].
  rewrite childAllowsUnknown_inherited. cbn [gn_Children].
  induction IH as [|c cs Hc _ IHcs]; simpl; [constructor|].
  apply Forall_app. split; [apply Hc|apply IHcs].
Qed.

Lemma visits_granted cfg node :
  ∀ spec parentSpec pau,
    Forall (λ v, underPermittingParent v → v_parentAllowsUnknown v = true)
      (tail (visits cfg node spec parentSpec pau)).
Proof.
  induction node as [name attrs children content IH] using genericNode_ind.
  intros spec parentSpec pau. rewrite visits_eq. cbn [tail gn_Children].
  induction IH as [|c cs Hc _ IHcs]; simpl; [constructor|].
  apply Forall_app. split; [|apply IHcs].
  specialize (Hc (Catalog_node (catalog cfg) (localName c)) spec
                (childAllowsUnknown spec pau)).
  rewrite visits_eq in Hc |- *. cbn [tail] in Hc. constructor; [|exact Hc].
  intros (p & Hp & Ha). cbn [v_parentSpec v_parentAllowsUnknown] in *.
  subst spec. simpl. by rewrite Ha.
Qed.

(** C2, as amended. A node visited under a parent that allows unknown
    children, or under any descendant of such a parent, is traversed as an
    exempt node, and so are all its descendants: whatever the parent's spec
    is, the node gets no unrecognized-node failure, no child-relationship
    check and no attribute check, and its spec-compliance bucket carries no
    attribute results. The version check of the node itself is not part of
    the exemption: the bucket has failed exactly when the node's name has a
    spec that does not support the document's version, with that one reason.
    The permission is granted by a spec that allows unknown children and is
    inherited from then on, in the traversal itself: in the traversal of any
    node, exempt or not, every visit made under a parent whose spec allows
    unknown children is exempt, every visit below a node whose spec allows
    them is, every visit of an exempt traversal is, and the node result of
    every exempt visit is, children apart, the exempt result of its node. *)
Theorem exempt_subtree_checks (regs : Registries) (node : genericNode) (version : Version)
    (cfg : config) (spec parentSpec : option NodeSpec) (net : Net) :
  validateNodeRecursive regs node version cfg spec parentSpec true net =
    exemptWalk regs node version cfg spec net ∧
  (∀ s inherited, NS_AllowUnknownChildren s = true →
     childAllowsUnknown (Some s) inherited = true) ∧
  (∀ childSpec, childAllowsUnknown childSpec true = true) ∧
  Attributes (exemptBucket (localName node) version spec) = [] ∧
  (Status (exemptBucket (localName node) version spec) = StatusFail ↔
   ∃ s, spec = Some s ∧ NodeSpec_supports s version = false) ∧
  (Status (exemptBucket (localName node) version spec) ≠ StatusFail →
   exemptBucket (localName node) version spec =
     mkAnalysis IABAnalysisCategory StatusPass [] []) ∧
  (∀ parentAllowsUnknown,
     Forall2 (exemptResult regs version cfg)
       (visits cfg node spec parentSpec parentAllowsUnknown)
       (allResults
          (validateNodeRecursive regs node version cfg spec parentSpec parentAllowsUnknown
             net).1)) ∧
  (∀ parentAllowsUnknown,
     Forall (λ v, underPermittingParent v → v_parentAllowsUnknown v = true)
       (tail (visits cfg node spec parentSpec parentAllowsUnknown))) ∧
  (∀ parentAllowsUnknown s,
     spec = Some s → NS_AllowUnknownChildren s = true →
     Forall (λ v, v_parentAllowsUnknown v = true)
       (tail (visits cfg node spec parentSpec parentAllowsUnknown))) ∧
  Forall (λ v, v_parentAllowsUnknown v = true) (visits cfg node spec parentSpec true).
Proof.
  split; [apply validateNodeRecursive_exempt|].
  split; [by intros s inherited; simpl; intros ->|].
  split; [apply childAllowsUnknown_inherited|].
  split; [|split; [|split; [|split; [|split; [|split]]]]].
  - unfold exemptBucket. destruct spec as [s|]; [|done].
    by destruct (NodeSpec_supports s version).
  - apply exemptBucket_fails.
  - unfold exemptBucket. destruct spec as [s|]; [|done].
    destruct (NodeSpec_supports s version); [done|].
    rewrite markFailure_status. done.
  - intros pau.
    eapply Forall2_impl; [apply traversal_visits|].
    intros [n sp psp ex] res [net' Hres] Hex.
    cbn [v_node v_spec v_parentSpec v_parentAllowsUnknown] in *. subst ex.
    exists net'. by rewrite Hres, validateNode_exempt.
  - intros pau. apply visits_granted.
  - intros pau s -> Ha. rewrite visits_eq. cbn [tail].
    simpl childAllowsUnknown. rewrite Ha.
    induction (gn_Children node) as [|c cs IH]; simpl; [constructor|].
    apply Forall_app. split; [apply visits_inherited|apply IH].
  - apply visits_inherited.
Qed.

(** ** The entry point *)


(** C3. For a well-formed document whose root is VAST and carries a
    version that is not blank, under a catalog whose VAST entry does not
    list the trimmed version: [Validate] returns a result and no error; the
    result records the trimmed version, and its tree is the traversal of the
    root made with that version, after which the spec-compliance bucket of
    the root is marked failed with the unsupported-version reason as its last
    reason. Every comparison that depends on a version is made with the
    trimmed version, at every visit of the traversal: the node result of the
    visit has failed, with the reason that names the version, wherever the
    spec of the node, the entry of the node in its parent's spec or the spec
    of one of its attributes does not list the trimmed version, and where no
    hook runs it passes exactly when the checks made with the trimmed version
    find nothing. *)
Theorem unsupported_version_is_recorded (regs : Registries) (raw : string)
    (opts : list Option) (net : Net) (root : genericNode) (versionValue : string)
    (rootSpec : NodeSpec) :
  raw ≠ "" →
  buildNodeTree raw = inl root →
  localName root = "VAST" →
  attrValue root "version" = Some versionValue →
  TrimSpace versionValue ≠ "" →
  Catalog_node (catalog (applyOptions defaultConfig opts)) "VAST" = Some rootSpec →
  TrimSpace versionValue ∉ NS_Versions rootSpec →
  ∃ result iab,
    Validate regs raw opts net =
      (inl result,
       (validateNodeRecursive regs root (TrimSpace versionValue)
          (applyOptions defaultConfig opts) (Some rootSpec) None false net).2) ∧
    VR_Version result = TrimSpace versionValue ∧
    VR_Root result =
      onAnalysis IABAnalysisCategory
        (λ iab, markFailure iab [ErrUnsupportedVersion +:+ ": " +:+ TrimSpace versionValue])
        (addAnalysis
           (validateNodeRecursive regs root (TrimSpace versionValue)
              (applyOptions defaultConfig opts) (Some rootSpec) None false net).1
           IABAnalysisCategory) ∧
    Analyses (VR_Root result) !! IABAnalysisCategory = Some iab ∧
    Status iab = StatusFail ∧
    last (Reasons iab) = Some ("Unsupported VAST version: " +:+ TrimSpace versionValue) ∧
    Forall2 (versionGated (TrimSpace versionValue) (applyOptions defaultConfig opts))
      (visits (applyOptions defaultConfig opts) root (Some rootSpec) None false)
      (allResults (VR_Root result)).
Proof.
  intros Hraw Hroot Hname Hv Ht Hc Hnot.
  assert (NodeSpec_supports rootSpec (TrimSpace versionValue) = false) as Hs.
  { unfold NodeSpec_supports. destruct (versions_contain _ _) eqn:E; [|done].
    by apply versions_contain_elem in E. }
  pose proof (traversal_visits regs (TrimSpace versionValue)
                (applyOptions defaultConfig opts) root (Some rootSpec) None false net)
    as Hvis.
  unfold Validate.
  destruct (decide (raw = "")); [done|]. rewrite Hroot.
  destruct (decide (localName root ≠ "VAST")); [done|]. rewrite Hv.
  destruct (decide (TrimSpace versionValue = "")); [done|]. rewrite Hc, Hs.
  destruct (validateNodeRecursive _ _ _ _ _ _ _ _) as [rootResult net1].
  cbn [fst snd negb] in *.
  rewrite visits_eq in Hvis. rewrite allResults_eq in Hvis.
  apply Forall2_cons in Hvis as [Hhead Hrest].
  destruct (visited_bucket _ _ _ _ _ Hhead) as (b & Hb & Hp & Hf & _).
  pose proof (markUnsupported_lookup (TrimSpace versionValue) rootResult b Hb) as Hm.
  eexists _, _. split; [done|]. split; [done|]. split; [done|].
  cbn [VR_Root].
  change (onAnalysis _ _ _) with (markUnsupported (TrimSpace versionValue) rootResult).
  split; [exact Hm|]. split; [apply markFailure_status|]. split.
  { unfold markFailure. cbn [Reasons].
    rewrite appendReasons_one by done. apply last_snoc. }
  rewrite visits_eq.
  apply (allResults_root _ _ _ rootResult); [apply markUnsupported_frame| |].
  - apply (gated_of_bucket _ _ _ _ _ Hm).
    + etrans; [exact Hp|]. apply markFailure_reasons_prefix.
    + intros _. apply markFailure_status.
    + intros _ _. rewrite markFailure_status.
      rewrite (nodeBucket_unsupported _ root (Some rootSpec) None false rootSpec eq_refl Hs).
      done.
  - rewrite allResults_eq. apply Forall2_cons. split.
    + by apply visited_versionGated in Hhead.
    + eapply Forall2_impl; [exact Hrest|]. intros v res. apply visited_versionGated.
Qed.

End Network.

End Library.

(** * Category summaries *)

Module SummaryFacts.

Import Summary.

(** Induction on a result tree, with the hypothesis for every child that is
    not [nil]. *)
Fixpoint NodeResult_ind (P : NodeResult → Prop)
    (step : ∀ node versions analyses children,
        Forall (λ o, match o with Some n => P n | None => True end) children →
        P (mkNodeResult node versions analyses children))
    (n : NodeResult) {struct n} : P n :=
  match n with
  | mkNodeResult node versions analyses children =>
      step node versions analyses children
        ((fix all (cs : list (option NodeResult))
            : Forall (λ o, match o with Some n => P n | None => True end) cs :=
            match cs with
            | [] => @List.Forall_nil _ _
            | None :: rest => @List.Forall_cons _ _ None rest I (all rest)
            | Some c :: rest =>
                @List.Forall_cons _ _ (Some c) rest (NodeResult_ind P step c) (all rest)
            end) children)
  end.

(** What one contributing bucket does to the summary of its category. *)
Definition account (category : string) (analysis : NodeAnalysisResult)
    (before : option CategorySummary) : CategorySummary :=
  let summary :=
    match before with
    | Some s => s
    | None => mkSummary category 0 0 StatusPass []
    end in
  let summary :=
    mkSummary (Sum_Category summary) (int_incr (TotalNodes summary))
      (FailingNodes summary) (Sum_Status summary) (Sum_Reasons summary) in
  if decide (Status analysis = StatusFail) then
    mkSummary (Sum_Category summary) (TotalNodes summary)
      (int_incr (FailingNodes summary)) StatusFail
      (if bool_decide (Reason analysis ≠ "") && (length (Sum_Reasons summary) <? 5)%nat
       then Sum_Reasons summary ++ [Reason analysis]
       else Sum_Reasons summary)
  else summary.

Definition accountAll (category : string) (before : option CategorySummary)
    (contribs : list NodeAnalysisResult) : option CategorySummary :=
  foldl (λ o analysis, Some (account category analysis o)) before contribs.

(** The summary of a category in closed form. *)
Definition summaryOf (category : string) (contribs : list NodeAnalysisResult)
    : CategorySummary :=
  mkSummary category
    (int_wrap (Z.of_nat (length contribs)))
    (int_wrap (Z.of_nat (length (filter failing contribs))))
    (if decide (Exists failing contribs) then StatusFail else StatusPass)
    (take 5 (failureReasons contribs)).

Lemma touch_lookup category analysis summaries c :
  touch category analysis summaries !! c =
  if decide (category = c) then Some (account category analysis (summaries !! category))
  else summaries !! c.
Proof.
  unfold touch, account.
  destruct (decide (category = c)) as [->|Hne].
  - rewrite lookup_insert_eq. by destruct (summaries !! c).
  - by rewrite lookup_insert_ne.
Qed.

Lemma fold_touch_lookup (analyses : gmap string NodeAnalysisResult) summaries c :
  map_fold touch summaries analyses !! c =
  match analyses !! c with
  | Some analysis => Some (account c analysis (summaries !! c))
  | None => summaries !! c
  end.
Proof.
  revert c.
  apply (map_fold_weak_ind
           (λ r (m : gmap string NodeAnalysisResult),
              ∀ c, r !! c = match m !! c with
                            | Some analysis => Some (account c analysis (summaries !! c))
                            | None => summaries !! c
                            end)).
  - intros c. by rewrite lookup_empty.
  - intros i x m r Hi IH c. rewrite touch_lookup.
    destruct (decide (i = c)) as [->|Hne].
    + rewrite lookup_insert_eq, IH, Hi. done.
    + rewrite lookup_insert_ne by done. apply IH.
Qed.

Lemma accountAll_app category before l1 l2 :
  accountAll category before (l1 ++ l2) =
  accountAll category (accountAll category before l1) l2.
Proof. apply foldl_app. Qed.

Lemma walk_lookup (root : NodeResult) :
  ∀ summaries c,
    walk root summaries !! c = accountAll c (summaries !! c) (contributions c root).
Proof.
  induction root as [node versions analyses children IH] using NodeResult_ind.
  intros summaries c. unfold contributions. simpl.
  set (after := map_fold touch summaries analyses).
  set (loop := fix children0 (cs : list (option NodeResult))
                 (summaries0 : gmap string CategorySummary) {struct cs} :=
                 match cs with
                 | [] => summaries0
                 | Some child :: rest => children0 rest (walk child summaries0)
                 | None :: rest => children0 rest summaries0
                 end).
  set (below := fix children0 (cs : list (option NodeResult)) : list NodeResult :=
                  match cs with
                  | [] => []
                  | Some child :: rest => preorder child ++ children0 rest
                  | None :: rest => children0 rest
                  end).
  assert (∀ start, loop children start !! c =
                   accountAll c (start !! c)
                     (omap (λ n, Analyses n !! c) (below children))) as Hloop.
  { induction IH as [|child rest Hchild _ IHrest]; intros start; [done|].
    destruct child as [child|]; simpl; [|apply IHrest].
    rewrite omap_app, accountAll_app, <- Hchild. apply IHrest. }
  rewrite Hloop. unfold after. rewrite fold_touch_lookup.
  by destruct (analyses !! c).
Qed.

Lemma int_incr_wrap z : int_incr (int_wrap z) = int_wrap (z + 1).
Proof.
  unfold int_incr, int_wrap. f_equal.
  replace ((z + 2 ^ 63) mod 2 ^ 64 - 2 ^ 63 + 1 + 2 ^ 63)
    with ((z + 2 ^ 63) mod 2 ^ 64 + 1) by lia.
  rewrite Zplus_mod_idemp_l. f_equal. lia.
Qed.

Lemma int_wrap_small z : 0 ≤ z < 2 ^ 63 → int_wrap z = z.
Proof. intros Hz. unfold int_wrap. rewrite Z.mod_small; lia. Qed.

Lemma take_snoc_cap {A} (n : nat) (l : list A) (x : A) :
  take n (l ++ [x]) =
  if (length (take n l) <? n)%nat then take n l ++ [x] else take n l.
Proof.
  rewrite length_take.
  destruct (decide (length l < n)%nat) as [Hlt|Hge].
  - replace (n `min` length l)%nat with (length l) by lia.
    destruct (Nat.ltb_spec (length l) n); [|lia].
    rewrite (take_ge l) by lia. apply take_ge. rewrite length_app. simpl. lia.
  - replace (n `min` length l)%nat with n by lia.
    rewrite Nat.ltb_irrefl. apply take_app_le. lia.
Qed.

Lemma failureReasons_snoc contribs analysis :
  failureReasons (contribs ++ [analysis]) =
  failureReasons contribs ++
    (if bool_decide (failing analysis) && bool_decide (Reason analysis ≠ "")
     then [Reason analysis] else []).
Proof.
  unfold failureReasons. rewrite filter_app, fmap_app, filter_app. f_equal.
  rewrite filter_cons, filter_nil.
  destruct (decide (failing analysis)) as [Hf|Hf].
  - rewrite bool_decide_true by done. simpl. rewrite filter_cons, filter_nil.
    destruct (decide (Reason analysis ≠ "")) as [Hr|Hr].
    + by rewrite bool_decide_true.
    + by rewrite bool_decide_false.
  - by rewrite bool_decide_false.
Qed.

Lemma account_summaryOf category contribs analysis :
  account category analysis (Some (summaryOf category contribs)) =
  summaryOf category (contribs ++ [analysis]).
Proof.
  unfold account, summaryOf. cbn [Sum_Category TotalNodes FailingNodes
                                  Sum_Status Sum_Reasons].
  rewrite length_app, filter_app, length_app, failureReasons_snoc.
  rewrite filter_cons, filter_nil. cbn [length].
  replace (Z.of_nat (length contribs + 1)) with (Z.of_nat (length contribs) + 1) by lia.
  rewrite !int_incr_wrap.
  fold (failing analysis).
  destruct (decide (failing analysis)) as [Hf|Hf].
  - rewrite (bool_decide_eq_true_2 (failing analysis) Hf). cbn [length andb].
    replace (Z.of_nat (length (filter failing contribs) + 1))
      with (Z.of_nat (length (filter failing contribs)) + 1) by lia.
    rewrite (decide_True (P := Exists failing (contribs ++ [analysis]))).
    2: { apply Exists_app. right. by constructor. }
    f_equal.
    destruct (bool_decide (Reason analysis ≠ "")); cbn [andb].
    + by rewrite take_snoc_cap.
    + by rewrite app_nil_r.
  - rewrite (bool_decide_eq_false_2 (failing analysis) Hf). cbn [length andb].
    rewrite Nat.add_0_r, app_nil_r.
    f_equal.
    destruct (decide (Exists failing contribs)) as [He|He].
    + rewrite decide_True; [done|]. apply Exists_app. by left.
    + rewrite decide_False; [done|]. intros [?|H]%Exists_app; [done|].
      by apply Exists_cons in H as [?|?%Exists_nil].
Qed.

Lemma account_first category analysis :
  account category analysis None = summaryOf category [analysis].
Proof.
  unfold account, summaryOf, failureReasons. simpl.
  rewrite filter_cons, filter_nil. fold (failing analysis).
  destruct (decide (failing analysis)) as [Hf|Hf]; simpl.
  - rewrite decide_True by (by constructor). f_equal.
    rewrite filter_cons, filter_nil.
    destruct (decide (Reason analysis ≠ "")) as [Hr|Hr].
    + by rewrite bool_decide_true.
    + by rewrite bool_decide_false.
  - rewrite decide_False; [done|]. by intros [?|?%Exists_nil]%Exists_cons.
Qed.

Lemma accountAll_closed category contribs :
  accountAll category None contribs =
  match contribs with
  | [] => None
  | _ => Some (summaryOf category contribs)
  end.
Proof.
  induction contribs as [|analysis contribs IH] using rev_ind; [done|].
  rewrite accountAll_app, IH. simpl.
  destruct contribs as [|first rest]; simpl.
  - by rewrite account_first.
  - rewrite account_summaryOf. done.
Qed.

(** C9. For a completed result tree and a category, with fewer than 2^63
    buckets of that category in the tree: when some node contributes to the
    category, the summaries hold an entry for it, named for the category,
    whose total is the number of contributing nodes, whose failing count is
    the number of contributing nodes that failed, whose status is fail
    exactly when at least one contributing node failed (and pass otherwise),
    and whose reasons are the first five, in a pre-order walk of the tree, of
    the reasons of the failed contributing nodes (a failed node without a
    reason has none to retain), hence at most five. A category to which no
    node contributes has no entry, and a [nil] root has no summaries. *)
Theorem category_summaries (root : NodeResult) (c : string) :
  Z.of_nat (length (contributions c root)) < 2 ^ 63 →
  (contributions c root ≠ [] →
   ∃ summaries summary,
     summarizeCategories (Some root) = Some summaries ∧
     summaries !! c = Some summary ∧
     Sum_Category summary = c ∧
     TotalNodes summary = Z.of_nat (length (contributions c root)) ∧
     FailingNodes summary = Z.of_nat (length (filter failing (contributions c root))) ∧
     (Sum_Status summary = StatusFail ↔ Exists failing (contributions c root)) ∧
     (¬ Exists failing (contributions c root) → Sum_Status summary = StatusPass) ∧
     Sum_Reasons summary = take 5 (failureReasons (contributions c root)) ∧
     (length (Sum_Reasons summary) ≤ 5)%nat) ∧
  (contributions c root = [] →
   ∀ summaries, summarizeCategories (Some root) = Some summaries → summaries !! c = None) ∧
  summarizeCategories None = None.
Proof.
  intros Hbound.
  pose proof (walk_lookup root ∅ c) as Hw.
  rewrite lookup_empty, accountAll_closed in Hw.
  split; [|split; [|done]].
  - intros Hne. destruct (contributions c root) as [|first rest] eqn:Hc; [done|].
    rewrite <- Hc in *. clear Hne.
    exists (walk root ∅), (summaryOf c (contributions c root)).
    split.
    { unfold summarizeCategories. destruct (decide (size (walk root ∅) = 0%nat)) as [Hs|]; [|done].
      apply map_size_empty_inv in Hs. rewrite Hs, lookup_empty in Hw. done. }
    split; [done|]. unfold summaryOf. simpl.
    pose proof (length_filter failing (contributions c root)) as Hle.
    rewrite !int_wrap_small by lia.
    repeat split; try done.
    + by destruct (decide (Exists failing (contributions c root))).
    + intros He. by rewrite decide_True.
    + intros Hn. by rewrite decide_False.
    + rewrite length_take. lia.
  - intros Hnil summaries Hs. rewrite Hnil in Hw.
    unfold summarizeCategories in Hs.
    destruct (decide (size (walk root ∅) = 0%nat)); [done|]. by injection Hs as <-.
Qed.

End SummaryFacts.

(** * Concrete runs

    Instances of the library parameters for ASCII input, a fragment of the
    catalog of [catalog.go], and the documents, servers and result trees on
    which the theorems above are run. *)

Definition isSpace (c : ascii) : bool :=
  bool_decide (c ∈ [" "%char; "009"%char; "010"%char; "011"%char; "012"%char; "013"%char]).

Fixpoint trimLeft (s : string) : string :=
  match s with
  | EmptyString => EmptyString
  | String c rest => if isSpace c then trimLeft rest else s
  end.

Fixpoint trimRight (s : string) : string :=
  match s with
  | EmptyString => EmptyString
  | String c rest =>
      match trimRight rest with
      | EmptyString => if isSpace c then EmptyString else String c EmptyString
      | rest' => String c rest'
      end
  end.

(** [strings.TrimSpace] on ASCII input. *)
Definition asciiTrimSpace (s : string) : string := trimRight (trimLeft s).

Definition lowerChar (c : ascii) : ascii :=
  let n := nat_of_ascii c in
  if bool_decide (65 ≤ n ≤ 90)%nat then ascii_of_nat (n + 32) else c.

(** [strings.ToLower] on ASCII input. *)
Fixpoint asciiToLower (s : string) : string :=
  match s with
  | EmptyString => EmptyString
  | String c rest => String (lowerChar c) (asciiToLower rest)
  end.

(** [strconv.Quote] on input that needs no escaping. *)
Definition plainQuote (s : string) : string :=
  String (ascii_of_nat 34) s +:+ String (ascii_of_nat 34) EmptyString.

(** What [url.Parse] returns on the three URLs used below; the second has a
    scheme and an empty authority. *)
Definition sampleParse (s : string) : url_URL + string :=
  if decide (s = "https://cdn.example.com/video.mp4")
  then inl (mkURL "https" "cdn.example.com" "https://cdn.example.com/video.mp4")
  else if decide (s = "http:///video.mp4")
  then inl (mkURL "http" "" "http:///video.mp4")
  else if decide (s = "ftp://cdn.example.com/video.mp4")
  then inl (mkURL "ftp" "cdn.example.com" "ftp://cdn.example.com/video.mp4")
  else inr "net/url: unsupported input".

(** *** A fragment of [defaultCatalog] *)

Definition allSupportedVersions : list Version :=
  [Version30; Version40; Version41; Version42; Version43].

Definition version40Plus : list Version :=
  [Version40; Version41; Version42; Version43].

Definition specVAST : NodeSpec :=
  mkNodeSpec "VAST" allSupportedVersions
    {["version" := mkAttributeSpec "version" allSupportedVersions true false]}
    {["Ad" := mkChildSpec "Ad" allSupportedVersions false true;
      "Error" := mkChildSpec "Error" allSupportedVersions true true]}
    false.

Definition specExtension : NodeSpec :=
  mkNodeSpec "Extension" allSupportedVersions
    {["type" := mkAttributeSpec "type" allSupportedVersions false false]}
    ∅ true.

Definition specAdVerifications : NodeSpec :=
  mkNodeSpec "AdVerifications" version40Plus ∅
    {["Verification" := mkChildSpec "Verification" version40Plus false true]}
    false.

Definition sampleCatalog : Catalog :=
  {["VAST" := specVAST; "Extension" := specExtension;
    "AdVerifications" := specAdVerifications]}.

(** *** Servers

    The network state is the list of the requests sent so far. *)

Definition Log := list Request.

(** Answers 405 to HEAD and 200, with the given content type, to anything
    else. *)
Definition getOnlyServer (contentType : string) : Client Log := λ req log,
  (if decide (Method req = MethodHead)
   then inl (mkResponse 405 ∅)
   else inl (mkResponse 200 {["Content-Type" := contentType]}),
   log ++ [req]).

(** Answers 404 to everything. *)
Definition notFoundServer : Client Log := λ req log,
  (inl (mkResponse 404 ∅), log ++ [req]).

Definition noRegistries : Registries Log := mkRegistries Log ∅ ∅.

Definition noHooks : config Log :=
  DisableCustomValidators Log (defaultConfig Log sampleCatalog).

(** *** Documents *)

Definition attr (name value : string) : xml_Attr := mkAttr (mkName "" name) value.

Definition element (name : string) (attrs : list xml_Attr) (children : list genericNode)
    (content : string) : genericNode :=
  mkNode (mkName "" name) attrs children content.

(** [<MediaFile type="video/mp4">https://cdn.example.com/video.mp4</MediaFile>] *)
Definition mediaFileNode : genericNode :=
  element "MediaFile" [attr "type" "video/mp4"] [] "https://cdn.example.com/video.mp4".

(** [<Extension><AdVerifications/></Extension>] *)
Definition extensionNode : genericNode :=
  element "Extension" [] [element "AdVerifications" [] [] ""] "".

(** [<VAST version="4.2" version="3.0"/>] *)
Definition twoVersionsNode : genericNode :=
  element "VAST" [attr "version" "4.2"; attr "version" "3.0"] [] "".

(** The tokens of [<VAST version=' 5.0 '></VAST>]; every other input is
    answered with a syntax error. *)
Definition sampleTokens (raw : string) : list Token * option string :=
  if decide (raw = "<VAST version=' 5.0 '></VAST>")
  then ([StartElement (mkName "" "VAST") [attr "version" " 5.0 "];
         EndElement (mkName "" "VAST")], None)
  else ([], Some "XML syntax error").

Definition noSummaries (root : NodeResult) : option (gmap string CategorySummary) := None.

(** A node result whose spec-compliance bucket has failed. *)
Definition failedResultNode : NodeResult :=
  mkNodeResult "Ad" allSupportedVersions
    {[IABAnalysisCategory :=
        mkAnalysis IABAnalysisCategory StatusFail ["node Ad is not supported in VAST 2.0"] []]}
    [].

Definition upperCaseHook : NodeValidatorFunc := λ ctx,
  Some (mkAnalysis CustomAnalysisCategory StatusPass [] []).

(** A result tree in the declarations of [result.go]: a passing root, a
    failed child with a reason, a [nil] child and a failed child without a
    reason. *)
Definition summaryTree : Summary.NodeResult :=
  Summary.mkNodeResult "VAST" []
    {[IABAnalysisCategory := Summary.mkAnalysis IABAnalysisCategory StatusPass "" []]}
    [Some (Summary.mkNodeResult "Ad" []
             {[IABAnalysisCategory :=
                 Summary.mkAnalysis IABAnalysisCategory StatusFail "node Ad is not recognized" []]}
             []);
     None;
     Some (Summary.mkNodeResult "Error" []
             {[IABAnalysisCategory := Summary.mkAnalysis IABAnalysisCategory StatusFail "" []]}
             [])].

Definition unsupportedDocument : string := "<VAST version=' 5.0 '></VAST>".

(** ** Witnesses *)

(** C3 on [<VAST version=' 5.0 '>]: version 5.0 is not in the catalog, the
    call returns a result, the root bucket carries the reason of the version
    check made with 5.0 at the root, and it ends with the
    unsupported-version reason. *)
Lemma unsupported_version_run :
  ∃ result iab,
    (Validate asciiTrimSpace asciiToLower Log notFoundServer sampleCatalog sampleTokens
       noSummaries noRegistries unsupportedDocument [DisableCustomValidators Log] []).1 =
      inl result ∧
    VR_Version result = "5.0" ∧
    Analyses (VR_Root result) !! IABAnalysisCategory = Some iab ∧
    Status iab = StatusFail ∧
    last (Reasons iab) = Some "Unsupported VAST version: 5.0" ∧
    "node VAST is not supported in VAST 5.0" ∈ Reasons iab.
Proof.
  destruct (unsupported_version_is_recorded asciiTrimSpace asciiToLower Log notFoundServer
              sampleCatalog sampleTokens noSummaries noRegistries unsupportedDocument
              [DisableCustomValidators Log] []
              (element "VAST" [attr "version" " 5.0 "] [] "") " 5.0 " specVAST)
    as (result & iab & HV & Hver & _ & Hb & Hs & Hl & Hg).
  - done.
  - vm_compute. reflexivity.
  - reflexivity.
  - reflexivity.
  - vm_compute. discriminate.
  - vm_compute. reflexivity.
  - intros Hin. apply versions_contain_elem in Hin. vm_compute in Hin. discriminate.
  - exists result, iab. rewrite HV.
    rewrite visits_eq, allResults_eq in Hg.
    apply Forall2_cons in Hg as [(iab' & Hb' & Hnode & _) _].
    assert (iab' = iab) as -> by congruence.
    destruct (Hnode specVAST eq_refl) as [_ Hin]; [vm_compute; reflexivity|].
    repeat split; assumption.
Defined.


(** C8 on a server that answers 405 to HEAD and 200 with a matching content
    type to the ranged GET: the analysis passes after exactly these two
    requests. *)
Lemma ranged_get_fallback_run :
  mediaFileHTTPValidator asciiTrimSpace asciiToLower plainQuote sampleParse Log notFoundServer
    (mkContext (Some mediaFileNode) "4.2") (Some (getOnlyServer "video/mp4")) [] =
  ((Some (mkAnalysis CustomAnalysisCategory StatusPass [] []), None),
   [headRequest "https://cdn.example.com/video.mp4";
    rangedGetRequest "https://cdn.example.com/video.mp4"]).
Proof.
  destruct (probe_head_then_ranged_get asciiTrimSpace asciiToLower plainQuote sampleParse Log
              notFoundServer (getOnlyServer "video/mp4")
              (mkContext (Some mediaFileNode) "4.2")
              "https://cdn.example.com/video.mp4"
              (mkURL "https" "cdn.example.com" "https://cdn.example.com/video.mp4") [])
    as (_ & _ & Hpass).
  - vm_compute. discriminate.
  - vm_compute. reflexivity.
  - vm_compute. reflexivity.
  - apply (Hpass (mkResponse 405 ∅) [headRequest "https://cdn.example.com/video.mp4"]
             (mkResponse 200 {["Content-Type" := "video/mp4"]})).
    + reflexivity.
    + reflexivity.
    + reflexivity.
    + reflexivity.
    + vm_compute. reflexivity.
Defined.

(** C9 on [summaryTree]: three nodes contribute to the spec-compliance
    category, two of them failed, and the one reason there is gets
    retained. *)
Lemma summary_run :
  ∃ summaries summary,
    Summary.summarizeCategories (Some summaryTree) = Some summaries ∧
    summaries !! IABAnalysisCategory = Some summary ∧
    TotalNodes summary = 3 ∧
    FailingNodes summary = 2 ∧
    Sum_Status summary = StatusFail ∧
    Sum_Reasons summary = ["node Ad is not recognized"].
Proof.
  destruct (SummaryFacts.category_summaries summaryTree IABAnalysisCategory)
    as (Hsome & _ & _).
  - vm_compute. reflexivity.
  - destruct Hsome as (summaries & summary & Hs & Hl & _ & Ht & Hf & Hst & _ & Hr & _).
    + vm_compute. discriminate.
    + exists summaries, summary. repeat split; try assumption.
      apply Hst. apply (bool_decide_unpack _). vm_compute. exact I.
Defined.

(** C10 on the spellings mediafile and MediaFile: the custom hook
    registered under the first is retrieved for the second, and the network
    pass over a MediaFile node calls the probe registered under the first,
    which sends its HEAD request and fails the custom bucket on the 404. *)
Lemma lower_cased_registration_run :
  getCustomValidators asciiToLower
    (RegisterCustomValidator asciiToLower ∅ "mediafile" (Some upperCaseHook)) "MediaFile" =
  getCustomValidators asciiToLower ∅ "MediaFile" ++ [upperCaseHook] ∧
  applyHTTPValidators asciiToLower Log notFoundServer
    (mkRegistries Log ∅
       (RegisterHTTPValidator asciiToLower Log ∅ "mediafile"
          (Some (mediaFileHTTPValidator asciiTrimSpace asciiToLower plainQuote sampleParse Log
                   notFoundServer))))
    (mkNodeResult "MediaFile" [] ∅ []) mediaFileNode "4.2"
    (defaultConfig Log sampleCatalog) [] =
  (mkNodeResult "MediaFile" []
     {[CustomAnalysisCategory :=
         mkAnalysis CustomAnalysisCategory StatusFail
           ["media file responded with HTTP 404"] []]} [],
   [headRequest "https://cdn.example.com/video.mp4"]).
Proof.
  destruct (registries_fold_case asciiToLower Log notFoundServer ∅ ∅ "mediafile" "MediaFile"
              upperCaseHook
              (mediaFileHTTPValidator asciiTrimSpace asciiToLower plainQuote sampleParse Log
                 notFoundServer))
    as (Hget & _ & _ & _ & Hrun & _).
  - reflexivity.
  - split; [exact Hget|]. rewrite Hrun by reflexivity. vm_compute. reflexivity.
Defined.

(** ** Inputs on which the wording of the specification fails *)

(** C2 as worded: [AdVerifications] under [Extension], which allows unknown
    children, in a VAST 3.0 document. The node is exempt, and its
    spec-compliance bucket has failed on the node-version check. *)
Lemma exempt_node_fails_version_check :
  NS_AllowUnknownChildren specExtension = true ∧
  (λ child, (Node child, Analyses child !! IABAnalysisCategory)) <$>
    Children (validateNodeRecursive asciiTrimSpace asciiToLower Log notFoundServer noRegistries
                extensionNode "3.0" noHooks (Some specExtension) None false []).1 =
  [("AdVerifications",
    Some (mkAnalysis IABAnalysisCategory StatusFail
            ["node AdVerifications is not supported in VAST 3.0"] []))].
Proof. split; [reflexivity|]. vm_compute. reflexivity. Qed.

(** C6 as worded: on [<VAST version="4.2" version="3.0">] the lookup
    returns the first value, where last-one-wins would return the second. *)
Lemma lookup_returns_first_occurrence :
  attrValue twoVersionsNode "version" = Some "4.2" ∧
  attrValue_last twoVersionsNode "version" = Some "3.0".
Proof. split; vm_compute; reflexivity. Qed.

(** C7 as worded: a URL with scheme http and an empty host is not empty,
    parses, does not lack both scheme and host, and has an HTTP scheme; it is
    rejected all the same, for its missing host. *)
Lemma host_alone_missing_is_rejected :
  normalizeProbeURL asciiTrimSpace sampleParse "http:///video.mp4" =
    inr (ErrMissingSchemeOrHost "http:///video.mp4") ∧
  asciiTrimSpace "http:///video.mp4" ≠ "" ∧
  sampleParse "http:///video.mp4" = inl (mkURL "http" "" "http:///video.mp4").
Proof. repeat split; vm_compute; (reflexivity || discriminate). Qed.

(** C8 as worded: a server that answers 405 to HEAD and 200 to the ranged
    GET, with a content type other than the declared one. The probe sends
    both requests and the analysis fails. *)
Lemma fallback_with_other_content_type_fails :
  mediaFileHTTPValidator asciiTrimSpace asciiToLower plainQuote sampleParse Log notFoundServer
    (mkContext (Some mediaFileNode) "4.2") (Some (getOnlyServer "text/html")) [] =
  ((Some (mkAnalysis CustomAnalysisCategory StatusFail
            ["content type mismatch: expected video/mp4, got text/html"] []), None),
   [headRequest "https://cdn.example.com/video.mp4";
    rangedGetRequest "https://cdn.example.com/video.mp4"]).
Proof. vm_compute. reflexivity. Qed.

(** * The [vast] package: validated value types ([vast/common.go])

    A Go string is a sequence of bytes; [len] and indexing work on bytes and
    a [range] loop decodes runes. The loops below only ask whether a rune is
    an ASCII digit. A byte outside ASCII is never one, whether it is decoded
    alone or as part of a longer rune, and in a string of ASCII bytes the
    index of a rune is the index of its byte, so the loops are written over
    the bytes. *)
Module VastValues.

Definition rune (c : ascii) : Z := Z.of_nat (nat_of_ascii c).

(** The negation of [char < '0' || char > '9']. *)
Definition isDigit (c : ascii) : bool := (48 <=? rune c) && (rune c <=? 57).

(** [int(char - '0')]. *)
Definition digitValue (c : ascii) : Z := rune c - 48.

Definition errDurationFormat : string := "Duration must be in the format hh:mm:ss".

(** The first loop of [ValidateDuration], from byte index [i] on. *)
Fixpoint checkDigits (i : nat) (str : string) : option string :=
  match str with
  | EmptyString => None
  | String char rest =>
      if bool_decide (i = 2%nat ∨ i = 5%nat) then checkDigits (S i) rest
      else if negb (isDigit char) then Some errDurationFormat
      else checkDigits (S i) rest
  end.

(** The second loop of [ValidateDuration], from byte index [i] on. *)
Fixpoint accumulate (i : nat) (str : string) (numericValue : Z) : Z :=
  match str with
  | EmptyString => numericValue
  | String char rest =>
      if bool_decide (i = 2%nat ∨ i = 5%nat) then accumulate (S i) rest numericValue
      else accumulate (S i) rest (int_wrap (numericValue * 10 + digitValue char))
  end.

Definition ValidateDuration (d : string) : option string :=
  let str := d in
  if bool_decide (String.length str ≠ 8%nat) then Some errDurationFormat
  else if bool_decide (String.get 2 str ≠ Some ":"%char ∨ String.get 5 str ≠ Some ":"%char)
  then Some errDurationFormat
  else
    match checkDigits 0 str with
    | Some err => Some err
    | None =>
        let numericValue := 0 in
        let hours := numericValue `quot` 10000 in
        let minutes := (numericValue `quot` 100) `rem` 100 in
        let seconds := numericValue `rem` 100 in
        if bool_decide (hours < 0 ∨ hours > 23)
        then Some "hours must be between 00 and 23"
        else if bool_decide (minutes < 0 ∨ minutes > 59)
        then Some "minutes must be between 00 and 59"
        else if bool_decide (seconds < 0 ∨ seconds > 59)
        then Some "seconds must be between 00 and 59"
        else
          let numericValue := accumulate 0 str numericValue in
          if bool_decide (numericValue = 0) then Some "Duration cannot be 00:00:00"
          else if bool_decide (numericValue < 5)
          then Some "Duration must be at least 5 seconds"
          else None
    end.

Definition NewDuration (value : string) : string * option string :=
  let dur := value in
  match ValidateDuration dur with
  | Some err => ("", Some err)
  | None => (dur, None)
  end.

(** The numeric loop of the two position validators. *)
Fixpoint checkNumeric (message : string) (str : string) : option string :=
  match str with
  | EmptyString => None
  | String char rest =>
      if negb (isDigit char) then Some message else checkNumeric message rest
  end.

Definition XPosition_Validate (x : string) : option string :=
  let str := x in
  if bool_decide (str = "left" ∨ str = "right") then None
  else checkNumeric "XPosition must be a number, 'left', or 'right'" str.

Definition NewXPosition (value : string) : string * option string :=
  let pos := value in
  match XPosition_Validate pos with
  | Some err => ("", Some err)
  | None => (pos, None)
  end.

Definition YPosition_Validate (y : string) : option string :=
  let str := y in
  if bool_decide (str = "top" ∨ str = "bottom") then None
  else checkNumeric "YPosition must be a number, 'top', or 'bottom'" str.

Definition NewYPosition (value : string) : string * option string :=
  let pos := value in
  match YPosition_Validate pos with
  | Some err => ("", Some err)
  | None => (pos, None)
  end.

(** The text [hh:mm:ss] made of six bytes. *)
Definition clock (h1 h2 m1 m2 s1 s2 : ascii) : string :=
  String h1 (String h2 (String ":" (String m1 (String m2 (String ":"
    (String s1 (String s2 EmptyString))))))).

(** The six digits read as one decimal number. *)
Definition clockNumber (h1 h2 m1 m2 s1 s2 : ascii) : Z :=
  digitValue h1 * 100000 + digitValue h2 * 10000 + digitValue m1 * 1000 +
  digitValue m2 * 100 + digitValue s1 * 10 + digitValue s2.

Definition digits (str : string) : Prop :=
  Forall (λ c, isDigit c = true) (String.list_ascii_of_string str).

Lemma isDigit_value c : isDigit c = true → 0 ≤ digitValue c ≤ 9.
Proof. unfold isDigit, digitValue. intros H. apply andb_true_iff in H. lia. Qed.

Lemma int_wrap_id z : - 2 ^ 63 ≤ z < 2 ^ 63 → int_wrap z = z.
Proof. intros Hz. unfold int_wrap. rewrite Z.mod_small; lia. Qed.

Ltac separators :=
  repeat match goal with
         | |- context [bool_decide (?a = ?b ∨ ?c = ?d)] =>
             first [ rewrite (bool_decide_eq_true_2 (a = b ∨ c = d)) by lia
                   | rewrite (bool_decide_eq_false_2 (a = b ∨ c = d)) by lia ]
         end.

Ltac ranges :=
  change (0 `quot` 10000) with 0; change ((0 `quot` 100) `rem` 100) with 0;
  change (0 `rem` 100) with 0;
  rewrite !(bool_decide_eq_false_2 (0 < 0 ∨ 0 > _)) by lia.

Lemma accumulate_clock h1 h2 m1 m2 s1 s2 :
  isDigit h1 = true → isDigit h2 = true → isDigit m1 = true →
  isDigit m2 = true → isDigit s1 = true → isDigit s2 = true →
  accumulate 0 (clock h1 h2 m1 m2 s1 s2) 0 = clockNumber h1 h2 m1 m2 s1 s2.
Proof.
  intros H1 H2 H3 H4 H5 H6.
  apply isDigit_value in H1, H2, H3, H4, H5, H6.
  unfold clock, clockNumber. cbn [accumulate].
  separators.
  repeat match goal with
         | |- context [int_wrap ?z] =>
             lazymatch z with
             | context [int_wrap _] => fail
             | _ => rewrite (int_wrap_id z) by lia
             end
         end.
  lia.
Qed.

Lemma checkDigits_clock h1 h2 m1 m2 s1 s2 :
  checkDigits 0 (clock h1 h2 m1 m2 s1 s2) = None ↔
  isDigit h1 = true ∧ isDigit h2 = true ∧ isDigit m1 = true ∧
  isDigit m2 = true ∧ isDigit s1 = true ∧ isDigit s2 = true.
Proof.
  unfold clock. cbn [checkDigits].
  separators.
  destruct (isDigit h1), (isDigit h2), (isDigit m1), (isDigit m2),
    (isDigit s1), (isDigit s2); simpl; naive_solver.
Qed.

Lemma checkDigits_message i str err :
  checkDigits i str = Some err → err = errDurationFormat.
Proof.
  revert i. induction str as [|c rest IH]; intros i; simpl; [done|].
  case_bool_decide; [apply IH|]. destruct (isDigit c); simpl; [apply IH|]. congruence.
Qed.

Lemma length_eight str :
  String.length str = 8%nat →
  String.get 2 str = Some ":"%char → String.get 5 str = Some ":"%char →
  ∃ h1 h2 m1 m2 s1 s2, str = clock h1 h2 m1 m2 s1 s2.
Proof.
  intros Hl H2 H5.
  do 8 (destruct str as [|? str]; [done|]). destruct str; [|done].
  simpl in H2, H5. simplify_eq. by eexists _, _, _, _, _, _.
Qed.

Lemma checkNumeric_digits message str :
  checkNumeric message str = None ↔ digits str.
Proof.
  unfold digits. induction str as [|c rest IH]; simpl.
  - split; [intros _; constructor|done].
  - rewrite Forall_cons. destruct (isDigit c); simpl; [naive_solver|].
    split; [done|]. intros [? _]. done.
Qed.

Lemma checkNumeric_message message str err :
  checkNumeric message str = Some err → err = message.
Proof.
  induction str as [|c rest IH]; simpl; [done|].
  destruct (isDigit c); simpl; [done|]. congruence.
Qed.

(** X16. A duration is accepted exactly when it is two digits, a colon, two
    digits, a colon and two digits whose six digits, read as one decimal
    number, are at least 5. No range is imposed on hours, minutes or
    seconds: the three range checks look at a value that is still zero, so
    their errors are never returned. [NewDuration] hands back the text
    itself when it is accepted and the empty duration with the error
    otherwise. *)
Theorem Duration_accepted (d : string) :
  (ValidateDuration d = None ↔
   ∃ h1 h2 m1 m2 s1 s2,
     d = clock h1 h2 m1 m2 s1 s2 ∧
     isDigit h1 = true ∧ isDigit h2 = true ∧ isDigit m1 = true ∧
     isDigit m2 = true ∧ isDigit s1 = true ∧ isDigit s2 = true ∧
     5 ≤ clockNumber h1 h2 m1 m2 s1 s2) ∧
  ValidateDuration d ≠ Some "hours must be between 00 and 23" ∧
  ValidateDuration d ≠ Some "minutes must be between 00 and 59" ∧
  ValidateDuration d ≠ Some "seconds must be between 00 and 59" ∧
  (ValidateDuration d = None → NewDuration d = (d, None)) ∧
  (∀ err, ValidateDuration d = Some err → NewDuration d = ("", Some err)).
Proof.
  assert (∀ err, ValidateDuration d = Some err →
            err = errDurationFormat ∨ err = "Duration cannot be 00:00:00" ∨
            err = "Duration must be at least 5 seconds") as Herrs.
  { intros err. unfold ValidateDuration. cbv zeta.
    case_bool_decide; [naive_solver|]. case_bool_decide; [naive_solver|].
    destruct (checkDigits 0 d) as [e|] eqn:Hc.
    { apply checkDigits_message in Hc. naive_solver. }
    ranges.
    repeat case_bool_decide; naive_solver. }
  split_and!.
  - split.
    + unfold ValidateDuration. cbv zeta.
      case_bool_decide as Hl; [done|]. case_bool_decide as Hs; [done|].
      destruct (length_eight d) as (h1 & h2 & m1 & m2 & s1 & s2 & ->).
      { done. }
      { apply dec_stable. tauto. }
      { apply dec_stable. tauto. }
      destruct (checkDigits 0 _) as [e|] eqn:Hc; [done|].
      apply checkDigits_clock in Hc. destruct Hc as (?&?&?&?&?&?).
      ranges.
      rewrite accumulate_clock by done.
      case_bool_decide; [done|]. case_bool_decide; [done|].
      intros _. exists h1, h2, m1, m2, s1, s2. split_and!; try done. lia.
    + intros (h1 & h2 & m1 & m2 & s1 & s2 & -> & H1 & H2 & H3 & H4 & H5 & H6 & Hn).
      unfold ValidateDuration. cbv zeta.
      rewrite bool_decide_eq_false_2 by (cbn; lia).
      rewrite bool_decide_eq_false_2 by (cbn; naive_solver).
      rewrite (proj2 (checkDigits_clock h1 h2 m1 m2 s1 s2)) by done.
      ranges.
      rewrite accumulate_clock by done.
      rewrite !bool_decide_eq_false_2 by lia. done.
  - intros He. apply Herrs in He. unfold errDurationFormat in He. naive_solver.
  - intros He. apply Herrs in He. unfold errDurationFormat in He. naive_solver.
  - intros He. apply Herrs in He. unfold errDurationFormat in He. naive_solver.
  - intros He. unfold NewDuration. by rewrite He.
  - intros err He. unfold NewDuration. by rewrite He.
Qed.

(** X17. A horizontal position is accepted exactly when it is [left],
    [right] or made of decimal digits only, the empty text included; a
    vertical position exactly when it is [top], [bottom] or made of decimal
    digits only. Each validator has a single error, and the constructors
    hand back the text itself when it is accepted and the empty position
    with that error otherwise. *)
Theorem positions_accepted (p : string) :
  (XPosition_Validate p = None ↔ p = "left" ∨ p = "right" ∨ digits p) ∧
  (YPosition_Validate p = None ↔ p = "top" ∨ p = "bottom" ∨ digits p) ∧
  (XPosition_Validate p = None ∨
   XPosition_Validate p = Some "XPosition must be a number, 'left', or 'right'") ∧
  (YPosition_Validate p = None ∨
   YPosition_Validate p = Some "YPosition must be a number, 'top', or 'bottom'") ∧
  NewXPosition p =
    (if bool_decide (p = "left" ∨ p = "right" ∨ digits p) then (p, None)
     else ("", Some "XPosition must be a number, 'left', or 'right'")) ∧
  NewYPosition p =
    (if bool_decide (p = "top" ∨ p = "bottom" ∨ digits p) then (p, None)
     else ("", Some "YPosition must be a number, 'top', or 'bottom'")).
Proof.
  assert (XPosition_Validate p = None ↔ p = "left" ∨ p = "right" ∨ digits p) as HX.
  { unfold XPosition_Validate. cbv zeta. case_bool_decide as Hn; [naive_solver|].
    rewrite checkNumeric_digits. naive_solver. }
  assert (YPosition_Validate p = None ↔ p = "top" ∨ p = "bottom" ∨ digits p) as HY.
  { unfold YPosition_Validate. cbv zeta. case_bool_decide as Hn; [naive_solver|].
    rewrite checkNumeric_digits. naive_solver. }
  assert (XPosition_Validate p = None ∨
          XPosition_Validate p = Some "XPosition must be a number, 'left', or 'right'")
    as HXe.
  { destruct (XPosition_Validate p) as [e|] eqn:He; [right|by left].
    unfold XPosition_Validate in He. cbv zeta in He. case_bool_decide; [done|].
    apply checkNumeric_message in He. by subst. }
  assert (YPosition_Validate p = None ∨
          YPosition_Validate p = Some "YPosition must be a number, 'top', or 'bottom'")
    as HYe.
  { destruct (YPosition_Validate p) as [e|] eqn:He; [right|by left].
    unfold YPosition_Validate in He. cbv zeta in He. case_bool_decide; [done|].
    apply checkNumeric_message in He. by subst. }
  split_and!; try done.
  - unfold NewXPosition. cbv zeta. case_bool_decide as Hd.
    + apply HX in Hd. by rewrite Hd.
    + destruct HXe as [He|He]; [by apply HX in He|]. by rewrite He.
  - unfold NewYPosition. cbv zeta. case_bool_decide as Hd.
    + apply HY in Hd. by rewrite Hd.
    + destruct HYe as [He|He]; [by apply HY in He|]. by rewrite He.
Qed.

End VastValues.

(** * Further runs *)

(** A failed contribution of a hook to the spec-compliance category, with a
    reason and an empty one. *)
Definition failedContribution : NodeAnalysisResult :=
  mkAnalysis IABAnalysisCategory StatusFail ["creative is not reachable"; ""] [].

(** A network hook that cannot run. *)
Definition refusingHook : HTTPValidatorFunc Log := λ nodeCtx client net,
  ((None, Some "connection refused"), net).

(** [<MediaFiles><MediaFile type="video/mp4">...</MediaFile></MediaFiles>] *)
Definition mediaFilesNode : genericNode := element "MediaFiles" [] [mediaFileNode] "".

Definition mediaFilesDocument : string :=
  "<MediaFiles><MediaFile type='video/mp4'>https://cdn.example.com/video.mp4</MediaFile></MediaFiles>".

(** The tokens of [mediaFilesDocument]; every other input is answered with a
    syntax error. *)
Definition mediaFilesTokens (raw : string) : list Token * option string :=
  if decide (raw = mediaFilesDocument)
  then ([StartElement (mkName "" "MediaFiles") [];
         StartElement (mkName "" "MediaFile") [attr "type" "video/mp4"];
         CharData "https://cdn.example.com/video.mp4";
         EndElement (mkName "" "MediaFile");
         EndElement (mkName "" "MediaFiles")], None)
  else ([], Some "XML syntax error").

(** X2 on a failed bucket: the failed contribution adds its one non-empty
    reason behind the reason that was there. *)
Lemma merged_failure_run :
  ∃ merged,
    Analyses (mergeAnalysis failedResultNode failedContribution) !! IABAnalysisCategory =
      Some merged ∧
    Status merged = StatusFail ∧
    Reasons merged =
      ["node Ad is not supported in VAST 2.0"; "creative is not reachable"].
Proof.
  destruct (mergeAnalysis_existing_bucket failedResultNode failedContribution
              (mkAnalysis IABAnalysisCategory StatusFail
                 ["node Ad is not supported in VAST 2.0"] []))
    as (merged & Hl & _ & Hf & _).
  - vm_compute. reflexivity.
  - destruct (Hf eq_refl) as [Hs Hr].
    exists merged. split; [exact Hl|]. split; [exact Hs|].
    rewrite Hr. vm_compute. reflexivity.
Defined.

(** X6 on [<VAST version=' 5.0 '>] with network hooks switched off and the
    catalog given after that: no request is sent. *)
Lemma disabled_hooks_run :
  (Validate asciiTrimSpace asciiToLower Log notFoundServer sampleCatalog sampleTokens
     noSummaries noRegistries unsupportedDocument
     [DisableHTTPValidators Log; WithCatalog Log (Some sampleCatalog)] []).2 = [].
Proof.
  destruct (disabled_hooks_stay_disabled asciiTrimSpace asciiToLower Log notFoundServer
              sampleCatalog sampleTokens noSummaries noRegistries noRegistries
              unsupportedDocument
              [DisableHTTPValidators Log; WithCatalog Log (Some sampleCatalog)] [] [])
    as [Hnet _].
  - repeat constructor.
  - apply Hnet. left. left. reflexivity.
Defined.

(** X10 on [mediaFilesDocument]: the parsed tree is [mediaFilesNode]. *)
Lemma media_files_parse_run :
  buildNodeTree asciiTrimSpace mediaFilesTokens mediaFilesDocument = inl mediaFilesNode.
Proof.
  apply buildNodeTree_of_tokens.
  - vm_compute. reflexivity.
  - unfold trimmedTree. simpl.
    repeat (constructor; [vm_compute; reflexivity|]). constructor.
Defined.

(** X14 on a hook that cannot connect: the custom bucket of the node has
    failed. *)
Lemma refused_hook_run :
  failedAt CustomAnalysisCategory
    (runHTTPValidators Log [refusingHook] notFoundServer failedResultNode mediaFileNode
       "4.2" []).1.
Proof.
  destruct (hook_error_becomes_failure Log refusingHook [] notFoundServer failedResultNode
              mediaFileNode "4.2" [] [] None "connection refused")
    as [_ Hf].
  - reflexivity.
  - exact Hf.
Defined.
